(** * Postprocessing: boundary load, crack-opening displacement, point values

    A shallow embedding of [src/lib/Postprocessing.hpp] (namespace
    [Postprocessing]) together with the properties its specification states.

    Modelling conventions.
    - [double] is modelled by the exact rationals [Qc]; rounding is not
      modelled, so sums are associative and commutative.  The two sentinels
      [std::numeric_limits<double>::max()] and
      [std::numeric_limits<unsigned int>::max()] are the constants
      [double_max] and [uint_max].
    - [unsigned int] is a [Z] with the 32-bit wrap-around written out.
    - The SPMD execution is simulated: a function receives the list of the
      per-rank arguments (one entry per MPI process) and every collective
      ([Utilities::MPI::sum], [Utilities::MPI::min]) combines the values the
      ranks contribute; the communicator is the history of its collectives.
    - deal.II's mesh iterators and field evaluator ([FEFaceValues]) are
      external: a cell is a record of what the code asks of it, and the
      evaluator is a section variable. *)

From Stdlib Require Import QArith Qcanon ZArith Lia String.
From stdpp Require Import base list.

Open Scope Qc_scope.

(** ** Scalars *)

Definition Qc_of_Z (z : Z) : Qc := Q2Qc (inject_Z z).

Definition two : Qc := Qc_of_Z 2.

(** The literal [0.5]. *)
Definition half : Qc := Q2Qc (1 # 2).

(** [std::numeric_limits<double>::max()]. *)
Definition double_max : Qc := Qc_of_Z (2 ^ 1024 - 2 ^ 971).

(** [std::numeric_limits<unsigned int>::max()]. *)
Definition uint_max : Z := 2 ^ 32 - 1.

(** Arithmetic of [unsigned int]: the result is reduced modulo [2^32]. *)
Definition uint_wrap (z : Z) : Z := z mod 2 ^ 32.

(** Comparisons of doubles as booleans. *)
Definition Qcltb (x y : Qc) : bool := if Qclt_le_dec x y then true else false.
Definition Qcleb (x y : Qc) : bool := if Qclt_le_dec y x then false else true.
Definition Qceqb (x y : Qc) : bool := if Qc_eq_dec x y then true else false.

(** Equality of two points, coordinate by coordinate. *)
Fixpoint Pointeqb (a b : list Qc) : bool :=
  match a, b with
  | [], [] => true
  | x :: a', y :: b' => Qceqb x y && Pointeqb a' b'
  | _, _ => false
  end.

(** The smaller of two doubles, as [MPI_MIN] computes it. *)
Definition Qcmin (x y : Qc) : Qc := if Qclt_le_dec y x then y else x.

(** ** Tensors and points

    [Tensor<1,dim>], [Tensor<2,dim>] and [Point<dim>] are lists of
    components; every operation reads the components [0 .. dim-1] of its
    arguments and produces exactly [dim] components. *)

Abbreviation Tensor1 := (list Qc) (only parsing).
Abbreviation Tensor2 := (list (list Qc)) (only parsing).
Abbreviation Point := (list Qc) (only parsing).
Abbreviation Vec := (list Qc) (only parsing).

Definition entry1 (t : Tensor1) (i : nat) : Qc := default 0 (t !! i).

Definition entry2 (t : Tensor2) (i j : nat) : Qc :=
  entry1 (default [] (t !! i)) j.

(** Sum of [f 0, ..., f (n-1)], accumulated from the left. *)
Definition sum_upto (n : nat) (f : nat -> Qc) : Qc :=
  fold_left (fun acc i => acc + f i) (seq 0 n) 0.

(** Sum of a list, accumulated from the left. *)
Definition sum_list (l : list Qc) : Qc := fold_left Qcplus l 0.

Section Tensors.

Variable dim : nat.

Definition tensor1_zero : Tensor1 := replicate dim 0.

Definition build1 (f : nat -> Qc) : Tensor1 := map f (seq 0 dim).

Definition build2 (f : nat -> nat -> Qc) : Tensor2 :=
  map (fun i => map (f i) (seq 0 dim)) (seq 0 dim).

(** [a + b] on [Tensor<1,dim>]. *)
Definition tensor1_add (a b : Tensor1) : Tensor1 :=
  build1 (fun i => entry1 a i + entry1 b i).

(** [a * s] for a [Tensor<1,dim>] and a [double]. *)
Definition tensor1_scale (a : Tensor1) (s : Qc) : Tensor1 :=
  build1 (fun i => entry1 a i * s).

(** [s * a] for a [double] and a [Tensor<1,dim>]. *)
Definition scale_tensor1 (s : Qc) (a : Tensor1) : Tensor1 :=
  build1 (fun i => s * entry1 a i).

(** [a * b] on two [Tensor<1,dim>]: the scalar product. *)
Definition scalar_product (a b : Tensor1) : Qc :=
  sum_upto dim (fun i => entry1 a i * entry1 b i).

(** [A + B] on [Tensor<2,dim>]. *)
Definition tensor2_add (A B : Tensor2) : Tensor2 :=
  build2 (fun i j => entry2 A i j + entry2 B i j).

(** [s * A] for a [double] and a [Tensor<2,dim>]. *)
Definition scale_tensor2 (s : Qc) (A : Tensor2) : Tensor2 :=
  build2 (fun i j => s * entry2 A i j).

(** [A * n] for a [Tensor<2,dim>] and a [Tensor<1,dim>]: contraction
    over the last index of [A]. *)
Definition contract (A : Tensor2) (n : Tensor1) : Tensor1 :=
  build1 (fun i => sum_upto dim (fun j => entry2 A i j * entry1 n j)).

Definition trace (A : Tensor2) : Qc :=
  sum_upto dim (fun i => entry2 A i i).

(** Modelled from the spec: [ConstitutiveModel::get_identity_tensor]
    (ConstitutiveModel.hpp is not among the sources); the spec's [I] in
    [stress = lambda trace(strain) I + 2 mu strain], the identity. *)
Definition get_identity_tensor : Tensor2 :=
  build2 (fun i j => if Nat.eqb i j then 1 else 0).

(** Modelled from the spec: [PhaseField::convert_to_tensor]
    (PhaseFieldSolver.hpp is not among the sources); it copies the
    symmetric strain tensor into a full rank-2 tensor, entry by entry. *)
Definition convert_to_tensor (s : Tensor2) : Tensor2 :=
  build2 (fun i j => entry2 s i j).

End Tensors.

(** ** Mesh, degrees of freedom and field evaluator *)

Record Face := {
  at_boundary : bool;
  boundary_id : Z
}.

(** What the code asks of an active cell: its faces, its vertices and the
    global index of the degree of freedom of a component at a vertex. *)
Record Cell := {
  face : nat -> Face;
  vertex : nat -> Point;
  vertex_dof_index : nat -> nat -> Z
}.

(** A cell as one rank sees it. *)
Record CellAccessor := {
  cell : Cell;
  is_locally_owned : bool;
  is_artificial : bool
}.

(** The range [begin_active() .. end()] of a [DoFHandler] on one rank. *)
Abbreviation DoFHandler := (list CellAccessor) (only parsing).

(** [GeometryInfo<dim>]. *)
Definition faces_per_cell (dim : nat) : nat := 2 * dim.
Definition vertices_per_cell (dim : nat) : nat := 2 ^ dim.

(** [QGauss<dim-1>(n).size()]: the tensor product of [n] points per
    direction on a face. *)
Definition QGauss_size (dim n : nat) : nat := n ^ (dim - 1).

(** An [FEFaceValues] object after [reinit (cell, f)], indexed by the
    quadrature point [q]; the field functions take the vector they read. *)
Record FEFaceView := {
  normal_vector : nat -> Tensor1;
  JxW : nat -> Qc;
  quadrature_point : nat -> Point;
  get_function_symmetric_gradients : Vec -> nat -> Tensor2;
  get_function_values : Vec -> nat -> Tensor1;
  get_function_gradients : Vec -> nat -> Tensor1
}.

(** [reinit]. *)
Definition FEFaceValues := Cell -> nat -> FEFaceView.

Record FiniteElement := {
  degree : nat;
  dofs_per_cell : nat
}.

(** [PhaseField::PhaseFieldSolver<dim>], the members the code touches. *)
Record PhaseFieldSolver := {
  fe : FiniteElement;
  dof_handler : DoFHandler;
  solution : Vec;
  relevant_solution : Vec
}.

(** [InputData::PhaseFieldData<dim>]. *)
Record PhaseFieldData := {
  lame_constant : Qc;
  shear_modulus : Qc
}.

(** ** Collectives *)

Inductive Collective :=
| AllreduceSum (contributions : list Qc)
| AllreduceMin (contributions : list Qc).

(** A communicator is the history of the collectives completed on it. *)
Abbreviation MPI_Comm := (list Collective) (only parsing).

(** [Utilities::MPI::sum] over the values the ranks contribute, in rank
    order. *)
Definition MPI_sum (contributions : list Qc) : Qc := sum_list contributions.

(** [Utilities::MPI::min]; a communicator has at least one rank, the
    value on the empty list is never used. *)
Definition MPI_min (contributions : list Qc) : Qc :=
  match contributions with
  | [] => double_max
  | x :: rest => fold_left Qcmin rest x
  end.

(** ** Exceptions *)

Inductive Exception :=
| ExcMessage (msg : string)
| ExcIndexRange (index : Z) (size : Z).

Inductive Result (A : Type) :=
| Ok (a : A)
| Throw (e : Exception).

Arguments Ok {A} a.
Arguments Throw {A} e.

Definition bind {A B} (r : Result A) (k : A -> Result B) : Result B :=
  match r with
  | Ok a => k a
  | Throw e => Throw e
  end.

(** A loop whose body may throw: the first exception ends it. *)
Fixpoint foldM {A B} (body : A -> B -> Result A) (l : list B) (a : A)
  : Result A :=
  match l with
  | [] => Ok a
  | b :: rest => bind (body a b) (foldM body rest)
  end.

Fixpoint mapM {A B} (f : A -> Result B) (l : list A) : Result (list B) :=
  match l with
  | [] => Ok []
  | a :: rest =>
      bind (f a) (fun b => bind (mapM f rest) (fun bs => Ok (b :: bs)))
  end.

(** Component and element accesses outside the valid range are errors
    (deal.II's index assertions). *)
Definition vector_read (v : Vec) (index : Z) : Result Qc :=
  if ((0 <=? index) && (index <? Z.of_nat (length v)))%Z
  then Ok (entry1 v (Z.to_nat index))
  else Throw (ExcIndexRange index (Z.of_nat (length v))).

(** The index [1 - direction] of the line test in [compute_cod]; both
    operands are [unsigned int]. *)
Definition complementary_axis (direction : Z) : Z := uint_wrap (1 - direction).

(** ** The three operations *)

Section Postprocessing.

Variable dim : nat.

(** The constructor [FEFaceValues<dim> (fe, QGauss<dim-1>(n), flags)]:
    the external field evaluator for the face quadrature with [n] points
    per direction. *)
Variable make_fe_face_values : FiniteElement -> nat -> FEFaceValues.

(** [Point<dim>::distance], the Euclidean distance of two points. *)
Variable distance : Point -> Point -> Qc.

(** [q_point[index]] on a [Point<dim>]. *)
Definition coordinate (p : Point) (index : Z) : Result Qc :=
  if ((0 <=? index) && (index <? Z.of_nat dim))%Z
  then Ok (entry1 p (Z.to_nat index))
  else Throw (ExcIndexRange index (Z.of_nat dim)).

(** [pf.relevant_solution = pf.solution]. *)
Definition assign_relevant_solution (pf : PhaseFieldSolver)
  : PhaseFieldSolver :=
  {| fe := fe pf;
     dof_handler := dof_handler pf;
     solution := solution pf;
     relevant_solution := solution pf |}.

(** *** compute_boundary_load (lines 9-68) *)

Definition stress_of (data : PhaseFieldData) (strain_value : Tensor2)
  : Tensor2 :=
  tensor2_add dim
    (scale_tensor2 dim (lame_constant data * trace dim strain_value)
       (get_identity_tensor dim))
    (scale_tensor2 dim (two * shear_modulus data) strain_value).

(** The body of the quadrature loop (lines 48-61). *)
Definition boundary_load_q (view : FEFaceView) (data : PhaseFieldData)
    (relevant : Vec) (local_load : Tensor1) (q : nat) : Tensor1 :=
  let strain_value :=
    convert_to_tensor dim (get_function_symmetric_gradients view relevant q) in
  let stress_value := stress_of data strain_value in
  tensor1_add dim local_load
    (tensor1_scale dim (contract dim stress_value (normal_vector view q))
       (JxW view q)).

(** The body of the face loop (lines 39-62). *)
Definition boundary_load_face (fe_face_values : FEFaceValues)
    (data : PhaseFieldData) (relevant : Vec) (n_q_points : nat)
    (bid : Z) (c : CellAccessor) (local_load : Tensor1) (f : nat)
  : Tensor1 :=
  if at_boundary (face (cell c) f)
     && Z.eqb (boundary_id (face (cell c) f)) bid
  then fold_left (boundary_load_q (fe_face_values (cell c) f) data relevant)
         (seq 0 n_q_points) local_load
  else local_load.

(** The body of the cell loop (lines 37-38). *)
Definition boundary_load_cell (fe_face_values : FEFaceValues)
    (data : PhaseFieldData) (relevant : Vec) (n_q_points : nat)
    (bid : Z) (local_load : Tensor1) (c : CellAccessor) : Tensor1 :=
  if is_locally_owned c
  then fold_left
         (boundary_load_face fe_face_values data relevant n_q_points bid c)
         (seq 0 (faces_per_cell dim)) local_load
  else local_load.

(** One rank up to the end of the cell loop (lines 14-62): [local_load]
    and the solver object it leaves. *)
Definition local_boundary_load (pf : PhaseFieldSolver)
    (data : PhaseFieldData) (bid : Z) : Tensor1 * PhaseFieldSolver :=
  let fe_face_values := make_fe_face_values (fe pf) (degree (fe pf) + 1) in
  let n_q_points := QGauss_size dim (degree (fe pf) + 1) in
  let pf' := assign_relevant_solution pf in
  (fold_left
     (boundary_load_cell fe_face_values data (relevant_solution pf')
        n_q_points bid)
     (dof_handler pf') (tensor1_zero dim),
   pf').

(** All ranks of the communicator [pf.mpi_communicator], with the
    reduction of lines 64-65: the value every rank returns, the solver
    objects, and the communicator. *)
Definition compute_boundary_load (pfs : list PhaseFieldSolver)
    (mpi_communicator : MPI_Comm) (data : PhaseFieldData) (bid : Z)
  : Tensor1 * list PhaseFieldSolver * MPI_Comm :=
  let runs := map (fun pf => local_boundary_load pf data bid) pfs in
  let contributions c := map (fun run => entry1 (fst run) c) runs in
  (build1 dim (fun c => MPI_sum (contributions c)),
   map snd runs,
   mpi_communicator
     ++ map (fun c => AllreduceSum (contributions c)) (seq 0 dim)).

(** *** compute_cod (lines 71-133) *)

(** The body of the line loop (lines 117-124); [&&] evaluates its second
    operand only when the first holds. *)
Definition cod_line (view : FEFaceView) (relevant : Vec) (lines : Vec)
    (direction : Z) (space_tol : Qc) (q : nat) (cod_values : Vec)
    (k : nat) : Result Vec :=
  let q_point := quadrature_point view q in
  bind (coordinate q_point (complementary_axis direction)) (fun x =>
    if Qclt_le_dec (entry1 lines k - space_tol) x then
      bind (coordinate q_point (complementary_axis direction)) (fun y =>
        if Qclt_le_dec y (entry1 lines k + space_tol) then
          Ok (alter
                (fun v =>
                   v + scalar_product dim
                         (scale_tensor1 dim half
                            (get_function_values view relevant q))
                         (get_function_gradients view relevant q)
                       * JxW view q)
                k cod_values)
        else Ok cod_values)
    else Ok cod_values).

(** The body of the quadrature loop (lines 114-125). *)
Definition cod_q (view : FEFaceView) (relevant : Vec) (lines : Vec)
    (direction : Z) (space_tol : Qc) (cod_values : Vec) (q : nat)
  : Result Vec :=
  foldM (cod_line view relevant lines direction space_tol q)
    (seq 0 (length lines)) cod_values.

(** The body of the face loop (lines 106-126): every face, no test. *)
Definition cod_face (fe_face_values : FEFaceValues) (relevant : Vec)
    (n_face_q_points : nat) (lines : Vec) (direction : Z)
    (space_tol : Qc) (c : CellAccessor) (cod_values : Vec) (f : nat)
  : Result Vec :=
  foldM (cod_q (fe_face_values (cell c) f) relevant lines direction space_tol)
    (seq 0 n_face_q_points) cod_values.

(** The body of the cell loop (lines 103-104). *)
Definition cod_cell (fe_face_values : FEFaceValues) (relevant : Vec)
    (n_face_q_points : nat) (lines : Vec) (direction : Z)
    (space_tol : Qc) (cod_values : Vec) (c : CellAccessor) : Result Vec :=
  if is_locally_owned c
  then foldM
         (cod_face fe_face_values relevant n_face_q_points lines direction
            space_tol c)
         (seq 0 (faces_per_cell dim)) cod_values
  else Ok cod_values.

(** One rank after the argument check, up to the end of the cell loop
    (lines 81-127). *)
Definition local_cod (pf : PhaseFieldSolver) (lines : Vec) (direction : Z)
    (space_tol : Qc) : Result Vec * PhaseFieldSolver :=
  let fe_face_values := make_fe_face_values (fe pf) 3 in
  let n_face_q_points := QGauss_size dim 3 in
  let pf' := assign_relevant_solution pf in
  (foldM
     (cod_cell fe_face_values (relevant_solution pf') n_face_q_points lines
        direction space_tol)
     (dof_handler pf') (replicate (length lines) 0),
   pf').

(** All ranks, with the argument check of line 79 and the reduction of
    lines 129-130; [space_tol] is passed explicitly (the source defaults it
    to [1e-7]).  A rank that throws never reaches the reduction, so no
    collective completes and the call as a whole fails. *)
Definition compute_cod (pfs : list PhaseFieldSolver) (lines : Vec)
    (mpi_communicator : MPI_Comm) (direction : Z) (space_tol : Qc)
  : Result Vec * list PhaseFieldSolver * MPI_Comm :=
  if (direction <? Z.of_nat dim)%Z then
    let runs := map (fun pf => local_cod pf lines direction space_tol) pfs in
    match mapM fst runs with
    | Ok locals =>
        let contributions k := map (fun cod => entry1 cod k) locals in
        (Ok (map (fun k => MPI_sum (contributions k)) (seq 0 (length lines))),
         map snd runs,
         mpi_communicator
           ++ map (fun k => AllreduceSum (contributions k))
                (seq 0 (length lines)))
    | Throw e => (Throw e, map snd runs, mpi_communicator)
    end
  else (Throw (ExcMessage "Direction argument is wrong"), pfs,
        mpi_communicator).

(** *** get_point_values (lines 135-200) *)

(** The body of the target point loop (lines 166-175). *)
Definition nearest_point (c : Cell) (comp v : nat) (points : list Point)
    (st : Vec * list Z) (p : nat) : Vec * list Z :=
  let distance := distance (default [] (points !! p)) (vertex c v) in
  if Qclt_le_dec distance (entry1 (fst st) p)
  then (<[p := distance]> (fst st),
        <[p := vertex_dof_index c v comp]> (snd st))
  else st.

(** The body of the vertex loop (lines 164-176). *)
Definition nearest_vertex (c : Cell) (comp : nat) (points : list Point)
    (st : Vec * list Z) (v : nat) : Vec * list Z :=
  fold_left (nearest_point c comp v points) (seq 0 (length points)) st.

(** The body of the cell loop (lines 159-177). *)
Definition nearest_cell (comp : nat) (points : list Point)
    (st : Vec * list Z) (c : CellAccessor) : Vec * list Z :=
  if is_artificial c then st
  else fold_left (nearest_vertex (cell c) comp points)
         (seq 0 (vertices_per_cell dim)) st.

(** One rank up to the end of the cell loop (lines 144-178):
    [min_distances] and [closest_vertex_idx]. *)
Definition local_nearest (dh : DoFHandler) (comp : nat)
    (points : list Point) : Vec * list Z :=
  fold_left (nearest_cell comp points) dh
    (replicate (length points) double_max,
     replicate (length points) uint_max).

(** What one rank stores in [values[p]] once it knows the global
    minimum distance (lines 185-193). *)
Definition rank_value (solution : Vec) (global_min_distance : Qc)
    (p : nat) (st : Vec * list Z) : Result Qc :=
  if Qc_eq_dec global_min_distance (entry1 (fst st) p)
  then vector_read solution (default 0%Z (snd st !! p))
  else Ok double_max.

(** The first point loop on all ranks (lines 183-194): per point, the
    values the ranks hold.  The read of a rank may throw after the
    collective of that point has completed. *)
Fixpoint read_values (solution : Vec) (locals : list (Vec * list Z))
    (ps : list nat) (comm : MPI_Comm) : Result (list (list Qc)) * MPI_Comm :=
  match ps with
  | [] => (Ok [], comm)
  | p :: rest =>
      let contributions := map (fun st => entry1 (fst st) p) locals in
      let global_min_distance := MPI_min contributions in
      let comm1 := comm ++ [AllreduceMin contributions] in
      match mapM (rank_value solution global_min_distance p) locals with
      | Throw e => (Throw e, comm1)
      | Ok vs =>
          match read_values solution locals rest comm1 with
          | (Ok vss, comm2) => (Ok (vs :: vss), comm2)
          | (Throw e, comm2) => (Throw e, comm2)
          end
      end
  end.

(** All ranks, with the final reduction of lines 196-197: [dhs] holds
    the [DoFHandler] of every rank, [solution] is the distributed vector. *)
Definition get_point_values (dhs : list DoFHandler) (solution : Vec)
    (comp : nat) (points : list Point) (mpi_communicator : MPI_Comm)
  : Result Vec * MPI_Comm :=
  let locals := map (fun dh => local_nearest dh comp points) dhs in
  match read_values solution locals (seq 0 (length points)) mpi_communicator
  with
  | (Ok vss, comm) =>
      (Ok (map MPI_min vss), comm ++ map AllreduceMin vss)
  | (Throw e, comm) => (Throw e, comm)
  end.

End Postprocessing.

(** * The specification's formulas

    The quantities the specification describes, written as sums over the
    quadrature samples of a mesh partition; then the nearest-vertex search
    seen from one query point, and the conditions on meshes and partitions
    the properties are stated under. *)

Section Specification.

Variable dim : nat.
Variable make_fe_face_values : FiniteElement -> nat -> FEFaceValues.
Variable distance : list Qc -> list Qc -> Qc.

(** The locally-owned cells of a rank, in traversal order. *)
Definition owned_cells (dh : DoFHandler) : list Cell :=
  map cell (List.filter is_locally_owned dh).

(** The cells of a rank that are not artificial (owned or ghost). *)
Definition visible_cells (dh : DoFHandler) : list Cell :=
  map cell (List.filter (fun c => negb (is_artificial c)) dh).

(** Every vertex of every visible cell, as (cell, vertex number). *)
Definition visible_vertices (dh : DoFHandler) : list (Cell * nat) :=
  flat_map (fun c => map (pair c) (seq 0 (vertices_per_cell dim)))
    (visible_cells dh).

(** [stress = lambda trace(strain) I + 2 mu strain], entry [(i, j)]. *)
Definition stress_entry (data : PhaseFieldData) (strain : Tensor2)
    (i j : nat) : Qc :=
  lame_constant data * sum_upto dim (fun k => entry2 strain k k)
    * (if Nat.eqb i j then 1 else 0)
  + two * shear_modulus data * entry2 strain i j.

(** Component [i] of [stress * normal]. *)
Definition traction (data : PhaseFieldData) (strain : Tensor2)
    (normal : Tensor1) (i : nat) : Qc :=
  sum_upto dim (fun j => stress_entry data strain i j * entry1 normal j).

(** The faces of a cell at the domain boundary that carry [bid]. *)
Definition tagged_faces (bid : Z) (c : Cell) : list nat :=
  List.filter
    (fun f => at_boundary (face c f) && Z.eqb (boundary_id (face c f)) bid)
    (seq 0 (faces_per_cell dim)).

(** The quadrature samples of the boundary integral on one rank: every
    quadrature point of every tagged boundary face of every owned cell. *)
Definition boundary_samples (pf : PhaseFieldSolver) (bid : Z)
  : list (FEFaceView * nat) :=
  flat_map
    (fun c =>
       flat_map
         (fun f =>
            map (pair (make_fe_face_values (fe pf) (degree (fe pf) + 1) c f))
              (seq 0 (QGauss_size dim (degree (fe pf) + 1))))
         (tagged_faces bid c))
    (owned_cells (dof_handler pf)).

(** Component [i] of [stress * normal * weight] at one sample, the strain
    being evaluated from [u]. *)
Definition load_density (data : PhaseFieldData) (u : Vec) (i : nat)
    (s : FEFaceView * nat) : Qc :=
  traction data (get_function_symmetric_gradients (fst s) u (snd s))
    (normal_vector (fst s) (snd s)) i
  * JxW (fst s) (snd s).

(** The boundary load of the specification: per component, the global
    sum over the ranks of the local sums over the samples. *)
Definition boundary_load_spec (pfs : list PhaseFieldSolver)
    (data : PhaseFieldData) (bid : Z) : Tensor1 :=
  build1 dim (fun i =>
    sum_list
      (map (fun pf =>
              sum_list
                (map (load_density data (solution pf) i)
                   (boundary_samples pf bid)))
         pfs)).

(** The faces [compute_cod] evaluates on one rank: every face number of
    every owned cell, as (cell, face number). *)
Definition cod_faces (dh : DoFHandler) : list (Cell * nat) :=
  flat_map (fun c => map (pair c) (seq 0 (faces_per_cell dim)))
    (owned_cells dh).

(** The quadrature samples of one evaluated face. *)
Definition face_samples (pf : PhaseFieldSolver) (cf : Cell * nat)
  : list (FEFaceView * nat) :=
  map (pair (make_fe_face_values (fe pf) 3 (fst cf) (snd cf)))
    (seq 0 (QGauss_size dim 3)).

(** The quadrature samples of the crack-opening integral on one rank. *)
Definition cod_samples (pf : PhaseFieldSolver) : list (FEFaceView * nat) :=
  flat_map (face_samples pf) (cod_faces (dof_handler pf)).

(** The sample's coordinate along [axis] lies within [space_tol] of
    [line]; for [compute_cod] the axis is the complementary one,
    [1 - axis]. *)
Definition on_line (axis : nat) (space_tol line : Qc)
    (s : FEFaceView * nat) : bool :=
  let x := entry1 (quadrature_point (fst s) (snd s)) axis in
  if Qclt_le_dec (line - space_tol) x
  then if Qclt_le_dec x (line + space_tol) then true else false
  else false.

(** [0.5 * (displacement . phase_field_gradient) * weight] at a sample. *)
Definition cod_density (u : Vec) (s : FEFaceView * nat) : Qc :=
  half
  * scalar_product dim (get_function_values (fst s) u (snd s))
      (get_function_gradients (fst s) u (snd s))
  * JxW (fst s) (snd s).

(** What a sample contributes to the line at coordinate [line]. *)
Definition cod_contribution (axis : nat) (space_tol line : Qc) (u : Vec)
    (s : FEFaceView * nat) : Qc :=
  if on_line axis space_tol line s then cod_density u s else 0.

(** What one evaluated face contributes to line [k] on one rank. *)
Definition face_cod (pf : PhaseFieldSolver) (lines : Vec) (axis : nat)
    (space_tol : Qc) (k : nat) (cf : Cell * nat) : Qc :=
  sum_list
    (map (cod_contribution axis space_tol (entry1 lines k) (solution pf))
       (face_samples pf cf)).

(** The local crack-opening sums of one rank. *)
Definition local_cod_spec (pf : PhaseFieldSolver) (lines : Vec)
    (axis : nat) (space_tol : Qc) : Vec :=
  build1 (length lines) (fun k =>
    sum_list
      (map (cod_contribution axis space_tol (entry1 lines k) (solution pf))
         (cod_samples pf))).

(** The crack-opening profile of the specification: per line, the global
    sum over the ranks of the local sums over the samples. *)
Definition cod_spec (pfs : list PhaseFieldSolver) (lines : Vec)
    (axis : nat) (space_tol : Qc) : Vec :=
  build1 (length lines) (fun k =>
    sum_list
      (map (fun pf =>
              sum_list
                (map (cod_contribution axis space_tol (entry1 lines k)
                        (solution pf))
                   (cod_samples pf)))
         pfs)).

(** The sum of the quadrature weights of the samples matched by a line,
    over all ranks. *)
Definition matched_weight (pfs : list PhaseFieldSolver) (axis : nat)
    (space_tol line : Qc) : Qc :=
  sum_list
    (map (fun pf =>
            sum_list
              (map (fun s => JxW (fst s) (snd s))
                 (List.filter (on_line axis space_tol line)
                    (cod_samples pf))))
       pfs).

(** The line-loop body once its coordinate accesses have succeeded. *)
Definition cod_line_pure (view : FEFaceView) (relevant lines : Vec)
    (axis : nat) (space_tol : Qc) (q : nat) (cod_values : Vec) (k : nat)
  : Vec :=
  if on_line axis space_tol (entry1 lines k) (view, q)
  then alter
         (fun v =>
            v + scalar_product dim
                  (scale_tensor1 dim half (get_function_values view relevant q))
                  (get_function_gradients view relevant q)
                * JxW view q)
         k cod_values
  else cod_values.

(** The search for the vertex nearest to one query point, seen from that
    point alone: the running minimum distance and the degree of freedom
    recorded with it. *)
Definition scan_step (comp : nat) (point : Point) (st : Qc * Z)
    (cv : Cell * nat) : Qc * Z :=
  if Qclt_le_dec (distance point (vertex (fst cv) (snd cv))) (fst st)
  then (distance point (vertex (fst cv) (snd cv)),
        vertex_dof_index (fst cv) (snd cv) comp)
  else st.

Definition scan (comp : nat) (point : Point) (l : list (Cell * nat))
  : Qc * Z :=
  fold_left (scan_step comp point) l (double_max, uint_max).

(** Entry [p] of the two arrays of the local search. *)
Definition point_state (p : nat) (st : Vec * list Z) : Qc * Z :=
  (entry1 (fst st) p, default 0%Z (snd st !! p)).

(** Both arrays of the local search have the length [n_points]. *)
Definition arrays_ok (n : nat) (st : Vec * list Z) : Prop :=
  length (fst st) = n /\ length (snd st) = n.

(** The value a rank holds for a point, given the global minimum
    distance and the rank's entry for that point. *)
Definition held_value (solution : Vec) (global_min_distance : Qc)
    (s : Qc * Z) : Qc :=
  if Qc_eq_dec global_min_distance (fst s)
  then entry1 solution (Z.to_nat (snd s))
  else double_max.

(** The value [get_point_values] computes for one query point: every
    rank searches its own visible vertices, the ranks whose minimum
    distance is the global one hold the value at the vertex they found,
    the others hold the sentinel, and the least held value is returned. *)
Definition nearest_value (dhs : list DoFHandler) (solution : Vec)
    (comp : nat) (point : Point) : Qc :=
  let found := map (fun dh => scan comp point (visible_vertices dh)) dhs in
  MPI_min (map (held_value solution (MPI_min (map fst found))) found).

(** What [get_point_values] expects of its arguments: the degrees of
    freedom of the visible vertices index the solution vector, the values
    and the distances are finite doubles, and some rank sees a vertex. *)
Definition sampler_inputs_ok (dhs : list DoFHandler) (solution : Vec)
    (comp : nat) (points : list Point) : Prop :=
  (forall dh cv,
      In dh dhs -> In cv (visible_vertices dh) ->
      (0 <= vertex_dof_index (fst cv) (snd cv) comp
       < Z.of_nat (length solution))%Z)
  /\ (forall x, In x solution -> x <= double_max)
  /\ (forall point dh cv,
         In point points -> In dh dhs -> In cv (visible_vertices dh) ->
         distance point (vertex (fst cv) (snd cv)) < double_max)
  /\ (exists dh cv, In dh dhs /\ In cv (visible_vertices dh)).

(** [pfs] holds the solver objects of the ranks of a partition of the
    mesh that [pf0] holds on a single rank: on the single rank every cell
    is owned; the ranks share the finite element and the solution; every
    cell is owned by exactly one rank; what a rank sees (owned or ghost)
    is a cell of the mesh, and what it owns it sees. *)
Definition partition_of (pfs : list PhaseFieldSolver) (pf0 : PhaseFieldSolver)
  : Prop :=
  Forall (fun c => is_locally_owned c = true /\ is_artificial c = false)
    (dof_handler pf0)
  /\ (forall pf, In pf pfs -> fe pf = fe pf0 /\ solution pf = solution pf0)
  /\ Permutation (flat_map (fun pf => owned_cells (dof_handler pf)) pfs)
       (owned_cells (dof_handler pf0))
  /\ (forall pf c,
         In pf pfs -> In c (visible_cells (dof_handler pf)) ->
         In c (visible_cells (dof_handler pf0)))
  /\ (forall pf c,
         In pf pfs -> In c (dof_handler pf) -> is_locally_owned c = true ->
         is_artificial c = false).

(** A vertex of [dh] at the least distance from [point]. *)
Definition nearest_to (dh : DoFHandler) (point : Point) (cv : Cell * nat)
  : Prop :=
  In cv (visible_vertices dh)
  /\ forall cv', In cv' (visible_vertices dh) ->
                 distance point (vertex (fst cv) (snd cv))
                 <= distance point (vertex (fst cv') (snd cv')).

(** All vertices nearest to a query point carry the same value. *)
Definition nearest_value_unique (dh : DoFHandler) (solution : Vec)
    (comp : nat) (points : list Point) : Prop :=
  forall point cv cv',
    In point points -> nearest_to dh point cv -> nearest_to dh point cv' ->
    entry1 solution (Z.to_nat (vertex_dof_index (fst cv) (snd cv) comp))
    = entry1 solution (Z.to_nat (vertex_dof_index (fst cv') (snd cv') comp)).

(** *** Decision procedures for the conditions above *)

Definition all_visible (dhs : list DoFHandler) : list (Cell * nat) :=
  flat_map visible_vertices dhs.

Definition sampler_inputs_okb (dhs : list DoFHandler) (solution : Vec)
    (comp : nat) (points : list Point) : bool :=
  forallb
    (fun cv =>
       (0 <=? vertex_dof_index (fst cv) (snd cv) comp)%Z
       && (vertex_dof_index (fst cv) (snd cv) comp
           <? Z.of_nat (length solution))%Z)
    (all_visible dhs)
  && forallb (fun x => Qcleb x double_max) solution
  && forallb
       (fun point =>
          forallb
            (fun cv =>
               Qcltb (distance point (vertex (fst cv) (snd cv))) double_max)
            (all_visible dhs))
       points
  && match all_visible dhs with [] => false | _ :: _ => true end.

Definition nearerb (point : Point) (cv cv' : Cell * nat) : bool :=
  Qcltb (distance point (vertex (fst cv) (snd cv)))
    (distance point (vertex (fst cv') (snd cv'))).

Definition nearest_value_uniqueb (dh : DoFHandler) (solution : Vec)
    (comp : nat) (points : list Point) : bool :=
  forallb
    (fun point =>
       forallb
         (fun cv =>
            forallb
              (fun cv' =>
                 Qceqb
                   (entry1 solution
                      (Z.to_nat (vertex_dof_index (fst cv) (snd cv) comp)))
                   (entry1 solution
                      (Z.to_nat (vertex_dof_index (fst cv') (snd cv') comp)))
                 || existsb (fun cv'' => nearerb point cv'' cv)
                      (visible_vertices dh)
                 || existsb (fun cv'' => nearerb point cv'' cv')
                      (visible_vertices dh))
              (visible_vertices dh))
         (visible_vertices dh))
    points.

(** A zero distance to a visible vertex means the point is that vertex. *)
Definition zero_distance_hitsb (dhs : list DoFHandler)
    (points : list Point) : bool :=
  forallb
    (fun point =>
       forallb
         (fun cv =>
            negb (Qceqb (distance point (vertex (fst cv) (snd cv))) 0)
            || Pointeqb point (vertex (fst cv) (snd cv)))
         (all_visible dhs))
    points.

(** Visible vertices at one position share their degree of freedom. *)
Definition dofs_consistentb (dhs : list DoFHandler) (comp : nat) : bool :=
  forallb
    (fun cv =>
       forallb
         (fun cv' =>
            negb (Pointeqb (vertex (fst cv) (snd cv))
                    (vertex (fst cv') (snd cv')))
            || (vertex_dof_index (fst cv) (snd cv) comp
                =? vertex_dof_index (fst cv') (snd cv') comp)%Z)
         (all_visible dhs))
    (all_visible dhs).

End Specification.

(** * A concrete mesh

    A strip of [n] unit squares [[i, i+1] x [0, 1]] in two dimensions,
    with deal.II's numbering of vertices and faces, three degrees of
    freedom per vertex, and an evaluator with uniform fields.  The
    quadrature rule is the midpoint rule with [n] points per direction
    (rational nodes standing in for the Gauss nodes), and the distance is
    the sum of the coordinate distances, which is the Euclidean distance
    between points of a common grid line. *)

Module Example.

Definition Qcabs' (x : Qc) : Qc := if Qclt_le_dec x 0 then - x else x.

Definition grid_distance (a b : Point) : Qc :=
  Qcabs' (entry1 a 0 - entry1 b 0) + Qcabs' (entry1 a 1 - entry1 b 1).

(** Vertex [v] of the square [i]: the corner [(i + v mod 2, v / 2)]. *)
Definition strip_vertex (i : Z) (v : nat) : Point :=
  [Qc_of_Z (i + Z.of_nat (v mod 2)); Qc_of_Z (Z.of_nat (v / 2))].

(** The vertex at [(x, y)] has the number [x + 5 y]; its degree of
    freedom for component [comp] is [3 (x + 5 y) + comp]. *)
Definition strip_dof (i : Z) (v comp : nat) : Z :=
  3 * (i + Z.of_nat (v mod 2) + 5 * Z.of_nat (v / 2)) + Z.of_nat comp.

(** Faces 0 and 1 are the left and right sides, 2 and 3 bottom and top.
    The left side of the first square carries the boundary identifier 0,
    the right side of the last square 1, bottoms 2 and tops 3; interior
    faces carry [numbers::internal_face_boundary_id]. *)
Definition strip_face (n i : Z) (f : nat) : Face :=
  match f with
  | 0%nat => if (i =? 0)%Z then {| at_boundary := true; boundary_id := 0 |}
             else {| at_boundary := false; boundary_id := uint_max |}
  | 1%nat => if (i =? n - 1)%Z then {| at_boundary := true; boundary_id := 1 |}
             else {| at_boundary := false; boundary_id := uint_max |}
  | 2%nat => {| at_boundary := true; boundary_id := 2 |}
  | _ => {| at_boundary := true; boundary_id := 3 |}
  end.

Definition strip_cell (n i : Z) : Cell :=
  {| face := strip_face n i;
     vertex := strip_vertex i;
     vertex_dof_index := strip_dof i |}.

Definition owned (c : Cell) : CellAccessor :=
  {| cell := c; is_locally_owned := true; is_artificial := false |}.

Definition ghost (c : Cell) : CellAccessor :=
  {| cell := c; is_locally_owned := false; is_artificial := false |}.

Definition artificial (c : Cell) : CellAccessor :=
  {| cell := c; is_locally_owned := false; is_artificial := true |}.

(** The two end points of face [f] of a cell. *)
Definition face_ends (c : Cell) (f : nat) : Point * Point :=
  match f with
  | 0%nat => (vertex c 0, vertex c 2)
  | 1%nat => (vertex c 1, vertex c 3)
  | 2%nat => (vertex c 0, vertex c 1)
  | _ => (vertex c 2, vertex c 3)
  end.

Definition outward_normal (f : nat) : Tensor1 :=
  match f with
  | 0%nat => [- (1); 0]
  | 1%nat => [1; 0]
  | 2%nat => [0; - (1)]
  | _ => [0; 1]
  end.

(** Node [q] of the midpoint rule with [n] points on [[0, 1]]. *)
Definition node (n q : nat) : Qc :=
  Q2Qc (Z.of_nat (2 * q + 1) # Pos.of_nat (2 * n)).

(** The evaluator: the fields are uniform, the displacement is
    [(u[0], u[1])], the phase-field gradient [(u[2], u[3])] and the
    strain [[u[4], u[5]], [u[5], u[6]]]. *)
Definition strip_fe_face_values (_ : FiniteElement) (n : nat) : FEFaceValues :=
  fun c f =>
    let a := fst (face_ends c f) in
    let b := snd (face_ends c f) in
    {| normal_vector := fun _ => outward_normal f;
       JxW := fun _ => grid_distance a b * Q2Qc (1 # Pos.of_nat n);
       quadrature_point := fun q =>
         build1 2 (fun i => entry1 a i + node n q * (entry1 b i - entry1 a i));
       get_function_symmetric_gradients := fun u _ =>
         [[entry1 u 4; entry1 u 5]; [entry1 u 5; entry1 u 6]];
       get_function_values := fun u _ => [entry1 u 0; entry1 u 1];
       get_function_gradients := fun u _ => [entry1 u 2; entry1 u 3] |}.

Definition Q1 : FiniteElement := {| degree := 1; dofs_per_cell := 12 |}.

(** Displacement [(1, 0)], phase-field gradient [(0, -2)], strain
    [[1/100, 0], [0, 0]]; then zeros up to the 30 degrees of freedom of
    the four-cell strip. *)
Definition uniform_solution : Vec :=
  [1; 0; 0; - Qc_of_Z 2; Q2Qc (1 # 100); 0; 0] ++ replicate 23 0.

(** The value [100 - d] at the degree of freedom [d]. *)
Definition nodal_solution : Vec :=
  map (fun d => Qc_of_Z (100 - Z.of_nat d)) (seq 0 30).

Definition steel : PhaseFieldData :=
  {| lame_constant := Qc_of_Z 3; shear_modulus := Qc_of_Z 2 |}.

Definition solver (dh : DoFHandler) (u : Vec) : PhaseFieldSolver :=
  {| fe := Q1; dof_handler := dh; solution := u; relevant_solution := [] |}.

(** The strip of four squares on one rank. *)
Definition serial4 : DoFHandler :=
  [owned (strip_cell 4 0); owned (strip_cell 4 1);
   owned (strip_cell 4 2); owned (strip_cell 4 3)].

(** The same strip on two ranks: rank 0 owns the squares 0, 1 and 2 and
    sees 3 as a ghost; rank 1 owns the square 3, sees 2 as a ghost, and
    the squares 0 and 1 are artificial for it. *)
Definition rank0_of_2 : DoFHandler :=
  [owned (strip_cell 4 0); owned (strip_cell 4 1);
   owned (strip_cell 4 2); ghost (strip_cell 4 3)].

Definition rank1_of_2 : DoFHandler :=
  [artificial (strip_cell 4 0); artificial (strip_cell 4 1);
   ghost (strip_cell 4 2); owned (strip_cell 4 3)].

(** A strip of two squares, serial and on two ranks that see each
    other's square as a ghost. *)
Definition serial2 : DoFHandler :=
  [owned (strip_cell 2 0); owned (strip_cell 2 1)].

Definition left_of_2 : DoFHandler :=
  [owned (strip_cell 2 0); ghost (strip_cell 2 1)].

Definition right_of_2 : DoFHandler :=
  [ghost (strip_cell 2 0); owned (strip_cell 2 1)].

(** A rank that holds no cell, and one whose cells are all artificial. *)
Definition no_cells : DoFHandler := [].

Definition only_artificial : DoFHandler :=
  [artificial (strip_cell 2 0); artificial (strip_cell 2 1)].

(** The tolerance [1e-7], the transect line at [0.5], and three query
    points: the vertex [(1, 0)], a point nearest to the vertex [(0, 0)],
    and the midpoint between the vertices [(1, 0)] and [(2, 0)]. *)
Definition space_tol : Qc := Q2Qc (1 # 10000000).

Definition middle_line : Vec := [half].

Definition hit_point : Point := strip_vertex 0 1.

Definition quarter_point : Point := [Q2Qc (1 # 4); 0].

Definition tie_point : Point := [Q2Qc (3 # 2); 0].

(** The numbers a call returned, for comparing two results. *)
Definition values_of (r : Result Vec) : list Q :=
  match r with
  | Ok values => map this values
  | Throw _ => []
  end.

End Example.

(** * Properties *)

(** ** Sums and tensors *)

Lemma fold_left_Qcplus_acc (l : list Qc) (a : Qc) :
  fold_left Qcplus l a = a + sum_list l.
Proof.
  unfold sum_list. revert a.
  induction l as [|x l IH]; intros a; simpl.
  - ring.
  - rewrite IH, (IH (0 + x)). ring.
Qed.

Lemma sum_list_cons (x : Qc) (l : list Qc) :
  sum_list (x :: l) = x + sum_list l.
Proof.
  unfold sum_list at 1. simpl. rewrite fold_left_Qcplus_acc. ring.
Qed.

Lemma sum_list_app (l1 l2 : list Qc) :
  sum_list (l1 ++ l2) = sum_list l1 + sum_list l2.
Proof.
  induction l1 as [|x l1 IH]; simpl.
  - unfold sum_list at 2. simpl. ring.
  - rewrite !sum_list_cons, IH. ring.
Qed.

Lemma sum_upto_sum_list (n : nat) (f : nat -> Qc) :
  sum_upto n f = sum_list (map f (seq 0 n)).
Proof.
  unfold sum_upto, sum_list. generalize (seq 0 n) (0 : Qc).
  intros l. induction l as [|i l IH]; intros a; simpl; [reflexivity|].
  apply IH.
Qed.

Lemma sum_upto_ext (n : nat) (f g : nat -> Qc) :
  (forall i, (i < n)%nat -> f i = g i) -> sum_upto n f = sum_upto n g.
Proof.
  intros H. rewrite !sum_upto_sum_list. f_equal.
  apply map_ext_in. intros i Hi. apply H.
  apply in_seq in Hi. lia.
Qed.

Lemma sum_upto_scale (n : nat) (c : Qc) (f : nat -> Qc) :
  sum_upto n (fun i => c * f i) = c * sum_upto n f.
Proof.
  rewrite !sum_upto_sum_list.
  induction (seq 0 n) as [|i l IH]; simpl.
  - unfold sum_list. simpl. ring.
  - rewrite !sum_list_cons, IH. ring.
Qed.

Lemma lookup_map {A B} (f : A -> B) (l : list A) (i : nat) :
  map f l !! i = option_map f (l !! i).
Proof.
  revert i. induction l as [|x l IH]; intros [|i]; simpl; auto.
Qed.

Lemma entry1_map_seq (n : nat) (f : nat -> Qc) (i : nat) :
  (i < n)%nat -> entry1 (map f (seq 0 n)) i = f i.
Proof.
  intros Hi. unfold entry1.
  rewrite lookup_map, lookup_seq_lt by lia. reflexivity.
Qed.

Lemma entry1_build1 (dim : nat) (f : nat -> Qc) (i : nat) :
  (i < dim)%nat -> entry1 (build1 dim f) i = f i.
Proof. apply entry1_map_seq. Qed.

Lemma entry2_build2 (dim : nat) (f : nat -> nat -> Qc) (i j : nat) :
  (i < dim)%nat -> (j < dim)%nat -> entry2 (build2 dim f) i j = f i j.
Proof.
  intros Hi Hj. unfold entry2, build2.
  rewrite lookup_map, lookup_seq_lt by lia. simpl.
  apply entry1_map_seq. exact Hj.
Qed.

Lemma build1_ext (dim : nat) (f g : nat -> Qc) :
  (forall i, (i < dim)%nat -> f i = g i) -> build1 dim f = build1 dim g.
Proof.
  intros H. unfold build1. apply map_ext_in. intros i Hi. apply H.
  apply in_seq in Hi. lia.
Qed.

Lemma tensor1_zero_build1 (dim : nat) :
  tensor1_zero dim = build1 dim (fun _ => 0).
Proof.
  unfold tensor1_zero, build1. generalize 0%nat.
  induction dim as [|n IH]; intros s; simpl; [reflexivity|].
  f_equal. apply IH.
Qed.

(** ** Nested loops as one loop over the visited samples *)

Lemma fold_left_flat_map {A B C} (step : A -> C -> A) (h : B -> list C)
    (l : list B) (acc : A) :
  fold_left (fun a x => fold_left step (h x) a) l acc
  = fold_left step (flat_map h l) acc.
Proof.
  revert acc. induction l as [|x l IH]; intros acc; simpl; [reflexivity|].
  rewrite fold_left_app. apply IH.
Qed.

Lemma fold_left_map {A B C} (step : A -> C -> A) (g : B -> C)
    (l : list B) (acc : A) :
  fold_left step (map g l) acc = fold_left (fun a x => step a (g x)) l acc.
Proof.
  revert acc. induction l as [|x l IH]; intros acc; simpl; auto.
Qed.

Lemma fold_left_ext {A B} (f g : A -> B -> A) (l : list B) (acc : A) :
  (forall a x, f a x = g a x) -> fold_left f l acc = fold_left g l acc.
Proof.
  intros H. revert acc. induction l as [|x l IH]; intros acc; simpl; auto.
  rewrite H. apply IH.
Qed.

Lemma flat_map_filter {A B} (P : A -> bool) (h : A -> list B) (l : list A) :
  flat_map h (List.filter P l) = flat_map (fun x => if P x then h x else []) l.
Proof.
  induction l as [|x l IH]; simpl; [reflexivity|].
  destruct (P x); simpl; rewrite IH; reflexivity.
Qed.

Lemma flat_map_map {A B C} (g : A -> B) (h : B -> list C) (l : list A) :
  flat_map h (map g l) = flat_map (fun x => h (g x)) l.
Proof.
  induction l as [|x l IH]; simpl; [reflexivity|]. rewrite IH. reflexivity.
Qed.

Section BoundaryLoad.

Variable dim : nat.
Variable make_fe_face_values : FiniteElement -> nat -> FEFaceValues.

Lemma fold_left_tensor1_add {X} (g : X -> list Qc) (l : list X)
    (f : nat -> Qc) :
  fold_left (fun a x => tensor1_add dim a (g x)) l (build1 dim f)
  = build1 dim (fun i => f i + sum_list (map (fun x => entry1 (g x) i) l)).
Proof.
  revert f. induction l as [|x l IH]; intros f; simpl.
  - apply build1_ext. intros i _. unfold sum_list. simpl. ring.
  - unfold tensor1_add at 2.
    rewrite IH. apply build1_ext. intros i Hi.
    rewrite entry1_build1 by exact Hi.
    rewrite sum_list_cons. ring.
Qed.

Lemma trace_convert_to_tensor (s : list (list Qc)) :
  trace dim (convert_to_tensor dim s) = sum_upto dim (fun k => entry2 s k k).
Proof.
  unfold trace, convert_to_tensor. apply sum_upto_ext.
  intros i Hi. apply entry2_build2; exact Hi.
Qed.

Lemma stress_of_entry (data : PhaseFieldData) (s : list (list Qc))
    (i j : nat) :
  (i < dim)%nat -> (j < dim)%nat ->
  entry2 (stress_of dim data (convert_to_tensor dim s)) i j
  = stress_entry dim data s i j.
Proof.
  intros Hi Hj. unfold stress_of, tensor2_add, scale_tensor2, stress_entry.
  rewrite entry2_build2 by assumption.
  rewrite !entry2_build2 by assumption.
  rewrite trace_convert_to_tensor.
  unfold get_identity_tensor, convert_to_tensor.
  rewrite !entry2_build2 by assumption.
  ring.
Qed.

(** The quadrature-loop body adds one vector whose components are the
    specification's [stress * normal * weight]. *)
Lemma boundary_load_q_add (data : PhaseFieldData) (u : list Qc)
    (acc : list Qc) (s : FEFaceView * nat) :
  boundary_load_q dim (fst s) data u acc (snd s)
  = tensor1_add dim acc (build1 dim (fun i => load_density dim data u i s)).
Proof.
  unfold boundary_load_q, tensor1_add. apply build1_ext. intros i Hi.
  f_equal. unfold tensor1_scale, contract.
  rewrite !entry1_build1 by exact Hi.
  unfold load_density, traction. f_equal.
  apply sum_upto_ext. intros j Hj.
  rewrite stress_of_entry by assumption. reflexivity.
Qed.

(** The loops of one rank visit exactly [boundary_samples], in order. *)
Lemma local_boundary_load_samples (pf : PhaseFieldSolver)
    (data : PhaseFieldData) (bid : Z) :
  fst (local_boundary_load dim make_fe_face_values pf data bid)
  = fold_left
      (fun acc s => boundary_load_q dim (fst s) data (solution pf) acc (snd s))
      (boundary_samples dim make_fe_face_values pf bid)
      (tensor1_zero dim).
Proof.
  unfold local_boundary_load, boundary_samples, owned_cells, tagged_faces.
  simpl.
  rewrite flat_map_map, flat_map_filter, <- fold_left_flat_map.
  apply fold_left_ext. intros acc c.
  unfold boundary_load_cell. destruct (is_locally_owned c); [|reflexivity].
  rewrite flat_map_filter, <- fold_left_flat_map.
  apply fold_left_ext. intros acc' f.
  unfold boundary_load_face.
  destruct (at_boundary (face (cell c) f)
            && Z.eqb (boundary_id (face (cell c) f)) bid); [|reflexivity].
  rewrite fold_left_map. reflexivity.
Qed.

Lemma local_boundary_load_sum (pf : PhaseFieldSolver)
    (data : PhaseFieldData) (bid : Z) :
  fst (local_boundary_load dim make_fe_face_values pf data bid)
  = build1 dim (fun i =>
      sum_list (map (load_density dim data (solution pf) i)
                  (boundary_samples dim make_fe_face_values pf bid))).
Proof.
  rewrite local_boundary_load_samples, tensor1_zero_build1.
  erewrite fold_left_ext by (intros; apply boundary_load_q_add).
  rewrite fold_left_tensor1_add.
  apply build1_ext. intros i Hi.
  rewrite Qcplus_0_l. f_equal.
  apply map_ext. intros s. apply entry1_build1. exact Hi.
Qed.

Lemma compute_boundary_load_value (pfs : list PhaseFieldSolver)
    (comm : list Collective) (data : PhaseFieldData) (bid : Z) :
  fst (fst (compute_boundary_load dim make_fe_face_values pfs comm data bid))
  = boundary_load_spec dim make_fe_face_values pfs data bid.
Proof.
  unfold compute_boundary_load, boundary_load_spec. simpl.
  apply build1_ext. intros i Hi.
  unfold MPI_sum. f_equal. rewrite map_map.
  apply map_ext. intros pf.
  rewrite local_boundary_load_sum. apply entry1_build1. exact Hi.
Qed.

(** C1: [compute_boundary_load] returns, per component, the global sum
    over the ranks of the local sums of [stress * normal * weight], with
    [stress = lambda trace(strain) I + 2 mu strain], over all quadrature
    points of all faces at the boundary with the given boundary
    identifier of all locally-owned cells. *)
Theorem compute_boundary_load_refines_spec (pfs : list PhaseFieldSolver)
    (comm : list Collective) (data : PhaseFieldData) (bid : Z) :
  fst (fst (compute_boundary_load dim make_fe_face_values pfs comm data bid))
  = boundary_load_spec dim make_fe_face_values pfs data bid.
Proof.
  unfold compute_boundary_load, boundary_load_spec; simpl.
  apply build1_ext; intros i Hi.
  (* the reduction of component [i] sums the ranks' local components *)
  unfold MPI_sum; f_equal.
  rewrite map_map; apply map_ext; intros pf.
  (* and a rank's local component is its sum over the samples *)
  rewrite local_boundary_load_sum.
  apply entry1_build1; exact Hi.
Qed.

End BoundaryLoad.

(** ** Loops whose body cannot throw *)

Lemma foldM_pure {A B} (body : A -> B -> Result A) (g : A -> B -> A)
    (l : list B) (a : A) :
  (forall a b, body a b = Ok (g a b)) -> foldM body l a = Ok (fold_left g l a).
Proof.
  intros H. revert a. induction l as [|b l IH]; intros a; simpl; auto.
  rewrite H. simpl. apply IH.
Qed.

Lemma mapM_pure {A B} (f : A -> Result B) (g : A -> B) (l : list A) :
  (forall x, In x l -> f x = Ok (g x)) -> mapM f l = Ok (map g l).
Proof.
  induction l as [|x l IH]; intros H; simpl; auto.
  rewrite H by (left; reflexivity). simpl.
  rewrite IH by (intros y Hy; apply H; right; exact Hy). reflexivity.
Qed.

Lemma mapM_map {A B C} (g : A -> B) (f : B -> Result C) (l : list A) :
  mapM f (map g l) = mapM (fun x => f (g x)) l.
Proof.
  induction l as [|x l IH]; simpl; [reflexivity|]. rewrite IH. reflexivity.
Qed.

Lemma flat_map_flat_map {A B C} (h : A -> list B) (g : B -> list C)
    (l : list A) :
  flat_map g (flat_map h l) = flat_map (fun x => flat_map g (h x)) l.
Proof.
  induction l as [|x l IH]; simpl; [reflexivity|].
  rewrite flat_map_app, IH. reflexivity.
Qed.

Lemma sum_list_scale {A} (c : Qc) (f : A -> Qc) (l : list A) :
  sum_list (map (fun x => c * f x) l) = c * sum_list (map f l).
Proof.
  induction l as [|x l IH]; simpl.
  - unfold sum_list. simpl. ring.
  - rewrite !sum_list_cons, IH. ring.
Qed.

Lemma sum_list_filter {A} (P : A -> bool) (f : A -> Qc) (l : list A) :
  sum_list (map (fun x => if P x then f x else 0) l)
  = sum_list (map f (List.filter P l)).
Proof.
  induction l as [|x l IH]; simpl; [reflexivity|].
  rewrite sum_list_cons, IH. destruct (P x); simpl.
  - rewrite sum_list_cons. reflexivity.
  - ring.
Qed.

Lemma lookup_build1 (n : nat) (f : nat -> Qc) (k : nat) :
  build1 n f !! k = if decide (k < n)%nat then Some (f k) else None.
Proof.
  unfold build1. rewrite lookup_map.
  destruct (decide (k < n)%nat) as [Hk|Hk].
  - rewrite lookup_seq_lt by exact Hk. reflexivity.
  - rewrite lookup_seq_ge by lia. reflexivity.
Qed.

Section CrackOpening.

Variable dim : nat.
Variable make_fe_face_values : FiniteElement -> nat -> FEFaceValues.

Lemma scalar_product_scale_l (c : Qc) (a b : list Qc) :
  scalar_product dim (scale_tensor1 dim c a) b = c * scalar_product dim a b.
Proof.
  unfold scalar_product. rewrite <- sum_upto_scale.
  apply sum_upto_ext. intros i Hi. unfold scale_tensor1.
  rewrite entry1_build1 by exact Hi. ring.
Qed.

(** An unsigned index is never negative. *)
Lemma complementary_axis_nonneg (direction : Z) :
  (0 <= complementary_axis direction)%Z.
Proof.
  unfold complementary_axis, uint_wrap.
  apply Z.mod_pos_bound. reflexivity.
Qed.

(** For the axes 0 and 1 the complementary axis is [1 - direction]. *)
Lemma complementary_axis_2D (direction : Z) :
  (direction = 0 \/ direction = 1)%Z ->
  complementary_axis direction = (1 - direction)%Z.
Proof.
  intros [->| ->]; reflexivity.
Qed.

Lemma coordinate_complementary (direction : Z) (p : list Qc) :
  (complementary_axis direction < Z.of_nat dim)%Z ->
  coordinate dim p (complementary_axis direction)
  = Ok (entry1 p (Z.to_nat (complementary_axis direction))).
Proof.
  intros Hidx. unfold coordinate.
  pose proof (complementary_axis_nonneg direction) as H0.
  destruct ((0 <=? complementary_axis direction)%Z
            && (complementary_axis direction <? Z.of_nat dim)%Z)
    eqn:E; [reflexivity|].
  apply andb_false_iff in E. destruct E as [E|E].
  - apply Z.leb_gt in E. lia.
  - apply Z.ltb_ge in E. lia.
Qed.

Lemma cod_line_is_pure (view : FEFaceView) (u lines : list Qc)
    (direction : Z) (space_tol : Qc) (q : nat) (acc : list Qc) (k : nat) :
  (complementary_axis direction < Z.of_nat dim)%Z ->
  cod_line dim view u lines direction space_tol q acc k
  = Ok (cod_line_pure dim view u lines
          (Z.to_nat (complementary_axis direction)) space_tol q acc k).
Proof.
  intros Hidx. unfold cod_line, cod_line_pure, on_line.
  rewrite coordinate_complementary by assumption. simpl.
  destruct (Qclt_le_dec _ _); [|reflexivity].
  destruct (Qclt_le_dec _ _); reflexivity.
Qed.

(** The line loop at one sample, line by line. *)
Lemma cod_line_pure_lookup (view : FEFaceView) (u lines : list Qc)
    (axis : nat) (space_tol : Qc) (q m : nat) (acc : list Qc) (k : nat) :
  fold_left (cod_line_pure dim view u lines axis space_tol q)
    (seq 0 m) acc !! k
  = if decide (k < m)%nat
    then option_map
           (fun v => v + cod_contribution dim axis space_tol
                           (entry1 lines k) u (view, q))
           (acc !! k)
    else acc !! k.
Proof.
  induction m as [|m IH].
  - simpl. destruct (decide (k < 0)%nat); [lia|reflexivity].
  - rewrite seq_S, fold_left_app. simpl.
    unfold cod_line_pure at 1, cod_contribution.
    destruct (decide (k = m)) as [->|Hne].
    + destruct (decide (m < S m)%nat); [|lia].
      destruct (on_line axis space_tol (entry1 lines m) (view, q)).
      * rewrite list_lookup_alter_eq, IH.
        destruct (decide (m < m)%nat); [lia|].
        destruct (acc !! m); simpl; [|reflexivity].
        f_equal. unfold cod_density. simpl.
        rewrite scalar_product_scale_l. ring.
      * rewrite IH. destruct (decide (m < m)%nat); [lia|].
        destruct (acc !! m); simpl; [|reflexivity]. f_equal. ring.
    + assert (Hk : fold_left
                 (cod_line_pure dim view u lines axis space_tol q)
                 (seq 0 m) acc !! k
               = (if on_line axis space_tol (entry1 lines m) (view, q)
                  then alter
                         (fun v =>
                            v + scalar_product dim
                                  (scale_tensor1 dim half
                                     (get_function_values view u q))
                                  (get_function_gradients view u q)
                                * JxW view q) m
                         (fold_left
                            (cod_line_pure dim view u lines axis
                               space_tol q) (seq 0 m) acc)
                  else fold_left
                         (cod_line_pure dim view u lines axis space_tol q)
                         (seq 0 m) acc) !! k).
      { destruct (on_line _ _ _ _); [|reflexivity].
        rewrite list_lookup_alter_ne by (intros E; apply Hne; symmetry; exact E).
        reflexivity. }
      rewrite <- Hk, IH.
      destruct (decide (k < m)%nat), (decide (k < S m)%nat);
        try lia; reflexivity.
Qed.

(** One sample adds its contribution to every line. *)
Lemma cod_sample_step (view : FEFaceView) (u lines : list Qc)
    (axis : nat) (space_tol : Qc) (q : nat) (f : nat -> Qc) :
  fold_left (cod_line_pure dim view u lines axis space_tol q)
    (seq 0 (length lines)) (build1 (length lines) f)
  = build1 (length lines) (fun k =>
      f k + cod_contribution dim axis space_tol (entry1 lines k) u
              (view, q)).
Proof.
  apply list_eq. intros k.
  rewrite cod_line_pure_lookup, !lookup_build1.
  destruct (decide (k < length lines)%nat); reflexivity.
Qed.

Lemma cod_samples_fold (u lines : list Qc) (axis : nat) (space_tol : Qc)
    (l : list (FEFaceView * nat)) (f : nat -> Qc) :
  fold_left
    (fun acc s =>
       fold_left (cod_line_pure dim (fst s) u lines axis space_tol (snd s))
         (seq 0 (length lines)) acc)
    l (build1 (length lines) f)
  = build1 (length lines) (fun k =>
      f k + sum_list
              (map (cod_contribution dim axis space_tol (entry1 lines k) u)
                 l)).
Proof.
  revert f. induction l as [|[view q] l IH]; intros f; simpl.
  - apply build1_ext. intros k _. unfold sum_list. simpl. ring.
  - rewrite cod_sample_step, IH. apply build1_ext. intros k _.
    rewrite sum_list_cons. ring.
Qed.

(** With a valid complementary axis no rank throws, and its loops compute
    the local sums of the specification. *)
Lemma local_cod_pure (pf : PhaseFieldSolver) (lines : list Qc)
    (direction : Z) (space_tol : Qc) :
  (complementary_axis direction < Z.of_nat dim)%Z ->
  fst (local_cod dim make_fe_face_values pf lines direction space_tol)
  = Ok (local_cod_spec dim make_fe_face_values pf lines
          (Z.to_nat (complementary_axis direction)) space_tol).
Proof.
  intros Hidx. unfold local_cod, local_cod_spec. simpl.
  set (axis := Z.to_nat (complementary_axis direction)).
  set (step := fun acc (s : FEFaceView * nat) =>
         fold_left
           (cod_line_pure dim (fst s) (solution pf) lines axis space_tol
              (snd s))
           (seq 0 (length lines)) acc).
  assert (Hq : forall view acc q,
             cod_q dim view (solution pf) lines direction space_tol acc q
             = Ok (step acc (view, q))).
  { intros view acc q. unfold cod_q. apply foldM_pure.
    intros a k. apply cod_line_is_pure; assumption. }
  assert (Hf : forall c acc f,
             cod_face dim (make_fe_face_values (fe pf) 3) (solution pf)
               (QGauss_size dim 3) lines direction space_tol c acc f
             = Ok (fold_left step
                     (face_samples dim make_fe_face_values pf (cell c, f))
                     acc)).
  { intros c acc f. unfold cod_face, face_samples. simpl.
    rewrite fold_left_map. apply foldM_pure. intros a q. apply Hq. }
  assert (Hc : forall acc c,
             cod_cell dim (make_fe_face_values (fe pf) 3) (solution pf)
               (QGauss_size dim 3) lines direction space_tol acc c
             = Ok (fold_left step
                     (if is_locally_owned c
                      then flat_map
                             (fun f =>
                                face_samples dim make_fe_face_values pf
                                  (cell c, f))
                             (seq 0 (faces_per_cell dim))
                      else [])
                     acc)).
  { intros acc c. unfold cod_cell.
    destruct (is_locally_owned c); [|reflexivity].
    rewrite <- fold_left_flat_map. apply foldM_pure. intros a f. apply Hf. }
  rewrite (foldM_pure _ _ _ _ Hc), fold_left_flat_map.
  f_equal.
  replace (replicate (length lines) 0) with (build1 (length lines) (fun _ => 0))
    by (symmetry; apply tensor1_zero_build1).
  unfold cod_samples, cod_faces, owned_cells.
  rewrite flat_map_flat_map, flat_map_map, flat_map_filter.
  unfold step. rewrite cod_samples_fold.
  apply build1_ext. intros k _. rewrite Qcplus_0_l. do 2 f_equal.
  apply flat_map_ext. intros c.
  destruct (is_locally_owned c); [|reflexivity].
  rewrite flat_map_map. reflexivity.
Qed.

Lemma cod_spec_sums (pfs : list PhaseFieldSolver) (lines : list Qc)
    (axis : nat) (space_tol : Qc) :
  map (fun k =>
         MPI_sum
           (map (fun cod => entry1 cod k)
              (map (fun pf =>
                      local_cod_spec dim make_fe_face_values pf lines axis
                        space_tol) pfs)))
    (seq 0 (length lines))
  = cod_spec dim make_fe_face_values pfs lines axis space_tol.
Proof.
  unfold cod_spec, build1.
  apply map_ext_in. intros k Hk. apply in_seq in Hk.
  unfold MPI_sum. f_equal. rewrite map_map.
  apply map_ext. intros pf. unfold local_cod_spec.
  apply entry1_build1. lia.
Qed.

Lemma compute_cod_value (pfs : list PhaseFieldSolver) (lines : list Qc)
    (comm : list Collective) (direction : Z) (space_tol : Qc) :
  (direction < Z.of_nat dim)%Z ->
  (complementary_axis direction < Z.of_nat dim)%Z ->
  fst (fst (compute_cod dim make_fe_face_values pfs lines comm direction
              space_tol))
  = Ok (cod_spec dim make_fe_face_values pfs lines
          (Z.to_nat (complementary_axis direction)) space_tol).
Proof.
  intros Hdir Hidx. unfold compute_cod.
  assert (Hlt : (direction <? Z.of_nat dim)%Z = true)
    by (apply Z.ltb_lt; lia).
  rewrite Hlt. cbv zeta. rewrite mapM_map.
  rewrite (mapM_pure _
             (fun pf =>
                local_cod_spec dim make_fe_face_values pf lines
                  (Z.to_nat (complementary_axis direction)) space_tol))
    by (intros pf _; apply local_cod_pure; assumption).
  simpl. f_equal. apply cod_spec_sums.
Qed.

(** In two or more dimensions, for the axes 0 and 1. *)
Lemma compute_cod_value_2D (pfs : list PhaseFieldSolver) (lines : list Qc)
    (comm : list Collective) (direction : Z) (space_tol : Qc) :
  (2 <= dim)%nat -> (direction = 0 \/ direction = 1)%Z ->
  fst (fst (compute_cod dim make_fe_face_values pfs lines comm direction
              space_tol))
  = Ok (cod_spec dim make_fe_face_values pfs lines (Z.to_nat (1 - direction))
          space_tol).
Proof.
  intros Hdim Hdir.
  rewrite <- (complementary_axis_2D direction Hdir).
  apply compute_cod_value.
  - destruct Hdir; subst; lia.
  - rewrite (complementary_axis_2D direction Hdir). destruct Hdir; subst; lia.
Qed.

End CrackOpening.

Section CrackOpeningProfile.

Variable dim : nat.
Variable make_fe_face_values : FiniteElement -> nat -> FEFaceValues.

Lemma cod_spec_constant_fields (pfs : list PhaseFieldSolver)
    (lines : list Qc) (axis : nat) (space_tol : Qc) (k : nat)
    (u0 g0 : list Qc) :
  (k < length lines)%nat ->
  (forall pf s,
      In pf pfs -> In s (cod_samples dim make_fe_face_values pf) ->
      on_line axis space_tol (entry1 lines k) s = true ->
      get_function_values (fst s) (solution pf) (snd s) = u0
      /\ get_function_gradients (fst s) (solution pf) (snd s) = g0) ->
  entry1 (cod_spec dim make_fe_face_values pfs lines axis space_tol) k
  = half * scalar_product dim u0 g0
    * matched_weight dim make_fe_face_values pfs axis space_tol
        (entry1 lines k).
Proof.
  intros Hk Hconst. unfold cod_spec, matched_weight.
  rewrite entry1_build1 by exact Hk.
  rewrite <- sum_list_scale. f_equal.
  apply map_ext_in. intros pf Hpf.
  rewrite <- sum_list_filter, <- sum_list_scale. f_equal.
  apply map_ext_in. intros s Hs.
  unfold cod_contribution.
  destruct (on_line axis space_tol (entry1 lines k) s) eqn:E.
  - destruct (Hconst pf s Hpf Hs E) as [Hu Hg].
    unfold cod_density. rewrite Hu, Hg. reflexivity.
  - ring.
Qed.

(** C2: with a valid complementary axis (two or more dimensions, direction
    0 or 1) [compute_cod] returns, for every line [k], the global sum over
    all quadrature points of all visited faces of the contribution
    [0.5 * (displacement . phase_field_gradient) * weight] of exactly the
    points whose coordinate along axis [1 - direction] lies within the
    tolerance of [lines[k]] (the others contribute nothing); with
    displacement [u0] and phase-field gradient [g0] constant over the
    matched points of line 0, [cod[0]] is
    [0.5 * (u0 . g0) * (sum of the matched weights)]. *)
Theorem compute_cod_line_contributions (pfs : list PhaseFieldSolver)
    (lines : list Qc) (comm : list Collective) (direction : Z)
    (space_tol : Qc) :
  (2 <= dim)%nat -> (direction = 0 \/ direction = 1)%Z ->
  fst (fst (compute_cod dim make_fe_face_values pfs lines comm direction
              space_tol))
  = Ok (cod_spec dim make_fe_face_values pfs lines (Z.to_nat (1 - direction))
          space_tol)
  /\ forall u0 g0 : list Qc,
       (0 < length lines)%nat ->
       (forall pf s,
           In pf pfs -> In s (cod_samples dim make_fe_face_values pf) ->
           on_line (Z.to_nat (1 - direction)) space_tol (entry1 lines 0) s
           = true ->
           get_function_values (fst s) (solution pf) (snd s) = u0
           /\ get_function_gradients (fst s) (solution pf) (snd s) = g0) ->
       exists cod,
         fst (fst (compute_cod dim make_fe_face_values pfs lines comm
                     direction space_tol)) = Ok cod
         /\ entry1 cod 0
            = half * scalar_product dim u0 g0
              * matched_weight dim make_fe_face_values pfs
                  (Z.to_nat (1 - direction)) space_tol (entry1 lines 0).
Proof.
  intros Hdim Hdir. split.
  - apply compute_cod_value_2D; assumption.
  - intros u0 g0 Hlen Hconst.
    exists (cod_spec dim make_fe_face_values pfs lines
              (Z.to_nat (1 - direction)) space_tol).
    split.
    + apply compute_cod_value_2D; assumption.
    + apply cod_spec_constant_fields; assumption.
Qed.

End CrackOpeningProfile.

(** ** Which exceptions can be thrown *)

Lemma bind_not_message {A B} (r : Result A) (k : A -> Result B)
    (msg : string) :
  r <> Throw (ExcMessage msg) ->
  (forall a, k a <> Throw (ExcMessage msg)) ->
  bind r k <> Throw (ExcMessage msg).
Proof.
  intros Hr Hk. destruct r as [a|e]; simpl; [apply Hk|].
  intros E. apply Hr. inversion E. reflexivity.
Qed.

Lemma foldM_not_message {A B} (body : A -> B -> Result A) (l : list B)
    (a : A) (msg : string) :
  (forall a b, body a b <> Throw (ExcMessage msg)) ->
  foldM body l a <> Throw (ExcMessage msg).
Proof.
  intros H. revert a. induction l as [|b l IH]; intros a; simpl.
  - discriminate.
  - apply bind_not_message; [apply H|apply IH].
Qed.

Lemma mapM_not_message {A B} (f : A -> Result B) (l : list A)
    (msg : string) :
  (forall x, In x l -> f x <> Throw (ExcMessage msg)) ->
  mapM f l <> Throw (ExcMessage msg).
Proof.
  induction l as [|x l IH]; intros H; simpl.
  - discriminate.
  - apply bind_not_message; [apply H; left; reflexivity|].
    intros b. apply bind_not_message.
    + apply IH. intros y Hy. apply H. right. exact Hy.
    + discriminate.
Qed.

Lemma coordinate_not_message (dim : nat) (p : list Qc) (i : Z)
    (msg : string) :
  coordinate dim p i <> Throw (ExcMessage msg).
Proof.
  unfold coordinate. destruct (_ && _); discriminate.
Qed.

Lemma vector_read_not_message (v : list Qc) (i : Z) (msg : string) :
  vector_read v i <> Throw (ExcMessage msg).
Proof.
  unfold vector_read. destruct (_ && _); discriminate.
Qed.

Section ArgumentCheck.

Variable dim : nat.
Variable make_fe_face_values : FiniteElement -> nat -> FEFaceValues.
Variable distance : list Qc -> list Qc -> Qc.

Lemma local_cod_not_message (pf : PhaseFieldSolver) (lines : list Qc)
    (direction : Z) (space_tol : Qc) (msg : string) :
  fst (local_cod dim make_fe_face_values pf lines direction space_tol)
  <> Throw (ExcMessage msg).
Proof.
  unfold local_cod. simpl. apply foldM_not_message. intros acc c.
  unfold cod_cell. destruct (is_locally_owned c); [|discriminate].
  apply foldM_not_message. intros acc1 f.
  unfold cod_face. apply foldM_not_message. intros acc2 q.
  unfold cod_q. apply foldM_not_message. intros acc3 k.
  unfold cod_line. apply bind_not_message.
  - apply coordinate_not_message.
  - intros x. destruct (Qclt_le_dec _ _); [|discriminate].
    apply bind_not_message.
    + apply coordinate_not_message.
    + intros y. destruct (Qclt_le_dec _ _); discriminate.
Qed.

Lemma read_values_not_message (solution : list Qc)
    (locals : list (list Qc * list Z)) (ps : list nat)
    (comm : list Collective) (msg : string) :
  fst (read_values solution locals ps comm) <> Throw (ExcMessage msg).
Proof.
  revert comm. induction ps as [|p ps IH]; intros comm; simpl.
  - discriminate.
  - destruct (mapM _ locals) as [vs|e] eqn:E.
    + specialize (IH (comm ++ [AllreduceMin
                                 (map (fun st => entry1 (fst st) p) locals)])).
      destruct (read_values solution locals ps _) as [[vss|e] comm2];
        simpl in *; [discriminate|exact IH].
    + simpl. intros Heq. inversion Heq; subst.
      revert E. apply mapM_not_message. intros st _.
      unfold rank_value. destruct (Qc_eq_dec _ _); [|discriminate].
      apply vector_read_not_message.
Qed.

Lemma get_point_values_not_message (dhs : list (list CellAccessor))
    (solution : list Qc) (comp : nat) (points : list (list Qc))
    (comm : list Collective) (msg : string) :
  fst (get_point_values dim distance dhs solution comp points comm)
  <> Throw (ExcMessage msg).
Proof.
  unfold get_point_values.
  pose proof (read_values_not_message solution
                (map (fun dh => local_nearest dim distance dh comp points) dhs)
                (seq 0 (length points)) comm msg) as H.
  destruct (read_values _ _ _ _) as [[vss|e] comm2]; simpl in *;
    [discriminate|].
  intros Heq. apply H. inversion Heq. reflexivity.
Qed.

Lemma compute_cod_accepts (pfs : list PhaseFieldSolver) (lines : list Qc)
    (comm : list Collective) (direction : Z) (space_tol : Qc) :
  (direction < Z.of_nat dim)%Z ->
  (forall msg,
      fst (fst (compute_cod dim make_fe_face_values pfs lines comm direction
                  space_tol))
      <> Throw (ExcMessage msg))
  /\ snd (fst (compute_cod dim make_fe_face_values pfs lines comm direction
                 space_tol))
     = map assign_relevant_solution pfs.
Proof.
  intros Hlt. unfold compute_cod.
  assert (E : (direction <? Z.of_nat dim)%Z = true)
    by (apply Z.ltb_lt; exact Hlt).
  rewrite E. cbv zeta.
  assert (Hsnd : map snd
                   (map (fun pf =>
                           local_cod dim make_fe_face_values pf lines
                             direction space_tol) pfs)
                 = map assign_relevant_solution pfs).
  { rewrite map_map. apply map_ext. intros pf. reflexivity. }
  destruct (mapM fst _) as [locals|e] eqn:El; simpl.
  - split; [discriminate|exact Hsnd].
  - split; [|exact Hsnd].
    intros msg Heq. inversion Heq; subst.
    revert El. apply mapM_not_message.
    intros run Hrun. apply in_map_iff in Hrun.
    destruct Hrun as [pf [<- _]]. apply local_cod_not_message.
Qed.

(** C4: a direction that is not below [dim] makes [compute_cod] fail with
    the argument error before anything else happens: no solver object is
    touched and no collective is issued.  A direction below [dim] passes
    the check (the call does not fail with the argument error and every
    rank starts its traversal).  [get_point_values] never fails with an
    argument error, and [compute_boundary_load] cannot fail at all. *)
Theorem compute_cod_direction_check (pfs : list PhaseFieldSolver)
    (lines : list Qc) (comm : list Collective) (direction : Z)
    (space_tol : Qc) :
  ((Z.of_nat dim <= direction)%Z ->
   compute_cod dim make_fe_face_values pfs lines comm direction space_tol
   = (Throw (ExcMessage "Direction argument is wrong"), pfs, comm))
  /\ ((direction < Z.of_nat dim)%Z ->
      (forall msg,
          fst (fst (compute_cod dim make_fe_face_values pfs lines comm
                      direction space_tol))
          <> Throw (ExcMessage msg))
      /\ snd (fst (compute_cod dim make_fe_face_values pfs lines comm
                     direction space_tol))
         = map assign_relevant_solution pfs)
  /\ (forall dhs solution comp points comm' msg,
         fst (get_point_values dim distance dhs solution comp points comm')
         <> Throw (ExcMessage msg)).
Proof.
  split; [|split].
  - intros Hge. unfold compute_cod.
    assert (E : (direction <? Z.of_nat dim)%Z = false)
      by (apply Z.ltb_ge; exact Hge).
    rewrite E. reflexivity.
  - apply compute_cod_accepts.
  - intros. apply get_point_values_not_message.
Qed.

End ArgumentCheck.

(** ** The complementary axis *)

Lemma complementary_axis_in_range (dim : nat) (direction : Z) :
  (Z.of_nat dim <= 2 ^ 31)%Z ->
  (0 <= direction < Z.of_nat dim)%Z ->
  (complementary_axis direction < Z.of_nat dim)%Z ->
  (direction = 0 \/ direction = 1)%Z.
Proof.
  unfold complementary_axis, uint_wrap. intros Hdim Hdir Hidx.
  destruct (Z.eq_dec direction 0%Z) as [->|H0]; [left; reflexivity|].
  destruct (Z.eq_dec direction 1%Z) as [->|H1]; [right; reflexivity|].
  exfalso.
  assert (E : ((1 - direction) mod 2 ^ 32 = 2 ^ 32 + 1 - direction)%Z).
  { symmetry. apply (Z.mod_unique_pos _ _ (-1)%Z); lia. }
  rewrite E in Hidx. lia.
Qed.

(** C7 (amended): in [compute_cod] the complementary axis is computed as
    [1 - direction] in [unsigned int] irrespective of the dimension.  For
    [dim = 3] and [direction = 2] the argument check passes, yet the index
    is [4294967295] (the wrap-around of [1 - 2]), outside [0, 3), and
    every line test fails on its coordinate access.  Whatever the
    dimension, a direction that passes the check gives an in-bounds
    coordinate access only when it is 0 or 1. *)
Theorem complementary_axis_out_of_range :
  (forall make_fe_face_values pfs lines comm space_tol msg,
      fst (fst (compute_cod 3 make_fe_face_values pfs lines comm 2 space_tol))
      <> Throw (ExcMessage msg))
  /\ complementary_axis 2 = 4294967295%Z
  /\ (forall view u lines space_tol q acc k,
         cod_line 3 view u lines 2 space_tol q acc k
         = Throw (ExcIndexRange 4294967295 3))
  /\ (forall (dim : nat) (direction : Z) (p : list Qc) (x : Qc),
         (Z.of_nat dim <= 2 ^ 31)%Z ->
         (0 <= direction < Z.of_nat dim)%Z ->
         coordinate dim p (complementary_axis direction) = Ok x ->
         (direction = 0 \/ direction = 1)%Z).
Proof.
  split; [|split; [|split]].
  - intros mk pfs lines comm space_tol msg.
    apply (compute_cod_accepts 3 mk pfs lines comm 2 space_tol). lia.
  - reflexivity.
  - intros. reflexivity.
  - intros dim direction p x Hdim Hdir Hc.
    apply (complementary_axis_in_range dim); try assumption.
    unfold coordinate in Hc.
    destruct ((0 <=? complementary_axis direction)%Z
              && (complementary_axis direction <? Z.of_nat dim)%Z) eqn:E;
      [|discriminate].
    apply andb_true_iff in E. destruct E as [_ E].
    apply Z.ltb_lt. exact E.
Qed.

(** ** Absent boundary identifiers and the solver state *)

Lemma sum_list_zeros (l : list Qc) :
  (forall x, In x l -> x = 0) -> sum_list l = 0.
Proof.
  induction l as [|x l IH]; intros H.
  - reflexivity.
  - rewrite sum_list_cons, (H x) by (left; reflexivity).
    rewrite IH by (intros y Hy; apply H; right; exact Hy). ring.
Qed.

Section Frame.

Variable dim : nat.
Variable make_fe_face_values : FiniteElement -> nat -> FEFaceValues.

Lemma local_boundary_load_absent (pf : PhaseFieldSolver)
    (data : PhaseFieldData) (bid : Z) :
  (forall c, In c (owned_cells (dof_handler pf)) -> tagged_faces dim bid c = []) ->
  fst (local_boundary_load dim make_fe_face_values pf data bid)
  = tensor1_zero dim.
Proof.
  intros Habsent.
  assert (Hs : boundary_samples dim make_fe_face_values pf bid = []).
  { unfold boundary_samples.
    induction (owned_cells (dof_handler pf)) as [|c l IH]; [reflexivity|].
    simpl. rewrite (Habsent c) by (left; reflexivity). simpl.
    apply IH. intros c' Hc'. apply Habsent. right. exact Hc'. }
  rewrite local_boundary_load_sum, Hs, tensor1_zero_build1. reflexivity.
Qed.

(** C8: a boundary identifier that no face of an owned cell of a rank
    carries is an ordinary case: that rank's local load is the zero
    vector; and when this holds on every rank the returned load is the
    zero vector.  ([compute_boundary_load] has no failure result.) *)
Theorem compute_boundary_load_absent_id (pfs : list PhaseFieldSolver)
    (comm : list Collective) (data : PhaseFieldData) (bid : Z) :
  (forall pf,
      (forall c, In c (owned_cells (dof_handler pf)) ->
                 tagged_faces dim bid c = []) ->
      fst (local_boundary_load dim make_fe_face_values pf data bid)
      = tensor1_zero dim)
  /\ ((forall pf c,
          In pf pfs -> In c (owned_cells (dof_handler pf)) ->
          tagged_faces dim bid c = []) ->
      fst (fst (compute_boundary_load dim make_fe_face_values pfs comm data
                  bid))
      = tensor1_zero dim).
Proof.
  split.
  - intros pf. apply local_boundary_load_absent.
  - intros Habsent. unfold compute_boundary_load. simpl.
    rewrite tensor1_zero_build1. apply build1_ext. intros i Hi.
    unfold MPI_sum. apply sum_list_zeros. intros x Hx.
    rewrite map_map in Hx. apply in_map_iff in Hx.
    destruct Hx as [pf [<- Hpf]].
    rewrite local_boundary_load_absent
      by (intros c Hc; apply (Habsent pf c); assumption).
    rewrite tensor1_zero_build1. apply entry1_build1. exact Hi.
Qed.

(** C9: [compute_boundary_load] and [compute_cod] leave every member of
    every solver object as it was, the solution vector included, except
    [relevant_solution], which holds a copy of [solution] once the
    traversal has started ([compute_cod] does not even write that when it
    rejects its argument); the load does not depend on what
    [relevant_solution] held before the call.  [get_point_values] receives
    the solution by value and returns no solver state. *)
Theorem solution_is_read_only (pfs : list PhaseFieldSolver)
    (comm : list Collective) (data : PhaseFieldData) (bid : Z)
    (lines : list Qc) (direction : Z) (space_tol : Qc) :
  Forall2
    (fun pf pf' =>
       solution pf' = solution pf /\ fe pf' = fe pf
       /\ dof_handler pf' = dof_handler pf
       /\ relevant_solution pf' = solution pf)
    pfs
    (snd (fst (compute_boundary_load dim make_fe_face_values pfs comm data
                 bid)))
  /\ Forall2
       (fun pf pf' =>
          solution pf' = solution pf /\ fe pf' = fe pf
          /\ dof_handler pf' = dof_handler pf
          /\ (relevant_solution pf' = solution pf
              \/ relevant_solution pf' = relevant_solution pf))
       pfs
       (snd (fst (compute_cod dim make_fe_face_values pfs lines comm direction
                    space_tol)))
  /\ (forall pf stale,
         fst (local_boundary_load dim make_fe_face_values
                {| fe := fe pf; dof_handler := dof_handler pf;
                   solution := solution pf; relevant_solution := stale |}
                data bid)
         = fst (local_boundary_load dim make_fe_face_values pf data bid))
  /\ (forall pf stale,
         fst (local_cod dim make_fe_face_values
                {| fe := fe pf; dof_handler := dof_handler pf;
                   solution := solution pf; relevant_solution := stale |}
                lines direction space_tol)
         = fst (local_cod dim make_fe_face_values pf lines direction
                  space_tol)).
Proof.
  split; [|split; [|split]].
  - unfold compute_boundary_load. simpl. rewrite map_map. simpl.
    induction pfs as [|pf l IH]; simpl; constructor; auto.
  - unfold compute_cod.
    destruct (direction <? Z.of_nat dim)%Z.
    + cbv zeta.
      assert (H : Forall2
                    (fun pf pf' =>
                       solution pf' = solution pf /\ fe pf' = fe pf
                       /\ dof_handler pf' = dof_handler pf
                       /\ (relevant_solution pf' = solution pf
                           \/ relevant_solution pf' = relevant_solution pf))
                    pfs
                    (map snd
                       (map (fun pf =>
                               local_cod dim make_fe_face_values pf lines
                                 direction space_tol) pfs))).
      { rewrite map_map. simpl.
        induction pfs as [|pf l IH]; simpl; constructor; auto 6. }
      destruct (mapM fst _); simpl; exact H.
    + simpl. induction pfs as [|pf l IH]; constructor; auto 6.
  - intros pf stale. reflexivity.
  - intros pf stale. reflexivity.
Qed.

End Frame.

(** ** The nearest-vertex search, point by point *)

Lemma fold_left_proj {S X T} (wf : S -> Prop) (proj : S -> T)
    (F : S -> X -> S) (G : T -> X -> T) (l : list X) (st : S) :
  (forall st x, wf st -> wf (F st x) /\ proj (F st x) = G (proj st) x) ->
  wf st ->
  wf (fold_left F l st) /\ proj (fold_left F l st) = fold_left G l (proj st).
Proof.
  intros Hstep. revert st. induction l as [|x l IH]; intros st Hwf; simpl.
  - split; [exact Hwf|reflexivity].
  - destruct (Hstep st x Hwf) as [Hwf' Hproj].
    destruct (IH _ Hwf') as [Hwf'' Hfold].
    split; [exact Hwf''|]. rewrite Hfold, Hproj. reflexivity.
Qed.

Section NearestVertex.

Variable dim : nat.
Variable distance : list Qc -> list Qc -> Qc.

(** The target point loop up to [m] has updated the entries below [m]. *)
Lemma nearest_point_prefix (c : Cell) (comp v : nat)
    (points : list (list Qc)) (st : list Qc * list Z) (m : nat) :
  arrays_ok (length points) st -> (m <= length points)%nat ->
  let st' := fold_left (nearest_point distance c comp v points) (seq 0 m) st in
  arrays_ok (length points) st'
  /\ forall p point,
       points !! p = Some point ->
       point_state p st'
       = if decide (p < m)%nat
         then scan_step distance comp point (point_state p st) (c, v)
         else point_state p st.
Proof.
  intros Hwf. induction m as [|m IH]; intros Hm.
  - simpl. split; [exact Hwf|]. intros p point _.
    destruct (decide (p < 0)%nat); [lia|reflexivity].
  - cbv zeta in *. rewrite seq_S, fold_left_app. simpl.
    destruct IH as [[Hl1 Hl2] IH]; [lia|].
    set (st' := fold_left (nearest_point distance c comp v points) (seq 0 m) st)
      in *.
    destruct (points !! m) as [pm|] eqn:Epm;
      [|apply lookup_ge_None in Epm; lia].
    pose proof (IH m pm Epm) as IHm.
    destruct (decide (m < m)%nat); [lia|].
    assert (Hstep : nearest_point distance c comp v points st' m
                    = if Qclt_le_dec (distance pm (vertex c v))
                           (entry1 (fst st') m)
                      then (<[m := distance pm (vertex c v)]> (fst st'),
                            <[m := vertex_dof_index c v comp]> (snd st'))
                      else st').
    { unfold nearest_point. rewrite Epm. reflexivity. }
    rewrite Hstep. clear Hstep.
    unfold scan_step, point_state in *. simpl in *.
    destruct (Qclt_le_dec (distance pm (vertex c v)) (entry1 (fst st') m))
      as [Hlt|Hge].
    + split.
      * split; simpl; rewrite length_insert; assumption.
      * intros p point Hp. simpl.
        destruct (decide (p = m)) as [->|Hne].
        -- destruct (decide (m < S m)%nat); [|lia].
           assert (point = pm) by congruence. subst point.
           unfold entry1.
           rewrite !list_lookup_insert_eq by lia. simpl.
           injection IHm as IH1 IH2. unfold entry1 in IH1.
           destruct (Qclt_le_dec (distance pm (vertex c v))
                       (default 0 (fst st !! m))) as [_|Hbad];
             [reflexivity|].
           exfalso. unfold entry1 in Hlt. rewrite IH1 in Hlt.
           exact (Qclt_not_le _ _ Hlt Hbad).
        -- unfold entry1.
           rewrite !list_lookup_insert_ne by (intros E; apply Hne; symmetry; exact E).
           specialize (IH p point Hp). unfold entry1 in IH. rewrite IH.
           destruct (decide (p < m)%nat), (decide (p < S m)%nat);
             try lia; reflexivity.
    + split; [split; assumption|].
      intros p point Hp.
      destruct (decide (p = m)) as [->|Hne].
      * destruct (decide (m < S m)%nat); [|lia].
        assert (point = pm) by congruence. subst point.
        rewrite IHm. injection IHm as IH1 IH2.
        destruct (Qclt_le_dec (distance pm (vertex c v)) (entry1 (fst st) m))
          as [Hbad|_]; [|reflexivity].
        exfalso. rewrite IH1 in Hge.
        exact (Qclt_not_le _ _ Hbad Hge).
      * rewrite (IH p point Hp).
        destruct (decide (p < m)%nat), (decide (p < S m)%nat);
          try lia; reflexivity.
Qed.

(** One vertex: every point's entry makes one step of [scan_step]. *)
Lemma nearest_vertex_step (c : Cell) (comp : nat) (points : list (list Qc))
    (p : nat) (point : list Qc) (st : list Qc * list Z) (v : nat) :
  points !! p = Some point ->
  arrays_ok (length points) st ->
  arrays_ok (length points) (nearest_vertex distance c comp points st v)
  /\ point_state p (nearest_vertex distance c comp points st v)
     = scan_step distance comp point (point_state p st) (c, v).
Proof.
  intros Hp Hwf. unfold nearest_vertex.
  destruct (nearest_point_prefix c comp v points st (length points) Hwf
              (Nat.le_refl _)) as [Hwf' Hst].
  split; [exact Hwf'|].
  rewrite (Hst p point Hp).
  apply lookup_lt_Some in Hp.
  destruct (decide (p < length points)%nat); [reflexivity|lia].
Qed.

(** The vertices one rank visits for a cell. *)
Lemma nearest_cell_step (comp : nat) (points : list (list Qc)) (p : nat)
    (point : list Qc) (st : list Qc * list Z) (c : CellAccessor) :
  points !! p = Some point ->
  arrays_ok (length points) st ->
  arrays_ok (length points) (nearest_cell dim distance comp points st c)
  /\ point_state p (nearest_cell dim distance comp points st c)
     = fold_left (scan_step distance comp point)
         (if is_artificial c then []
          else map (pair (cell c)) (seq 0 (vertices_per_cell dim)))
         (point_state p st).
Proof.
  intros Hp Hwf. unfold nearest_cell.
  destruct (is_artificial c); [split; [exact Hwf|reflexivity]|].
  rewrite fold_left_map.
  apply (fold_left_proj (arrays_ok (length points)) (point_state p)
           (nearest_vertex distance (cell c) comp points)
           (fun t v => scan_step distance comp point t (cell c, v)));
    [|exact Hwf].
  intros st' v Hwf'. apply nearest_vertex_step; assumption.
Qed.

(** The local phase of one rank, for one point, is the scan of the
    rank's visible vertices. *)
Lemma local_nearest_point (dh : list CellAccessor) (comp : nat)
    (points : list (list Qc)) (p : nat) (point : list Qc) :
  points !! p = Some point ->
  point_state p (local_nearest dim distance dh comp points)
  = scan distance comp point (visible_vertices dim dh).
Proof.
  intros Hp. unfold local_nearest, scan, visible_vertices, visible_cells.
  rewrite flat_map_map, flat_map_filter.
  pose proof (lookup_lt_Some _ _ _ Hp) as Hlt.
  assert (Hwf : arrays_ok (length points)
                  (replicate (length points) double_max,
                   replicate (length points) uint_max)).
  { split; simpl; apply length_replicate. }
  destruct (fold_left_proj (arrays_ok (length points)) (point_state p)
              (nearest_cell dim distance comp points)
              (fun t c =>
                 fold_left (scan_step distance comp point)
                   (if is_artificial c then []
                    else map (pair (cell c)) (seq 0 (vertices_per_cell dim)))
                   t)
              dh _
              (fun st c H => nearest_cell_step comp points p point st c Hp H)
              Hwf) as [_ Hfold].
  rewrite Hfold, fold_left_flat_map.
  assert (Hinit : point_state p
                    (replicate (length points) double_max,
                     replicate (length points) uint_max)
                  = (double_max, uint_max)).
  { unfold point_state, entry1. simpl.
    rewrite !lookup_replicate_2 by exact Hlt. reflexivity. }
  rewrite Hinit. f_equal.
  apply flat_map_ext. intros c.
  destruct (is_artificial c); reflexivity.
Qed.

End NearestVertex.

(** ** Minima *)

Lemma Qcmin_le_l (x y : Qc) : Qcmin x y <= x.
Proof.
  unfold Qcmin. destruct (Qclt_le_dec y x) as [H|H].
  - apply Qclt_le_weak. exact H.
  - apply Qcle_refl.
Qed.

Lemma Qcmin_le_r (x y : Qc) : Qcmin x y <= y.
Proof.
  unfold Qcmin. destruct (Qclt_le_dec y x) as [H|H].
  - apply Qcle_refl.
  - exact H.
Qed.

Lemma Qcmin_cases (x y : Qc) : Qcmin x y = x \/ Qcmin x y = y.
Proof.
  unfold Qcmin. destruct (Qclt_le_dec y x); [right|left]; reflexivity.
Qed.

Lemma fold_Qcmin_le (l : list Qc) (a : Qc) :
  fold_left Qcmin l a <= a /\ forall x, In x l -> fold_left Qcmin l a <= x.
Proof.
  revert a. induction l as [|y l IH]; intros a; simpl.
  - split; [apply Qcle_refl|]. intros x [].
  - destruct (IH (Qcmin a y)) as [H1 H2]. split.
    + eapply Qcle_trans; [exact H1|apply Qcmin_le_l].
    + intros x [<-|Hx].
      * eapply Qcle_trans; [exact H1|apply Qcmin_le_r].
      * apply H2. exact Hx.
Qed.

Lemma fold_Qcmin_in (l : list Qc) (a : Qc) :
  fold_left Qcmin l a = a \/ In (fold_left Qcmin l a) l.
Proof.
  revert a. induction l as [|y l IH]; intros a; simpl.
  - left. reflexivity.
  - destruct (IH (Qcmin a y)) as [H|H].
    + rewrite H. destruct (Qcmin_cases a y) as [E|E]; rewrite E; auto.
    + right. right. exact H.
Qed.

Lemma MPI_min_le (l : list Qc) (x : Qc) : In x l -> MPI_min l <= x.
Proof.
  destruct l as [|a l]; [intros []|]. simpl.
  destruct (fold_Qcmin_le l a) as [H1 H2].
  intros [<-|Hx]; [exact H1|apply H2; exact Hx].
Qed.

Lemma MPI_min_in (l : list Qc) : l <> [] -> In (MPI_min l) l.
Proof.
  destruct l as [|a l]; [congruence|]. intros _. simpl.
  destruct (fold_Qcmin_in l a) as [H|H]; [left; symmetry; exact H|right; exact H].
Qed.

Lemma entry1_In (l : list Qc) (i : nat) :
  (i < length l)%nat -> In (entry1 l i) l.
Proof.
  revert i. induction l as [|x l IH]; intros i Hi; simpl in Hi; [lia|].
  destruct i as [|i].
  - left. reflexivity.
  - right. apply (IH i). lia.
Qed.

Lemma vector_read_ok (v : list Qc) (i : Z) :
  (0 <= i < Z.of_nat (length v))%Z ->
  vector_read v i = Ok (entry1 v (Z.to_nat i)).
Proof.
  intros Hi. unfold vector_read.
  destruct ((0 <=? i)%Z && (i <? Z.of_nat (length v))%Z) eqn:E;
    [reflexivity|].
  apply andb_false_iff in E. destruct E as [E|E].
  - apply Z.leb_gt in E. lia.
  - apply Z.ltb_ge in E. lia.
Qed.

Section Scan.

Variable distance : list Qc -> list Qc -> Qc.

Lemma scan_fold_le (comp : nat) (point : list Qc) (l : list (Cell * nat))
    (s0 : Qc * Z) :
  fst (fold_left (scan_step distance comp point) l s0) <= fst s0
  /\ forall cv,
       In cv l ->
       fst (fold_left (scan_step distance comp point) l s0)
       <= distance point (vertex (fst cv) (snd cv)).
Proof.
  revert s0. induction l as [|x l IH]; intros s0; simpl.
  - split; [apply Qcle_refl|]. intros cv [].
  - destruct (IH (scan_step distance comp point s0 x)) as [H1 H2].
    assert (Hs : fst (scan_step distance comp point s0 x) <= fst s0
                 /\ fst (scan_step distance comp point s0 x)
                    <= distance point (vertex (fst x) (snd x))).
    { unfold scan_step. destruct (Qclt_le_dec _ _) as [H|H]; simpl.
      - split; [apply Qclt_le_weak; exact H|apply Qcle_refl].
      - split; [apply Qcle_refl|exact H]. }
    destruct Hs as [Hs1 Hs2]. split.
    + eapply Qcle_trans; eassumption.
    + intros cv [<-|Hcv].
      * eapply Qcle_trans; eassumption.
      * apply H2. exact Hcv.
Qed.

Lemma scan_fold_attained (comp : nat) (point : list Qc)
    (l : list (Cell * nat)) (s0 : Qc * Z) :
  fold_left (scan_step distance comp point) l s0 = s0
  \/ exists cv,
       In cv l
       /\ fold_left (scan_step distance comp point) l s0
          = (distance point (vertex (fst cv) (snd cv)),
             vertex_dof_index (fst cv) (snd cv) comp).
Proof.
  revert s0. induction l as [|x l IH]; intros s0; simpl.
  - left. reflexivity.
  - destruct (IH (scan_step distance comp point s0 x)) as [H|[cv [Hcv H]]].
    + rewrite H. unfold scan_step.
      destruct (Qclt_le_dec _ _); [|left; reflexivity].
      right. exists x. split; [left; reflexivity|reflexivity].
    + right. exists cv. split; [right; exact Hcv|exact H].
Qed.

End Scan.

(** ** The global phase of the nearest-vertex search *)

Section Sampler.

Variable dim : nat.
Variable distance : list Qc -> list Qc -> Qc.

(** For one query point: the ranks that hold the global minimum distance
    read a valid entry, and the final minimum is the solution value at a
    visible vertex whose distance is the global minimum. *)
Lemma nearest_value_of_point (dhs : list (list CellAccessor))
    (solution : list Qc) (comp : nat) (point : list Qc) :
  (forall dh cv,
      In dh dhs -> In cv (visible_vertices dim dh) ->
      (0 <= vertex_dof_index (fst cv) (snd cv) comp
       < Z.of_nat (length solution))%Z) ->
  (forall x, In x solution -> x <= double_max) ->
  (forall dh cv,
      In dh dhs -> In cv (visible_vertices dim dh) ->
      distance point (vertex (fst cv) (snd cv)) < double_max) ->
  (exists dh cv, In dh dhs /\ In cv (visible_vertices dim dh)) ->
  let sts :=
    map (fun dh => scan distance comp point (visible_vertices dim dh)) dhs in
  let gmin := MPI_min (map fst sts) in
  (forall s, In s sts -> gmin = fst s ->
             (0 <= snd s < Z.of_nat (length solution))%Z)
  /\ exists dh cv,
       In dh dhs /\ In cv (visible_vertices dim dh)
       /\ MPI_min (map (held_value solution gmin) sts)
          = entry1 solution
              (Z.to_nat (vertex_dof_index (fst cv) (snd cv) comp))
       /\ distance point (vertex (fst cv) (snd cv)) = gmin
       /\ forall dh' cv',
            In dh' dhs -> In cv' (visible_vertices dim dh') ->
            gmin <= distance point (vertex (fst cv') (snd cv')).
Proof.
  intros Hdof Hval Hdist [dh0 [cv0 [Hdh0 Hcv0]]] sts gmin.
  assert (Hin : forall dh, In dh dhs ->
                  In (scan distance comp point (visible_vertices dim dh)) sts).
  { intros dh Hdh. unfold sts. apply in_map_iff. exists dh. auto. }
  assert (Hle : forall dh cv,
             In dh dhs -> In cv (visible_vertices dim dh) ->
             gmin <= distance point (vertex (fst cv) (snd cv))).
  { intros dh cv Hdh Hcv.
    eapply Qcle_trans.
    - apply MPI_min_le. apply in_map. apply (Hin dh Hdh).
    - apply (scan_fold_le distance comp point (visible_vertices dim dh)).
      exact Hcv. }
  assert (Hfin : gmin < double_max).
  { eapply Qcle_lt_trans; [apply (Hle dh0 cv0 Hdh0 Hcv0)|].
    apply (Hdist dh0 cv0 Hdh0 Hcv0). }
  assert (Hatt : forall s, In s sts -> gmin = fst s ->
             exists dh cv,
               In dh dhs /\ In cv (visible_vertices dim dh)
               /\ s = (distance point (vertex (fst cv) (snd cv)),
                       vertex_dof_index (fst cv) (snd cv) comp)).
  { intros s Hs Hg. unfold sts in Hs. apply in_map_iff in Hs.
    destruct Hs as [dh [<- Hdh]].
    destruct (scan_fold_attained distance comp point (visible_vertices dim dh)
                (double_max, uint_max)) as [E|[cv [Hcv E]]].
    - exfalso. unfold scan in Hg. rewrite E in Hg. simpl in Hg.
      rewrite Hg in Hfin. exact (Qclt_not_le _ _ Hfin (Qcle_refl _)).
    - exists dh, cv. split; [exact Hdh|]. split; [exact Hcv|exact E]. }
  assert (Hheld : forall s, In s sts -> gmin = fst s ->
             exists dh cv,
               In dh dhs /\ In cv (visible_vertices dim dh)
               /\ held_value solution gmin s
                  = entry1 solution
                      (Z.to_nat (vertex_dof_index (fst cv) (snd cv) comp))
               /\ distance point (vertex (fst cv) (snd cv)) = gmin).
  { intros s Hs Hg. destruct (Hatt s Hs Hg) as [dh [cv [Hdh [Hcv E]]]].
    exists dh, cv. split; [exact Hdh|]. split; [exact Hcv|].
    unfold held_value. destruct (Qc_eq_dec gmin (fst s)); [|contradiction].
    rewrite E. simpl. split; [reflexivity|].
    rewrite Hg, E. reflexivity. }
  split.
  - intros s Hs Hg. destruct (Hatt s Hs Hg) as [dh [cv [Hdh [Hcv ->]]]].
    simpl. apply (Hdof dh cv Hdh Hcv).
  - assert (Hne : map fst sts <> []).
    { unfold sts. destruct dhs; [destruct Hdh0|discriminate]. }
    destruct (proj1 (in_map_iff _ _ _) (MPI_min_in _ Hne)) as [s1 [Hg1 Hs1]].
    fold gmin in Hg1. symmetry in Hg1.
    destruct (Hheld s1 Hs1 Hg1) as [dh1 [cv1 [Hdh1 [Hcv1 [Hv1 Hd1]]]]].
    assert (Hne' : map (held_value solution gmin) sts <> []).
    { unfold sts. destruct dhs; [destruct Hdh0|discriminate]. }
    destruct (proj1 (in_map_iff _ _ _) (MPI_min_in _ Hne')) as [s [Hm Hs]].
    destruct (Qc_eq_dec gmin (fst s)) as [Hg|Hg].
    + destruct (Hheld s Hs Hg) as [dh [cv [Hdh [Hcv [Hv Hd]]]]].
      exists dh, cv. split; [exact Hdh|]. split; [exact Hcv|].
      split; [rewrite <- Hm; exact Hv|]. split; [exact Hd|exact Hle].
    + exists dh1, cv1. split; [exact Hdh1|]. split; [exact Hcv1|].
      split; [|split; [exact Hd1|exact Hle]].
      assert (Hmax : held_value solution gmin s = double_max).
      { unfold held_value. destruct (Qc_eq_dec gmin (fst s));
          [contradiction|reflexivity]. }
      rewrite <- Hv1. apply Qcle_antisym.
      * apply MPI_min_le. apply in_map. exact Hs1.
      * rewrite <- Hm, Hmax, Hv1. apply Hval. apply entry1_In.
        destruct (Hdof dh1 cv1 Hdh1 Hcv1) as [Hlo Hhi]. lia.
Qed.

Lemma read_values_ok (solution : list Qc) (locals : list (list Qc * list Z))
    (g : nat -> list Qc * list Z -> Qc) (ps : list nat)
    (comm : list Collective) :
  (forall p st,
      In p ps -> In st locals ->
      rank_value solution
        (MPI_min (map (fun st => entry1 (fst st) p) locals)) p st
      = Ok (g p st)) ->
  fst (read_values solution locals ps comm)
  = Ok (map (fun p => map (g p) locals) ps).
Proof.
  revert comm. induction ps as [|p ps IH]; intros comm H; simpl.
  - reflexivity.
  - rewrite (mapM_pure _ (g p))
      by (intros st Hst; apply H; [left; reflexivity|exact Hst]).
    specialize (IH (comm ++ [AllreduceMin
                               (map (fun st => entry1 (fst st) p) locals)])).
    destruct (read_values solution locals ps _) as [[vss|e] comm2];
      simpl in *.
    + f_equal. f_equal.
      assert (E : Ok vss = Ok (map (fun p => map (g p) locals) ps)).
      { apply IH. intros p' st Hp' Hst. apply H; [right; exact Hp'|exact Hst]. }
      inversion E. reflexivity.
    + exfalso.
      assert (E : @Throw (list (list Qc)) e
                  = Ok (map (fun p => map (g p) locals) ps)).
      { apply IH. intros p' st Hp' Hst. apply H; [right; exact Hp'|exact Hst]. }
      discriminate.
Qed.

(** With well-formed inputs [get_point_values] returns, for every query
    point, the solution value at a visible vertex at the least distance
    from the point among all visible vertices of all ranks. *)
Lemma get_point_values_nearest (dhs : list (list CellAccessor))
    (solution : list Qc) (comp : nat) (points : list (list Qc))
    (comm : list Collective) :
  sampler_inputs_ok dim distance dhs solution comp points ->
  exists values,
    fst (get_point_values dim distance dhs solution comp points comm)
    = Ok values
    /\ length values = length points
    /\ forall p point,
         points !! p = Some point ->
         exists dh cv,
           In dh dhs /\ In cv (visible_vertices dim dh)
           /\ values !! p
              = Some (entry1 solution
                        (Z.to_nat (vertex_dof_index (fst cv) (snd cv) comp)))
           /\ forall dh' cv',
                In dh' dhs -> In cv' (visible_vertices dim dh') ->
                distance point (vertex (fst cv) (snd cv))
                <= distance point (vertex (fst cv') (snd cv')).
Proof.
  intros [Hdof [Hval [Hdist Hne]]].
  set (locals := map (fun dh => local_nearest dim distance dh comp points) dhs).
  set (gmin := fun p => MPI_min (map (fun st => entry1 (fst st) p) locals)).
  set (g := fun p st => held_value solution (gmin p) (point_state p st)).
  assert (Hlocals : forall p point,
             points !! p = Some point ->
             map (point_state p) locals
             = map (fun dh => scan distance comp point (visible_vertices dim dh))
                 dhs).
  { intros p point Hp. unfold locals. rewrite map_map.
    apply map_ext. intros dh. apply local_nearest_point. exact Hp. }
  assert (Hgmin : forall p point,
             points !! p = Some point ->
             gmin p
             = MPI_min
                 (map fst
                    (map (fun dh =>
                            scan distance comp point (visible_vertices dim dh))
                       dhs))).
  { intros p point Hp. unfold gmin.
    rewrite <- (Hlocals p point Hp), map_map. reflexivity. }
  assert (Hpoint : forall p point,
             points !! p = Some point ->
             forall dh cv,
               In dh dhs -> In cv (visible_vertices dim dh) ->
               distance point (vertex (fst cv) (snd cv)) < double_max).
  { intros p point Hp dh cv. apply Hdist.
    apply list_elem_of_In. eapply list_elem_of_lookup_2. exact Hp. }
  assert (Hread : forall p st,
             In p (seq 0 (length points)) -> In st locals ->
             rank_value solution (gmin p) p st = Ok (g p st)).
  { intros p st Hp Hst. apply in_seq in Hp.
    destruct (points !! p) as [point|] eqn:Epoint;
      [|apply lookup_ge_None in Epoint; lia].
    destruct (nearest_value_of_point dhs solution comp point Hdof Hval
                (Hpoint p point Epoint) Hne) as [Hidx _].
    unfold rank_value, g, held_value. simpl.
    destruct (Qc_eq_dec (gmin p) (entry1 (fst st) p)) as [Hg|Hg];
      [|reflexivity].
    apply vector_read_ok.
    apply (Hidx (point_state p st)).
    - rewrite <- (Hlocals p point Epoint). apply in_map. exact Hst.
    - rewrite <- (Hgmin p point Epoint). exact Hg. }
  unfold get_point_values. fold locals.
  pose proof (read_values_ok solution locals g (seq 0 (length points)) comm
                Hread) as Hrv.
  destruct (read_values solution locals (seq 0 (length points)) comm)
    as [[vss|e] comm2]; simpl in Hrv; [|discriminate].
  inversion Hrv as [Hvss]. simpl.
  exists (map MPI_min
            (map (fun p => map (g p) locals) (seq 0 (length points)))).
  split; [reflexivity|]. split.
  - rewrite !length_map, length_seq. reflexivity.
  - intros p point Hp.
    pose proof (lookup_lt_Some _ _ _ Hp) as Hlt.
    destruct (nearest_value_of_point dhs solution comp point Hdof Hval
                (Hpoint p point Hp) Hne)
      as [_ [dh [cv [Hdh [Hcv [Hmin [Hd Hle]]]]]]].
    exists dh, cv. split; [exact Hdh|]. split; [exact Hcv|]. split.
    + rewrite !lookup_map, lookup_seq_lt by exact Hlt. simpl.
      f_equal. rewrite <- Hmin. f_equal.
      unfold g. rewrite <- (Hgmin p point Hp).
      rewrite <- (Hlocals p point Hp), map_map. reflexivity.
    + intros dh' cv' Hdh' Hcv'. rewrite Hd. apply (Hle dh' cv'); assumption.
Qed.

End Sampler.

Section PointValues.

Variable dim : nat.
Variable distance : list Qc -> list Qc -> Qc.

(** C3: with well-formed inputs (valid degrees of freedom, finite values
    and distances, at least one visible vertex) [get_point_values] returns
    one value per query point, the solution value at a visible vertex
    whose distance to the point is the least among the visible vertices
    of all ranks.  If moreover the distance is non-negative and vanishes
    only between equal points, and vertices at the same position share
    their degree of freedom, then a query point that coincides with a
    visible vertex gets exactly the solution value at that vertex's degree
    of freedom for the requested component. *)
Theorem get_point_values_nearest_vertex (dhs : list (list CellAccessor))
    (solution : list Qc) (comp : nat) (points : list (list Qc))
    (comm : list Collective) :
  sampler_inputs_ok dim distance dhs solution comp points ->
  exists values,
    fst (get_point_values dim distance dhs solution comp points comm)
    = Ok values
    /\ length values = length points
    /\ (forall p point,
           points !! p = Some point ->
           exists dh cv,
             In dh dhs /\ In cv (visible_vertices dim dh)
             /\ values !! p
                = Some (entry1 solution
                          (Z.to_nat
                             (vertex_dof_index (fst cv) (snd cv) comp)))
             /\ forall dh' cv',
                  In dh' dhs -> In cv' (visible_vertices dim dh') ->
                  distance point (vertex (fst cv) (snd cv))
                  <= distance point (vertex (fst cv') (snd cv')))
    /\ ((forall a b, 0 <= distance a b) ->
        (forall a, distance a a = 0) ->
        (forall point dh cv,
            In point points -> In dh dhs -> In cv (visible_vertices dim dh) ->
            distance point (vertex (fst cv) (snd cv)) = 0 ->
            point = vertex (fst cv) (snd cv)) ->
        (forall dh cv dh' cv',
            In dh dhs -> In cv (visible_vertices dim dh) ->
            In dh' dhs -> In cv' (visible_vertices dim dh') ->
            vertex (fst cv) (snd cv) = vertex (fst cv') (snd cv') ->
            vertex_dof_index (fst cv) (snd cv) comp
            = vertex_dof_index (fst cv') (snd cv') comp) ->
        forall p dh cv,
          In dh dhs -> In cv (visible_vertices dim dh) ->
          points !! p = Some (vertex (fst cv) (snd cv)) ->
          values !! p
          = Some (entry1 solution
                    (Z.to_nat (vertex_dof_index (fst cv) (snd cv) comp)))).
Proof.
  intros Hok.
  destruct (get_point_values_nearest dim distance dhs solution comp points
              comm Hok) as [values [Hv [Hlen Hnear]]].
  exists values. split; [exact Hv|]. split; [exact Hlen|].
  split; [exact Hnear|].
  intros Hnonneg Hrefl Hzero Hdof p dh cv Hdh Hcv Hp.
  destruct (Hnear p _ Hp) as [dh1 [cv1 [Hdh1 [Hcv1 [Hval Hmin]]]]].
  rewrite Hval. do 3 f_equal.
  apply (Hdof dh1 cv1 dh cv); try assumption.
  symmetry. apply (Hzero _ dh1 cv1); try assumption.
  - apply list_elem_of_In. eapply list_elem_of_lookup_2. exact Hp.
  - apply Qcle_antisym; [|apply Hnonneg].
    rewrite <- (Hrefl (vertex (fst cv) (snd cv))).
    apply (Hmin dh cv); assumption.
Qed.

End PointValues.

(** ** Sums over permuted lists *)

Lemma two_plus : two = 1 + 1.
Proof. apply Qc_is_canon. reflexivity. Qed.

Lemma sum_list_Permutation (l l' : list Qc) :
  Permutation l l' -> sum_list l = sum_list l'.
Proof.
  induction 1 as [|x l l' _ IH|x y l|l l' l'' _ IH1 _ IH2].
  - reflexivity.
  - rewrite !sum_list_cons, IH. reflexivity.
  - rewrite !sum_list_cons. ring.
  - rewrite IH1. exact IH2.
Qed.

Lemma sum_list_flat_map {A B} (h : A -> list B) (f : B -> Qc) (l : list A) :
  sum_list (map f (flat_map h l))
  = sum_list (map (fun x => sum_list (map f (h x))) l).
Proof.
  induction l as [|x l IH]; simpl; [reflexivity|].
  rewrite map_app, sum_list_app, sum_list_cons, IH. reflexivity.
Qed.

Lemma filter_Permutation {A} (P : A -> bool) (l l' : list A) :
  Permutation l l' -> Permutation (List.filter P l) (List.filter P l').
Proof.
  induction 1 as [|x l l' _ IH|x y l|l l' l'' _ IH1 _ IH2]; simpl.
  - constructor.
  - destruct (P x); [constructor|]; exact IH.
  - destruct (P x), (P y); try reflexivity. constructor.
  - etransitivity; eassumption.
Qed.

Lemma lookup_two_Permutation {A} (l : list A) (i j : nat) (x y : A) :
  i <> j -> l !! i = Some x -> l !! j = Some y ->
  exists rest, Permutation l (x :: y :: rest).
Proof.
  intros Hne Hi Hj.
  pose proof (delete_Permutation l i x Hi) as H1.
  destruct (decide (j < i)%nat) as [Hlt|Hge].
  - assert (Hj' : delete i l !! j = Some y)
      by (rewrite list_lookup_delete_lt by exact Hlt; exact Hj).
    exists (delete j (delete i l)).
    rewrite H1 at 1. constructor.
    apply delete_Permutation. exact Hj'.
  - destruct j as [|j]; [lia|].
    assert (Hj' : delete i l !! j = Some y)
      by (rewrite list_lookup_delete_ge by lia; exact Hj).
    exists (delete j (delete i l)).
    rewrite H1 at 1. constructor.
    apply delete_Permutation. exact Hj'.
Qed.

Lemma In_Permutation_cons {A} (x : A) (l : list A) :
  In x l -> exists rest, Permutation l (x :: rest).
Proof.
  intros H. destruct (in_split x l H) as [l1 [l2 ->]].
  exists (l1 ++ l2). symmetry. apply Permutation_middle.
Qed.

Section EveryFace.

Variable dim : nat.
Variable make_fe_face_values : FiniteElement -> nat -> FEFaceValues.

Lemma cod_faces_Permutation (dh dh' : list CellAccessor) :
  Permutation dh dh' -> Permutation (cod_faces dim dh) (cod_faces dim dh').
Proof.
  intros H. unfold cod_faces, owned_cells.
  apply Permutation_flat_map, Permutation_map, filter_Permutation.
  exact H.
Qed.

(** The local sums of one rank, face by face. *)
Lemma local_cod_by_face (pf : PhaseFieldSolver) (lines : list Qc)
    (axis : nat) (space_tol : Qc) :
  local_cod_spec dim make_fe_face_values pf lines axis space_tol
  = build1 (length lines) (fun k =>
      sum_list
        (map (face_cod dim make_fe_face_values pf lines axis space_tol k)
           (cod_faces dim (dof_handler pf)))).
Proof.
  unfold local_cod_spec. apply build1_ext. intros k _.
  unfold cod_samples. rewrite sum_list_flat_map. reflexivity.
Qed.

(** Two cells at different positions of the traversal, both owned, each
    with one of its faces singled out. *)
Lemma cod_faces_two_cells (dh : list CellAccessor) (i j : nat)
    (c1 c2 : CellAccessor) (f1 f2 : nat) :
  i <> j -> dh !! i = Some c1 -> dh !! j = Some c2 ->
  is_locally_owned c1 = true -> is_locally_owned c2 = true ->
  (f1 < faces_per_cell dim)%nat -> (f2 < faces_per_cell dim)%nat ->
  exists others,
    Permutation (cod_faces dim dh) ((cell c1, f1) :: (cell c2, f2) :: others).
Proof.
  intros Hne Hi Hj Ho1 Ho2 Hf1 Hf2.
  destruct (lookup_two_Permutation _ i j c1 c2 Hne Hi Hj) as [rest Hperm].
  assert (Hfaces : forall (c : CellAccessor) f,
             (f < faces_per_cell dim)%nat ->
             exists o,
               Permutation (map (pair (cell c)) (seq 0 (faces_per_cell dim)))
                 ((cell c, f) :: o)).
  { intros c f Hf. apply In_Permutation_cons. apply in_map.
    apply in_seq. lia. }
  destruct (Hfaces c1 f1 Hf1) as [o1 Ho1'].
  destruct (Hfaces c2 f2 Hf2) as [o2 Ho2'].
  exists (o1 ++ o2 ++ cod_faces dim rest).
  rewrite (cod_faces_Permutation _ _ Hperm).
  unfold cod_faces at 1, owned_cells. simpl. rewrite Ho1, Ho2. simpl.
  fold (owned_cells rest).
  change (flat_map
            (fun c => map (pair c) (seq 0 (faces_per_cell dim)))
            (owned_cells rest)) with (cod_faces dim rest).
  rewrite Ho1', (Permutation_app Ho2' (Permutation_refl (cod_faces dim rest))).
  simpl. constructor. symmetry. apply Permutation_middle.
Qed.

(** Two evaluated faces with the same points, weights and field samples
    contribute the same to every line. *)
Lemma face_cod_same_data (pf : PhaseFieldSolver) (lines : list Qc)
    (axis : nat) (space_tol : Qc) (k : nat) (cf1 cf2 : Cell * nat) :
  (forall q,
      (q < QGauss_size dim 3)%nat ->
      let v1 := make_fe_face_values (fe pf) 3 (fst cf1) (snd cf1) in
      let v2 := make_fe_face_values (fe pf) 3 (fst cf2) (snd cf2) in
      quadrature_point v2 q = quadrature_point v1 q
      /\ JxW v2 q = JxW v1 q
      /\ get_function_values v2 (solution pf) q
         = get_function_values v1 (solution pf) q
      /\ get_function_gradients v2 (solution pf) q
         = get_function_gradients v1 (solution pf) q) ->
  face_cod dim make_fe_face_values pf lines axis space_tol k cf2
  = face_cod dim make_fe_face_values pf lines axis space_tol k cf1.
Proof.
  intros Hsame. unfold face_cod, face_samples. f_equal.
  rewrite !map_map. apply map_ext_in. intros q Hq.
  apply in_seq in Hq.
  destruct (Hsame q ltac:(lia)) as [Hqp [Hw [Hu Hg]]].
  unfold cod_contribution, on_line, cod_density. simpl.
  rewrite Hqp, Hw, Hu, Hg. reflexivity.
Qed.

(** C5: on every rank [compute_cod] evaluates every face number of every
    locally-owned cell, whether or not the face lies at the boundary, and
    filters nothing: the local sum of a rank is the sum over all these
    (cell, face) pairs.  Two different owned cells that both have a face
    with the same quadrature points, weights and field samples (an
    interior face seen from its two sides) contribute that face once
    each, so what the face contributes to every line is counted twice. *)
Theorem compute_cod_visits_every_face (pf : PhaseFieldSolver)
    (lines : list Qc) (direction : Z) (space_tol : Qc) :
  (2 <= dim)%nat -> (direction = 0 \/ direction = 1)%Z ->
  fst (local_cod dim make_fe_face_values pf lines direction space_tol)
  = Ok (build1 (length lines) (fun k =>
          sum_list
            (map (face_cod dim make_fe_face_values pf lines
                    (Z.to_nat (1 - direction)) space_tol k)
               (cod_faces dim (dof_handler pf)))))
  /\ forall i j c1 c2 f1 f2,
       i <> j ->
       dof_handler pf !! i = Some c1 -> dof_handler pf !! j = Some c2 ->
       is_locally_owned c1 = true -> is_locally_owned c2 = true ->
       (f1 < faces_per_cell dim)%nat -> (f2 < faces_per_cell dim)%nat ->
       (forall q,
           (q < QGauss_size dim 3)%nat ->
           let v1 := make_fe_face_values (fe pf) 3 (cell c1) f1 in
           let v2 := make_fe_face_values (fe pf) 3 (cell c2) f2 in
           quadrature_point v2 q = quadrature_point v1 q
           /\ JxW v2 q = JxW v1 q
           /\ get_function_values v2 (solution pf) q
              = get_function_values v1 (solution pf) q
           /\ get_function_gradients v2 (solution pf) q
              = get_function_gradients v1 (solution pf) q) ->
       exists others cod,
         Permutation (cod_faces dim (dof_handler pf))
           ((cell c1, f1) :: (cell c2, f2) :: others)
         /\ fst (local_cod dim make_fe_face_values pf lines direction
                   space_tol) = Ok cod
         /\ forall k,
              (k < length lines)%nat ->
              entry1 cod k
              = two * face_cod dim make_fe_face_values pf lines
                        (Z.to_nat (1 - direction)) space_tol k (cell c1, f1)
                + sum_list
                    (map (face_cod dim make_fe_face_values pf lines
                            (Z.to_nat (1 - direction)) space_tol k) others).
Proof.
  intros Hdim Hdir.
  assert (Hlocal :
            fst (local_cod dim make_fe_face_values pf lines direction space_tol)
            = Ok (build1 (length lines) (fun k =>
                    sum_list
                      (map (face_cod dim make_fe_face_values pf lines
                              (Z.to_nat (1 - direction)) space_tol k)
                         (cod_faces dim (dof_handler pf)))))).
  { rewrite local_cod_pure
      by (rewrite (complementary_axis_2D direction Hdir);
          destruct Hdir; subst; lia).
    rewrite (complementary_axis_2D direction Hdir).
    f_equal. apply local_cod_by_face. }
  split; [exact Hlocal|].
  intros i j c1 c2 f1 f2 Hne Hi Hj Ho1 Ho2 Hf1 Hf2 Hsame.
  destruct (cod_faces_two_cells (dof_handler pf) i j c1 c2 f1 f2
              Hne Hi Hj Ho1 Ho2 Hf1 Hf2) as [others Hperm].
  exists others. eexists. split; [exact Hperm|]. split; [exact Hlocal|].
  intros k Hk. rewrite entry1_build1 by exact Hk.
  rewrite (sum_list_Permutation _ _
             (Permutation_map
                (face_cod dim make_fe_face_values pf lines
                   (Z.to_nat (1 - direction)) space_tol k) Hperm)).
  simpl. rewrite !sum_list_cons.
  rewrite (face_cod_same_data pf lines (Z.to_nat (1 - direction)) space_tol k
             (cell c1, f1) (cell c2, f2) Hsame).
  rewrite two_plus. ring.
Qed.

End EveryFace.

(** ** A mesh without visible vertices *)

Section NoVertex.

Variable dim : nat.
Variable distance : list Qc -> list Qc -> Qc.

(** C6 (what the code does, against the claim): when no rank sees a
    vertex, every rank's minimum distance is still the sentinel, so it
    equals the global minimum and every rank reads the solution at its
    sentinel index [std::numeric_limits<unsigned int>::max()]: with a
    solution vector of at most that many entries the call fails on the
    first query point with an index error instead of returning the
    sentinel value. *)
Theorem get_point_values_no_vertex (dhs : list (list CellAccessor))
    (solution : list Qc) (comp : nat) (point : list Qc)
    (points : list (list Qc)) (comm : list Collective) :
  dhs <> [] ->
  (forall dh, In dh dhs -> visible_vertices dim dh = []) ->
  (Z.of_nat (length solution) <= uint_max)%Z ->
  fst (get_point_values dim distance dhs solution comp (point :: points) comm)
  = Throw (ExcIndexRange uint_max (Z.of_nat (length solution))).
Proof.
  intros Hne Hempty Hlen.
  assert (Hst : forall dh,
             In dh dhs ->
             point_state 0
               (local_nearest dim distance dh comp (point :: points))
             = (double_max, uint_max)).
  { intros dh Hdh.
    rewrite (local_nearest_point dim distance dh comp (point :: points) 0 point)
      by reflexivity.
    rewrite (Hempty dh Hdh). reflexivity. }
  assert (Hmin : MPI_min
                   (map (fun st => entry1 (fst st) 0)
                      (map (fun dh =>
                              local_nearest dim distance dh comp
                                (point :: points)) dhs))
                 = double_max).
  { assert (Hin : In (MPI_min
                        (map (fun st => entry1 (fst st) 0)
                           (map (fun dh =>
                                   local_nearest dim distance dh comp
                                     (point :: points)) dhs)))
                    (map (fun st => entry1 (fst st) 0)
                       (map (fun dh =>
                               local_nearest dim distance dh comp
                                 (point :: points)) dhs))).
    { apply MPI_min_in. destruct dhs; [congruence|discriminate]. }
    rewrite map_map in Hin |- *. apply in_map_iff in Hin.
    destruct Hin as [dh [E Hdh]]. rewrite <- E.
    pose proof (Hst dh Hdh) as H. unfold point_state in H.
    injection H as H1 _. exact H1. }
  unfold get_point_values.
  change (seq 0 (length (point :: points)))
    with (0%nat :: seq 1 (length points)).
  unfold read_values; fold read_values. cbv zeta. rewrite Hmin.
  destruct dhs as [|dh0 dhs']; [congruence|].
  simpl map. unfold mapM; fold (@mapM (list Qc * list Z) Qc).
  pose proof (Hst dh0 (or_introl eq_refl)) as H0. unfold point_state in H0.
  injection H0 as H1 H2.
  unfold rank_value at 1. rewrite H1, H2.
  destruct (Qc_eq_dec double_max double_max); [|congruence].
  unfold vector_read.
  assert (E : ((0 <=? uint_max)%Z
               && (uint_max <? Z.of_nat (length solution))%Z) = false).
  { apply andb_false_iff. right. apply Z.ltb_ge. exact Hlen. }
  rewrite E. reflexivity.
Qed.

End NoVertex.

(** ** One partition against many *)

Lemma sum_over_ranks {Y} (h : Cell -> list Y) (f : Y -> Qc)
    (pfs : list PhaseFieldSolver) :
  sum_list
    (map (fun pf =>
            sum_list (map f (flat_map h (owned_cells (dof_handler pf)))))
       pfs)
  = sum_list
      (map f
         (flat_map h
            (flat_map (fun pf => owned_cells (dof_handler pf)) pfs))).
Proof.
  induction pfs as [|pf pfs IH]; simpl; [reflexivity|].
  rewrite sum_list_cons, IH, flat_map_app, map_app, sum_list_app.
  reflexivity.
Qed.

Lemma flat_map_nil_inv {A B} (h : A -> list B) (l : list A) :
  flat_map h l = [] -> forall x, In x l -> h x = [].
Proof.
  induction l as [|y l IH]; simpl; intros H x Hx; [destruct Hx|].
  apply app_eq_nil in H. destruct H as [H1 H2].
  destruct Hx as [<-|Hx]; [exact H1|apply IH; assumption].
Qed.

Lemma foldM_id {A B} (body : A -> B -> Result A) (l : list B) (a : A) :
  (forall a b, In b l -> body a b = Ok a) -> foldM body l a = Ok a.
Proof.
  induction l as [|b l IH]; intros H; simpl; [reflexivity|].
  rewrite H by (left; reflexivity). simpl.
  apply IH. intros a' b' Hb'. apply H. right. exact Hb'.
Qed.

Lemma foldM_head_throw {A B} (body : A -> B -> Result A) (l : list B)
    (a : A) (e : Exception) :
  l <> [] -> (forall a b, body a b = Throw e) -> foldM body l a = Throw e.
Proof.
  destruct l as [|b l]; [congruence|]. intros _ H. simpl.
  rewrite H. reflexivity.
Qed.

Lemma mapM_throw {A B} (f : A -> Result B) (l : list A) (e : Exception) :
  (forall x, In x l -> f x = Throw e \/ exists y, f x = Ok y) ->
  (exists x, In x l /\ f x = Throw e) ->
  mapM f l = Throw e.
Proof.
  induction l as [|x l IH]; intros Hall [x0 [Hin Hx0]]; [destruct Hin|].
  simpl. destruct (Hall x (or_introl eq_refl)) as [E|[y E]]; rewrite E; simpl.
  - reflexivity.
  - destruct Hin as [<-|Hin]; [congruence|].
    rewrite IH; [reflexivity| |].
    + intros z Hz. apply Hall. right. exact Hz.
    + exists x0. split; assumption.
Qed.

Section Partition.

Variable dim : nat.
Variable make_fe_face_values : FiniteElement -> nat -> FEFaceValues.

(** The samples of one rank are those of its owned cells, cell by cell. *)
Lemma cod_samples_by_cell (pf : PhaseFieldSolver) :
  cod_samples dim make_fe_face_values pf
  = flat_map
      (fun c =>
         flat_map
           (fun f =>
              map (pair (make_fe_face_values (fe pf) 3 c f))
                (seq 0 (QGauss_size dim 3)))
           (seq 0 (faces_per_cell dim)))
      (owned_cells (dof_handler pf)).
Proof.
  unfold cod_samples, cod_faces. rewrite flat_map_flat_map.
  apply flat_map_ext. intros c. rewrite flat_map_map. reflexivity.
Qed.

Lemma boundary_load_spec_partition (pf0 : PhaseFieldSolver)
    (pfs : list PhaseFieldSolver) (data : PhaseFieldData) (bid : Z) :
  (forall pf, In pf pfs -> fe pf = fe pf0 /\ solution pf = solution pf0) ->
  Permutation (flat_map (fun pf => owned_cells (dof_handler pf)) pfs)
    (owned_cells (dof_handler pf0)) ->
  boundary_load_spec dim make_fe_face_values [pf0] data bid
  = boundary_load_spec dim make_fe_face_values pfs data bid.
Proof.
  intros Hsame Hperm. unfold boundary_load_spec.
  apply build1_ext. intros i _. simpl.
  rewrite sum_list_cons.
  replace (sum_list []) with (0 : Qc) by reflexivity. rewrite Qcplus_0_r.
  set (h := fun c =>
         flat_map
           (fun f =>
              map (pair (make_fe_face_values (fe pf0) (degree (fe pf0) + 1) c f))
                (seq 0 (QGauss_size dim (degree (fe pf0) + 1))))
           (tagged_faces dim bid c)).
  transitivity
    (sum_list
       (map (fun pf =>
               sum_list
                 (map (load_density dim data (solution pf0) i)
                    (flat_map h (owned_cells (dof_handler pf)))))
          pfs)).
  - rewrite sum_over_ranks.
    apply sum_list_Permutation, Permutation_map, Permutation_flat_map.
    symmetry. exact Hperm.
  - f_equal. apply map_ext_in. intros pf Hpf.
    destruct (Hsame pf Hpf) as [Hfe Hsol].
    unfold boundary_samples. rewrite Hfe, Hsol. reflexivity.
Qed.

Lemma cod_spec_partition (pf0 : PhaseFieldSolver)
    (pfs : list PhaseFieldSolver) (lines : list Qc) (axis : nat)
    (space_tol : Qc) :
  (forall pf, In pf pfs -> fe pf = fe pf0 /\ solution pf = solution pf0) ->
  Permutation (flat_map (fun pf => owned_cells (dof_handler pf)) pfs)
    (owned_cells (dof_handler pf0)) ->
  cod_spec dim make_fe_face_values [pf0] lines axis space_tol
  = cod_spec dim make_fe_face_values pfs lines axis space_tol.
Proof.
  intros Hsame Hperm. unfold cod_spec.
  apply build1_ext. intros k _. simpl.
  rewrite sum_list_cons.
  replace (sum_list []) with (0 : Qc) by reflexivity. rewrite Qcplus_0_r.
  set (h := fun c =>
         flat_map
           (fun f =>
              map (pair (make_fe_face_values (fe pf0) 3 c f))
                (seq 0 (QGauss_size dim 3)))
           (seq 0 (faces_per_cell dim))).
  transitivity
    (sum_list
       (map (fun pf =>
               sum_list
                 (map (cod_contribution dim axis space_tol (entry1 lines k)
                         (solution pf0))
                    (flat_map h (owned_cells (dof_handler pf)))))
          pfs)).
  - rewrite sum_over_ranks, cod_samples_by_cell.
    apply sum_list_Permutation, Permutation_map, Permutation_flat_map.
    symmetry. exact Hperm.
  - f_equal. apply map_ext_in. intros pf Hpf.
    destruct (Hsame pf Hpf) as [Hfe Hsol].
    rewrite cod_samples_by_cell, Hfe, Hsol. reflexivity.
Qed.

(** Without a line, a face or an owned cell no coordinate is read. *)
Lemma local_cod_quiet (pf : PhaseFieldSolver) (lines : list Qc)
    (direction : Z) (space_tol : Qc) :
  dim = 0%nat \/ lines = [] \/ owned_cells (dof_handler pf) = [] ->
  fst (local_cod dim make_fe_face_values pf lines direction space_tol)
  = Ok (replicate (length lines) 0).
Proof.
  intros Hquiet. unfold local_cod. simpl.
  apply foldM_id. intros acc c Hc. unfold cod_cell.
  destruct (is_locally_owned c) eqn:Eo; [|reflexivity].
  destruct Hquiet as [->|[->|Hnone]].
  - reflexivity.
  - apply foldM_id. intros acc1 f _. unfold cod_face.
    apply foldM_id. intros acc2 q _. reflexivity.
  - exfalso. unfold owned_cells in Hnone.
    apply map_eq_nil in Hnone.
    assert (Hin : In c (List.filter is_locally_owned (dof_handler pf)))
      by (apply filter_In; split; assumption).
    rewrite Hnone in Hin. destruct Hin.
Qed.

(** With a line, a face and an owned cell, an index outside the
    coordinate range makes the rank throw. *)
Lemma local_cod_throws (pf : PhaseFieldSolver) (lines : list Qc)
    (direction : Z) (space_tol : Qc) :
  dim <> 0%nat -> lines <> [] -> owned_cells (dof_handler pf) <> [] ->
  (Z.of_nat dim <= complementary_axis direction)%Z ->
  fst (local_cod dim make_fe_face_values pf lines direction space_tol)
  = Throw (ExcIndexRange (complementary_axis direction) (Z.of_nat dim)).
Proof.
  intros Hdim Hlines Howned Hidx. unfold local_cod. simpl.
  set (e := ExcIndexRange (complementary_axis direction) (Z.of_nat dim)).
  assert (Hline : forall view acc q k,
             cod_line dim view (solution pf) lines direction space_tol q acc k
             = Throw e).
  { intros view acc q k. unfold cod_line, coordinate.
    assert (E : ((0 <=? complementary_axis direction)%Z
                 && (complementary_axis direction <? Z.of_nat dim)%Z) = false).
    { apply andb_false_iff. right. apply Z.ltb_ge. exact Hidx. }
    rewrite E. reflexivity. }
  assert (Hq : forall view acc q,
             cod_q dim view (solution pf) lines direction space_tol acc q
             = Throw e).
  { intros view acc q. unfold cod_q. apply foldM_head_throw.
    - destruct lines; [congruence|discriminate].
    - intros a k. apply Hline. }
  assert (Hf : forall c acc f,
             cod_face dim (make_fe_face_values (fe pf) 3) (solution pf)
               (QGauss_size dim 3) lines direction space_tol c acc f
             = Throw e).
  { intros c acc f. unfold cod_face. apply foldM_head_throw.
    - unfold QGauss_size.
      pose proof (Nat.pow_nonzero 3 (dim - 1) ltac:(lia)) as Hp.
      destruct (3 ^ (dim - 1))%nat; [congruence|discriminate].
    - intros a q. apply Hq. }
  assert (Hc : forall acc c,
             cod_cell dim (make_fe_face_values (fe pf) 3) (solution pf)
               (QGauss_size dim 3) lines direction space_tol acc c
             = if is_locally_owned c then Throw e else Ok acc).
  { intros acc c. unfold cod_cell.
    destruct (is_locally_owned c); [|reflexivity].
    apply foldM_head_throw.
    - unfold faces_per_cell. destruct dim; [congruence|discriminate].
    - intros a f. apply Hf. }
  revert Howned. unfold owned_cells.
  generalize (replicate (length lines) (0 : Qc)).
  induction (dof_handler pf) as [|c dh IH]; intros acc Howned;
    simpl in Howned; [congruence|].
  simpl. rewrite Hc.
  destruct (is_locally_owned c); [reflexivity|].
  simpl. apply IH. exact Howned.
Qed.

End Partition.

Lemma entry1_replicate_zero (n k : nat) : entry1 (replicate n 0) k = 0.
Proof.
  unfold entry1. revert k.
  induction n as [|n IH]; intros [|k]; simpl; try reflexivity. apply IH.
Qed.

Lemma flat_map_nonempty {A B} (h : A -> list B) (l : list A) :
  flat_map h l <> [] -> exists x, In x l /\ h x <> [].
Proof.
  induction l as [|x l IH]; simpl; [congruence|]. intros H.
  destruct (h x) as [|y ys] eqn:E.
  - destruct (IH H) as [x' [Hin Hx']]. exists x'. split; [right|]; assumption.
  - exists x. split; [left; reflexivity|]. rewrite E. discriminate.
Qed.

Section PartitionCod.

Variable dim : nat.
Variable make_fe_face_values : FiniteElement -> nat -> FEFaceValues.

(** The crack-opening profile of one partition and of many, for every
    direction argument: both reject it, both fail on the coordinate
    access, or both return the same sums. *)
Lemma compute_cod_partition (pf0 : PhaseFieldSolver)
    (pfs : list PhaseFieldSolver) (lines : list Qc)
    (comm comm' : list Collective) (direction : Z) (space_tol : Qc) :
  (forall pf, In pf pfs -> fe pf = fe pf0 /\ solution pf = solution pf0) ->
  Permutation (flat_map (fun pf => owned_cells (dof_handler pf)) pfs)
    (owned_cells (dof_handler pf0)) ->
  fst (fst (compute_cod dim make_fe_face_values [pf0] lines comm direction
              space_tol))
  = fst (fst (compute_cod dim make_fe_face_values pfs lines comm' direction
                space_tol)).
Proof.
  intros Hsame Hperm.
  destruct (Z_lt_dec direction (Z.of_nat dim)) as [Hdir|Hdir].
  2:{ unfold compute_cod.
      assert (E : (direction <? Z.of_nat dim)%Z = false)
        by (apply Z.ltb_ge; lia).
      rewrite E. reflexivity. }
  destruct (Z_lt_dec (complementary_axis direction) (Z.of_nat dim))
    as [Hidx|Hidx].
  { rewrite !compute_cod_value by assumption. f_equal.
    apply cod_spec_partition; assumption. }
  assert (E : (direction <? Z.of_nat dim)%Z = true)
    by (apply Z.ltb_lt; exact Hdir).
  unfold compute_cod. rewrite E. cbv zeta. rewrite !mapM_map.
  assert (Hquiet_dec :
            (dim = 0%nat \/ lines = [] \/ owned_cells (dof_handler pf0) = [])
            \/ (dim <> 0%nat /\ lines <> []
                /\ owned_cells (dof_handler pf0) <> [])).
  { destruct (Nat.eq_dec dim 0%nat) as [Hd|Hd]; [left; left; exact Hd|].
    destruct lines as [|x xs]; [left; right; left; reflexivity|].
    destruct (owned_cells (dof_handler pf0)) as [|c cs];
      [left; right; right; reflexivity|].
    right. split; [exact Hd|]. split; discriminate. }
  destruct Hquiet_dec as [Hquiet|[Hd [Hl Ho]]].
  - assert (Hranks : forall pf, In pf pfs ->
               dim = 0%nat \/ lines = []
               \/ owned_cells (dof_handler pf) = []).
    { intros pf Hpf. destruct Hquiet as [H|[H|H]]; auto.
      right. right. rewrite H in Hperm.
      apply Permutation_sym, Permutation_nil in Hperm.
      apply (flat_map_nil_inv _ _ Hperm pf Hpf). }
    rewrite (mapM_pure _ (fun _ => replicate (length lines) 0))
      by (intros pf [<-|[]]; apply local_cod_quiet; exact Hquiet).
    rewrite (mapM_pure _ (fun _ => replicate (length lines) 0) pfs)
      by (intros pf Hpf; apply local_cod_quiet; apply Hranks; exact Hpf).
    simpl. f_equal. apply map_ext. intros k.
    unfold MPI_sum. rewrite sum_list_cons, entry1_replicate_zero.
    replace (sum_list []) with (0 : Qc) by reflexivity.
    rewrite Qcplus_0_r. symmetry. apply sum_list_zeros.
    intros x Hx. rewrite map_map in Hx. apply in_map_iff in Hx.
    destruct Hx as [pf [<- _]]. apply entry1_replicate_zero.
  - assert (H0 : fst (local_cod dim make_fe_face_values pf0 lines direction
                        space_tol)
                 = Throw (ExcIndexRange (complementary_axis direction)
                            (Z.of_nat dim)))
      by (apply local_cod_throws; try assumption; lia).
    rewrite (mapM_throw _ [pf0]
               (ExcIndexRange (complementary_axis direction) (Z.of_nat dim)));
      [|intros pf [<-|[]]; left; exact H0
       |exists pf0; split; [left; reflexivity|exact H0]].
    rewrite (mapM_throw _ pfs
               (ExcIndexRange (complementary_axis direction) (Z.of_nat dim))).
    + reflexivity.
    + intros pf Hpf.
      destruct (owned_cells (dof_handler pf)) as [|c cs] eqn:Eo.
      * right. eexists. apply local_cod_quiet. right. right. exact Eo.
      * left. apply local_cod_throws; try assumption; [|lia].
        rewrite Eo. discriminate.
    + assert (Hne : flat_map (fun pf => owned_cells (dof_handler pf)) pfs
                    <> []).
      { intros Hnil. rewrite Hnil in Hperm.
        apply Permutation_nil in Hperm. congruence. }
      destruct (flat_map_nonempty _ _ Hne) as [pf [Hpf Hown]].
      exists pf. split; [exact Hpf|].
      apply local_cod_throws; try assumption. lia.
Qed.

End PartitionCod.

Section PartitionSampler.

Variable dim : nat.
Variable distance : list Qc -> list Qc -> Qc.

Lemma visible_vertices_In (dh : list CellAccessor) (cv : Cell * nat) :
  In cv (visible_vertices dim dh)
  <-> In (fst cv) (visible_cells dh) /\ (snd cv < vertices_per_cell dim)%nat.
Proof.
  unfold visible_vertices. rewrite in_flat_map. split.
  - intros [c [Hc Hcv]]. apply in_map_iff in Hcv.
    destruct Hcv as [v [<- Hv]]. apply in_seq in Hv. simpl.
    split; [exact Hc|lia].
  - intros [Hc Hv]. exists (fst cv). split; [exact Hc|].
    apply in_map_iff. exists (snd cv). split.
    + destruct cv; reflexivity.
    + apply in_seq. lia.
Qed.

Lemma serial_cells (dh : list CellAccessor) :
  Forall (fun c => is_locally_owned c = true /\ is_artificial c = false) dh ->
  owned_cells dh = map cell dh /\ visible_cells dh = map cell dh.
Proof.
  unfold owned_cells, visible_cells.
  induction 1 as [|c l [Ho Ha] _ [IH1 IH2]]; simpl; [split; reflexivity|].
  rewrite Ho, Ha. simpl. rewrite IH1, IH2. split; reflexivity.
Qed.

(** The values sampled on one partition and on many agree when the
    nearest vertices of every query point carry one value. *)
Lemma get_point_values_partition (dh0 : list CellAccessor)
    (dhs : list (list CellAccessor)) (solution : list Qc) (comp : nat)
    (points : list (list Qc)) (comm comm' : list Collective) :
  Forall (fun c => is_locally_owned c = true /\ is_artificial c = false) dh0 ->
  Permutation (flat_map owned_cells dhs) (owned_cells dh0) ->
  (forall dh c, In dh dhs -> In c (visible_cells dh) ->
                In c (visible_cells dh0)) ->
  (forall dh c, In dh dhs -> In c dh -> is_locally_owned c = true ->
                is_artificial c = false) ->
  sampler_inputs_ok dim distance [dh0] solution comp points ->
  (forall point cv cv',
      In point points ->
      In cv (visible_vertices dim dh0) -> In cv' (visible_vertices dim dh0) ->
      (forall cv'', In cv'' (visible_vertices dim dh0) ->
                    distance point (vertex (fst cv) (snd cv))
                    <= distance point (vertex (fst cv'') (snd cv''))) ->
      (forall cv'', In cv'' (visible_vertices dim dh0) ->
                    distance point (vertex (fst cv') (snd cv'))
                    <= distance point (vertex (fst cv'') (snd cv''))) ->
      entry1 solution (Z.to_nat (vertex_dof_index (fst cv) (snd cv) comp))
      = entry1 solution (Z.to_nat (vertex_dof_index (fst cv') (snd cv') comp))) ->
  fst (get_point_values dim distance [dh0] solution comp points comm)
  = fst (get_point_values dim distance dhs solution comp points comm').
Proof.
  intros Hserial Hperm Hsub Hvis Hok Hunique.
  destruct (serial_cells dh0 Hserial) as [Hown0 Hvis0].
  assert (Hsubv : forall dh cv,
             In dh dhs -> In cv (visible_vertices dim dh) ->
             In cv (visible_vertices dim dh0)).
  { intros dh cv Hdh Hcv. apply visible_vertices_In in Hcv.
    destruct Hcv as [Hc Hv]. apply visible_vertices_In.
    split; [apply (Hsub dh); assumption|exact Hv]. }
  assert (Hcover : forall cv,
             In cv (visible_vertices dim dh0) ->
             exists dh, In dh dhs /\ In cv (visible_vertices dim dh)).
  { intros cv Hcv. apply visible_vertices_In in Hcv.
    destruct Hcv as [Hc Hv].
    rewrite Hvis0, <- Hown0 in Hc.
    apply (Permutation_in _ (Permutation_sym Hperm)) in Hc.
    apply in_flat_map in Hc. destruct Hc as [dh [Hdh Hc]].
    exists dh. split; [exact Hdh|]. apply visible_vertices_In.
    split; [|exact Hv].
    unfold owned_cells in Hc. apply in_map_iff in Hc.
    destruct Hc as [ca [Hca Hin]]. apply filter_In in Hin.
    destruct Hin as [Hin Ho].
    unfold visible_cells. apply in_map_iff. exists ca.
    split; [exact Hca|]. apply filter_In. split; [exact Hin|].
    rewrite (Hvis dh ca Hdh Hin Ho). reflexivity. }
  destruct Hok as [Hdof [Hval [Hdist [dh1 [cv1 [Hdh1 Hcv1]]]]]].
  assert (Hdh1' : dh1 = dh0) by (destruct Hdh1 as [E|[]]; symmetry; exact E).
  subst dh1.
  assert (Hok0 : sampler_inputs_ok dim distance [dh0] solution comp points).
  { split; [exact Hdof|]. split; [exact Hval|]. split; [exact Hdist|].
    exists dh0, cv1. split; [left; reflexivity|exact Hcv1]. }
  assert (HokN : sampler_inputs_ok dim distance dhs solution comp points).
  { split; [|split; [exact Hval|split]].
    - intros dh cv Hdh Hcv. apply (Hdof dh0 cv); [left; reflexivity|].
      apply (Hsubv dh); assumption.
    - intros point dh cv Hpoint Hdh Hcv.
      apply (Hdist point dh0 cv); [exact Hpoint|left; reflexivity|].
      apply (Hsubv dh); assumption.
    - destruct (Hcover cv1 Hcv1) as [dh [Hdh Hcv]]. exists dh, cv1.
      split; assumption. }
  destruct (get_point_values_nearest dim distance [dh0] solution comp points
              comm Hok0) as [v0 [E0 [L0 N0]]].
  destruct (get_point_values_nearest dim distance dhs solution comp points
              comm' HokN) as [vN [EN [LN NN]]].
  rewrite E0, EN. f_equal. apply list_eq. intros p.
  destruct (points !! p) as [point|] eqn:Ep.
  - destruct (N0 p point Ep) as [dh [cv [Hdh [Hcv [Hv Hmin]]]]].
    destruct (NN p point Ep) as [dh' [cv' [Hdh' [Hcv' [Hv' Hmin']]]]].
    assert (dh = dh0) by (destruct Hdh as [E|[]]; symmetry; exact E).
    subst dh.
    rewrite Hv, Hv'. f_equal.
    apply (Hunique point cv cv').
    + apply list_elem_of_In. eapply list_elem_of_lookup_2. exact Ep.
    + exact Hcv.
    + apply (Hsubv dh'); assumption.
    + intros cv'' Hcv''. apply (Hmin dh0 cv''); [left; reflexivity|exact Hcv''].
    + intros cv'' Hcv''. destruct (Hcover cv'' Hcv'') as [dh'' [Hdh'' Hin'']].
      apply (Hmin' dh'' cv''); assumption.
  - apply lookup_ge_None in Ep.
    rewrite (proj2 (lookup_ge_None v0 p)) by lia.
    rewrite (proj2 (lookup_ge_None vN p)) by lia. reflexivity.
Qed.

End PartitionSampler.

(** ** Soundness of the decision procedures *)

Lemma Qcltb_true (x y : Qc) : Qcltb x y = true -> x < y.
Proof. unfold Qcltb. destruct (Qclt_le_dec x y); [auto|discriminate]. Qed.

Lemma Qcltb_false (x y : Qc) : Qcltb x y = false -> y <= x.
Proof. unfold Qcltb. destruct (Qclt_le_dec x y); [discriminate|auto]. Qed.

Lemma Qcleb_true (x y : Qc) : Qcleb x y = true -> x <= y.
Proof. unfold Qcleb. destruct (Qclt_le_dec y x); [discriminate|auto]. Qed.

Lemma Qceqb_true (x y : Qc) : Qceqb x y = true -> x = y.
Proof. unfold Qceqb. destruct (Qc_eq_dec x y); [auto|discriminate]. Qed.

Lemma Qceqb_false (x y : Qc) : Qceqb x y = false -> x <> y.
Proof. unfold Qceqb. destruct (Qc_eq_dec x y); [discriminate|auto]. Qed.

Lemma Pointeqb_true (a b : list Qc) : Pointeqb a b = true -> a = b.
Proof.
  revert b. induction a as [|x a IH]; intros [|y b] H; simpl in H;
    try discriminate; [reflexivity|].
  apply andb_true_iff in H. destruct H as [H1 H2].
  rewrite (Qceqb_true _ _ H1), (IH _ H2). reflexivity.
Qed.

Lemma Pointeqb_refl (a : list Qc) : Pointeqb a a = true.
Proof.
  induction a as [|x a IH]; simpl; [reflexivity|].
  rewrite IH. unfold Qceqb. destruct (Qc_eq_dec x x); [reflexivity|congruence].
Qed.

Section Decide.

Variable dim : nat.
Variable distance : list Qc -> list Qc -> Qc.

Lemma all_visible_In (dhs : list (list CellAccessor)) (dh : list CellAccessor)
    (cv : Cell * nat) :
  In dh dhs -> In cv (visible_vertices dim dh) -> In cv (all_visible dim dhs).
Proof.
  intros Hdh Hcv. unfold all_visible. apply in_flat_map.
  exists dh. split; assumption.
Qed.

Lemma sampler_inputs_okb_sound (dhs : list (list CellAccessor))
    (solution : list Qc) (comp : nat) (points : list (list Qc)) :
  sampler_inputs_okb dim distance dhs solution comp points = true ->
  sampler_inputs_ok dim distance dhs solution comp points.
Proof.
  unfold sampler_inputs_okb, sampler_inputs_ok. intros H.
  apply andb_true_iff in H. destruct H as [H H4].
  apply andb_true_iff in H. destruct H as [H H3].
  apply andb_true_iff in H. destruct H as [H1 H2].
  rewrite forallb_forall in H1, H2, H3.
  split; [|split; [|split]].
  - intros dh cv Hdh Hcv.
    specialize (H1 cv (all_visible_In dhs dh cv Hdh Hcv)).
    apply andb_true_iff in H1. destruct H1 as [Ha Hb].
    apply Z.leb_le in Ha. apply Z.ltb_lt in Hb. lia.
  - intros x Hx. apply Qcleb_true. apply H2. exact Hx.
  - intros point dh cv Hpoint Hdh Hcv.
    specialize (H3 point Hpoint). rewrite forallb_forall in H3.
    apply Qcltb_true. apply H3. apply (all_visible_In dhs dh); assumption.
  - destruct (all_visible dim dhs) as [|cv l] eqn:E; [discriminate|].
    assert (Hin : In cv (all_visible dim dhs)) by (rewrite E; left; reflexivity).
    unfold all_visible in Hin. apply in_flat_map in Hin.
    destruct Hin as [dh [Hdh Hcv]]. exists dh, cv. split; assumption.
Qed.

Lemma nearest_value_uniqueb_sound (dh : list CellAccessor)
    (solution : list Qc) (comp : nat) (points : list (list Qc)) :
  nearest_value_uniqueb dim distance dh solution comp points = true ->
  nearest_value_unique dim distance dh solution comp points.
Proof.
  unfold nearest_value_uniqueb, nearest_value_unique.
  intros H point cv cv' Hpoint [Hcv Hmin] [Hcv' Hmin'].
  rewrite forallb_forall in H. specialize (H point Hpoint).
  rewrite forallb_forall in H. specialize (H cv Hcv).
  rewrite forallb_forall in H. specialize (H cv' Hcv').
  assert (Hno : forall c,
             In c (visible_vertices dim dh) ->
             (forall c', In c' (visible_vertices dim dh) ->
                         distance point (vertex (fst c) (snd c))
                         <= distance point (vertex (fst c') (snd c'))) ->
             existsb (fun cv'' => nearerb distance point cv'' c)
               (visible_vertices dim dh) = false).
  { intros c Hc Hm.
    destruct (existsb (fun cv'' => nearerb distance point cv'' c)
                (visible_vertices dim dh)) eqn:E; [|reflexivity].
    apply existsb_exists in E. destruct E as [c' [Hc' Hn]].
    apply Qcltb_true in Hn.
    exfalso. exact (Qclt_not_le _ _ Hn (Hm c' Hc')). }
  rewrite (Hno cv Hcv Hmin), (Hno cv' Hcv' Hmin') in H.
  rewrite !orb_false_r in H. apply Qceqb_true. exact H.
Qed.

Lemma zero_distance_hitsb_sound (dhs : list (list CellAccessor))
    (points : list (list Qc)) :
  zero_distance_hitsb dim distance dhs points = true ->
  forall point dh cv,
    In point points -> In dh dhs -> In cv (visible_vertices dim dh) ->
    distance point (vertex (fst cv) (snd cv)) = 0 ->
    point = vertex (fst cv) (snd cv).
Proof.
  unfold zero_distance_hitsb. intros H point dh cv Hpoint Hdh Hcv Hzero.
  rewrite forallb_forall in H. specialize (H point Hpoint).
  rewrite forallb_forall in H.
  specialize (H cv (all_visible_In dhs dh cv Hdh Hcv)).
  apply orb_true_iff in H. destruct H as [H|H].
  - apply negb_true_iff, Qceqb_false in H. contradiction.
  - apply Pointeqb_true. exact H.
Qed.

Lemma dofs_consistentb_sound (dhs : list (list CellAccessor)) (comp : nat) :
  dofs_consistentb dim dhs comp = true ->
  forall dh cv dh' cv',
    In dh dhs -> In cv (visible_vertices dim dh) ->
    In dh' dhs -> In cv' (visible_vertices dim dh') ->
    vertex (fst cv) (snd cv) = vertex (fst cv') (snd cv') ->
    vertex_dof_index (fst cv) (snd cv) comp
    = vertex_dof_index (fst cv') (snd cv') comp.
Proof.
  unfold dofs_consistentb. intros H dh cv dh' cv' Hdh Hcv Hdh' Hcv' Heq.
  rewrite forallb_forall in H.
  specialize (H cv (all_visible_In dhs dh cv Hdh Hcv)).
  rewrite forallb_forall in H.
  specialize (H cv' (all_visible_In dhs dh' cv' Hdh' Hcv')).
  apply orb_true_iff in H. destruct H as [H|H].
  - rewrite Heq, Pointeqb_refl in H. discriminate.
  - apply Z.eqb_eq. exact H.
Qed.

End Decide.

(** ** Partition invariance *)

Section PartitionInvariance.

Variable dim : nat.
Variable make_fe_face_values : FiniteElement -> nat -> FEFaceValues.
Variable distance : list Qc -> list Qc -> Qc.

(** C10 (amended): for a partition of a mesh the boundary load and the
    crack-opening profile are exactly those of the single-partition mesh
    (in exact arithmetic, and for every direction argument, failures
    included); the nearest-vertex samples are those of the
    single-partition mesh whenever the inputs are well formed and, for
    every query point, all vertices at the least distance carry the same
    value of the sampled component. *)
Theorem partition_invariance (pf0 : PhaseFieldSolver)
    (pfs : list PhaseFieldSolver) (comm comm' : list Collective)
    (data : PhaseFieldData) (bid : Z) (lines : list Qc) (direction : Z)
    (space_tol : Qc) (comp : nat) (points : list (list Qc)) :
  partition_of pfs pf0 ->
  fst (fst (compute_boundary_load dim make_fe_face_values [pf0] comm data bid))
  = fst (fst (compute_boundary_load dim make_fe_face_values pfs comm' data
                bid))
  /\ fst (fst (compute_cod dim make_fe_face_values [pf0] lines comm direction
                 space_tol))
     = fst (fst (compute_cod dim make_fe_face_values pfs lines comm' direction
                   space_tol))
  /\ (sampler_inputs_ok dim distance [dof_handler pf0] (solution pf0) comp
        points ->
      nearest_value_unique dim distance (dof_handler pf0) (solution pf0) comp
        points ->
      fst (get_point_values dim distance [dof_handler pf0] (solution pf0) comp
             points comm)
      = fst (get_point_values dim distance (map dof_handler pfs)
               (solution pf0) comp points comm')).
Proof.
  intros [Hserial [Hsame [Hperm [Hsub Hvis]]]].
  split; [|split].
  - rewrite !compute_boundary_load_value.
    apply boundary_load_spec_partition; assumption.
  - apply compute_cod_partition; assumption.
  - intros Hok Hunique.
    apply get_point_values_partition; try assumption.
    + rewrite flat_map_map. exact Hperm.
    + intros dh c Hdh Hc. apply in_map_iff in Hdh.
      destruct Hdh as [pf [<- Hpf]]. apply (Hsub pf); assumption.
    + intros dh c Hdh Hc Ho. apply in_map_iff in Hdh.
      destruct Hdh as [pf [<- Hpf]]. apply (Hvis pf); assumption.
    + intros point cv cv' Hpoint Hcv Hcv' Hmin Hmin'.
      apply (Hunique point cv cv'); [exact Hpoint| |]; split; assumption.
Qed.

End PartitionInvariance.

(** * The properties on the concrete mesh *)

Section OnTheStrip.

Import Example.

(** The distance of the example is non-negative and vanishes on equal
    points. *)
Lemma Qcabs'_nonneg (x : Qc) : 0 <= Qcabs' x.
Proof.
  unfold Qcabs'. destruct (Qclt_le_dec x 0) as [H|H]; [|exact H].
  apply Qclt_le_weak in H. apply Qcopp_le_compat in H. exact H.
Qed.

Lemma grid_distance_nonneg (a b : list Qc) : 0 <= grid_distance a b.
Proof.
  unfold grid_distance.
  replace (0 : Qc) with (0 + 0) by ring.
  apply Qcplus_le_compat; apply Qcabs'_nonneg.
Qed.

Lemma grid_distance_refl (a : list Qc) : grid_distance a a = 0.
Proof.
  unfold grid_distance.
  replace (entry1 a 0 - entry1 a 0) with (0 : Qc) by ring.
  replace (entry1 a 1 - entry1 a 1) with (0 : Qc) by ring.
  apply Qc_is_canon. reflexivity.
Qed.

(** The fields of the example evaluator are uniform. *)
Lemma strip_fields_uniform (pf : PhaseFieldSolver) (s : FEFaceView * nat) :
  In s (cod_samples 2 strip_fe_face_values pf) ->
  get_function_values (fst s) (solution pf) (snd s)
  = [entry1 (solution pf) 0; entry1 (solution pf) 1]
  /\ get_function_gradients (fst s) (solution pf) (snd s)
     = [entry1 (solution pf) 2; entry1 (solution pf) 3].
Proof.
  unfold cod_samples. intros H. apply in_flat_map in H.
  destruct H as [cf [_ H]]. unfold face_samples in H.
  apply in_map_iff in H. destruct H as [q [<- _]]. split; reflexivity.
Qed.

(** C2 on the strip of two squares on two ranks, for the line [y = 0.5]
    and the fields [u = (1, 0)], [grad phi = (0, -2)]. *)
Lemma compute_cod_line_contributions_witness :
  fst (fst (compute_cod 2 strip_fe_face_values
              [solver left_of_2 uniform_solution;
               solver right_of_2 uniform_solution]
              middle_line [] 0 space_tol))
  = Ok (cod_spec 2 strip_fe_face_values
          [solver left_of_2 uniform_solution;
           solver right_of_2 uniform_solution]
          middle_line (Z.to_nat (1 - 0)) space_tol)
  /\ exists cod,
       fst (fst (compute_cod 2 strip_fe_face_values
                   [solver left_of_2 uniform_solution;
                    solver right_of_2 uniform_solution]
                   middle_line [] 0 space_tol)) = Ok cod
       /\ entry1 cod 0
          = half * scalar_product 2 [1; 0] [0; - Qc_of_Z 2]
            * matched_weight 2 strip_fe_face_values
                [solver left_of_2 uniform_solution;
                 solver right_of_2 uniform_solution]
                (Z.to_nat (1 - 0)) space_tol (entry1 middle_line 0).
Proof.
  destruct (compute_cod_line_contributions 2 strip_fe_face_values
              [solver left_of_2 uniform_solution;
               solver right_of_2 uniform_solution]
              middle_line [] 0 space_tol (le_n 2) (or_introl eq_refl))
    as [A B].
  split; [exact A|].
  apply (B [1; 0] [0; - Qc_of_Z 2]).
  - simpl. lia.
  - intros pf s Hpf Hs _.
    destruct (strip_fields_uniform pf s Hs) as [Hu Hg].
    rewrite Hu, Hg.
    destruct Hpf as [<-|[<-|[]]]; split; reflexivity.
Defined.

(** C3 on the strip of two squares on two ranks: the query point at the
    vertex [(1, 0)] gets the value at that vertex's degree of freedom. *)
Lemma get_point_values_nearest_vertex_witness :
  exists values,
    fst (get_point_values 2 grid_distance [left_of_2; right_of_2]
           nodal_solution 0 [hit_point; quarter_point] [])
    = Ok values
    /\ length values = 2%nat
    /\ values !! 0%nat
       = Some (entry1 nodal_solution
                 (Z.to_nat (vertex_dof_index (strip_cell 2 0) 1 0))).
Proof.
  destruct (get_point_values_nearest_vertex 2 grid_distance
              [left_of_2; right_of_2] nodal_solution 0
              [hit_point; quarter_point] [])
    as [values [Hv [Hlen [_ Hhit]]]].
  - apply sampler_inputs_okb_sound. vm_compute. reflexivity.
  - exists values. split; [exact Hv|]. split; [exact Hlen|].
    apply (Hhit grid_distance_nonneg grid_distance_refl
             (zero_distance_hitsb_sound 2 grid_distance
                [left_of_2; right_of_2] [hit_point; quarter_point] eq_refl)
             (dofs_consistentb_sound 2 [left_of_2; right_of_2] 0 eq_refl)
             0%nat left_of_2 (strip_cell 2 0, 1%nat)).
    + left. reflexivity.
    + simpl. right. left. reflexivity.
    + reflexivity.
Defined.

(** C4 in two dimensions: direction 2 is rejected, direction 1 passes. *)
Lemma compute_cod_direction_check_witness :
  compute_cod 2 strip_fe_face_values [solver serial2 uniform_solution]
    middle_line [] 2 space_tol
  = (Throw (ExcMessage "Direction argument is wrong"),
     [solver serial2 uniform_solution], [])
  /\ (forall msg,
         fst (fst (compute_cod 2 strip_fe_face_values
                     [solver serial2 uniform_solution] middle_line [] 1
                     space_tol))
         <> Throw (ExcMessage msg)).
Proof.
  split.
  - apply (proj1 (compute_cod_direction_check 2 strip_fe_face_values
                    grid_distance [solver serial2 uniform_solution]
                    middle_line [] 2 space_tol)).
    simpl. lia.
  - apply (proj1 (proj2 (compute_cod_direction_check 2 strip_fe_face_values
                           grid_distance [solver serial2 uniform_solution]
                           middle_line [] 1 space_tol))).
    simpl. lia.
Defined.

(** C5 on the strip of two squares: the face [x = 1] is face 1 of the
    first square and face 0 of the second. *)
Lemma compute_cod_visits_every_face_witness :
  exists others cod,
    Permutation (cod_faces 2 serial2)
      ((strip_cell 2 0, 1%nat) :: (strip_cell 2 1, 0%nat) :: others)
    /\ fst (local_cod 2 strip_fe_face_values (solver serial2 nodal_solution)
              middle_line 0 space_tol) = Ok cod
    /\ forall k,
         (k < 1)%nat ->
         entry1 cod k
         = two * face_cod 2 strip_fe_face_values
                   (solver serial2 nodal_solution) middle_line
                   (Z.to_nat (1 - 0)) space_tol k (strip_cell 2 0, 1%nat)
           + sum_list
               (map (face_cod 2 strip_fe_face_values
                       (solver serial2 nodal_solution) middle_line
                       (Z.to_nat (1 - 0)) space_tol k) others).
Proof.
  destruct (compute_cod_visits_every_face 2 strip_fe_face_values
              (solver serial2 nodal_solution) middle_line 0 space_tol
              (le_n 2) (or_introl eq_refl)) as [_ B].
  apply (B 0%nat 1%nat (owned (strip_cell 2 0)) (owned (strip_cell 2 1))
           1%nat 0%nat).
  - discriminate.
  - reflexivity.
  - reflexivity.
  - reflexivity.
  - reflexivity.
  - unfold faces_per_cell. lia.
  - unfold faces_per_cell. lia.
  - intros q Hq. repeat split; reflexivity.
Defined.

(** C6 on two ranks, one without cells and one with artificial cells
    only. *)
Lemma get_point_values_no_vertex_witness :
  fst (get_point_values 2 grid_distance [only_artificial; no_cells]
         nodal_solution 0 [tie_point] [])
  = Throw (ExcIndexRange uint_max (Z.of_nat (length nodal_solution))).
Proof.
  apply (get_point_values_no_vertex 2 grid_distance
           [only_artificial; no_cells] nodal_solution 0 tie_point [] []).
  - discriminate.
  - intros dh [<-|[<-|[]]]; reflexivity.
  - vm_compute. discriminate.
Defined.

(** C7 in two dimensions with direction 1: the access is in bounds. *)
Lemma complementary_axis_out_of_range_witness :
  coordinate 2 [0; 0] (complementary_axis 1) = Ok 0
  /\ (1 = 0 \/ 1 = 1)%Z.
Proof.
  split; [reflexivity|].
  apply (proj2 (proj2 (proj2 complementary_axis_out_of_range))
           2%nat 1%Z [0; 0] 0).
  - simpl. lia.
  - simpl. lia.
  - reflexivity.
Defined.

(** C7 as stated fails: for direction 2 the index is not [-1]. *)
Lemma complementary_axis_is_not_minus_one :
  complementary_axis 2 = 4294967295%Z /\ complementary_axis 2 <> (-1)%Z.
Proof.
  split; [reflexivity|discriminate].
Qed.

(** C8 on the strip of four squares: no face carries the boundary
    identifier 7. *)
Lemma compute_boundary_load_absent_id_witness :
  fst (local_boundary_load 2 strip_fe_face_values
         (solver serial4 uniform_solution) steel 7)
  = tensor1_zero 2
  /\ fst (fst (compute_boundary_load 2 strip_fe_face_values
                 [solver rank0_of_2 uniform_solution;
                  solver rank1_of_2 uniform_solution] [] steel 7))
     = tensor1_zero 2.
Proof.
  destruct (compute_boundary_load_absent_id 2 strip_fe_face_values
              [solver rank0_of_2 uniform_solution;
               solver rank1_of_2 uniform_solution] [] steel 7) as [A B].
  split.
  - apply A. intros c Hc. simpl in Hc.
    destruct Hc as [<-|[<-|[<-|[<-|[]]]]]; reflexivity.
  - apply B. intros pf c [<-|[<-|[]]] Hc; simpl in Hc.
    + destruct Hc as [<-|[<-|[<-|[]]]]; reflexivity.
    + destruct Hc as [<-|[]]; reflexivity.
Defined.

(** The two-rank meshes of the example are partitions of the serial ones. *)
Lemma strip_partition_of_2 :
  partition_of
    [solver left_of_2 nodal_solution; solver right_of_2 nodal_solution]
    (solver serial2 nodal_solution).
Proof.
  split; [|split; [|split; [|split]]].
  - repeat constructor.
  - intros pf [<-|[<-|[]]]; split; reflexivity.
  - apply Permutation_refl.
  - intros pf c [<-|[<-|[]]] Hc; exact Hc.
  - intros pf c [<-|[<-|[]]] Hc Ho; simpl in Hc;
      destruct Hc as [<-|[<-|[]]]; try reflexivity; discriminate Ho.
Qed.

Lemma strip_partition_of_4 :
  partition_of
    [solver rank0_of_2 nodal_solution; solver rank1_of_2 nodal_solution]
    (solver serial4 nodal_solution).
Proof.
  split; [|split; [|split; [|split]]].
  - repeat constructor.
  - intros pf [<-|[<-|[]]]; split; reflexivity.
  - apply Permutation_refl.
  - intros pf c [<-|[<-|[]]] Hc; simpl in Hc |- *; tauto.
  - intros pf c [<-|[<-|[]]] Hc Ho; simpl in Hc;
      destruct Hc as [<-|[<-|[<-|[<-|[]]]]]; try reflexivity; discriminate Ho.
Qed.

(** C10 (amended) on the strip of two squares on two ranks. *)
Lemma partition_invariance_witness :
  fst (fst (compute_boundary_load 2 strip_fe_face_values
              [solver serial2 nodal_solution] [] steel 1))
  = fst (fst (compute_boundary_load 2 strip_fe_face_values
                [solver left_of_2 nodal_solution;
                 solver right_of_2 nodal_solution] [] steel 1))
  /\ fst (fst (compute_cod 2 strip_fe_face_values
                 [solver serial2 nodal_solution] middle_line [] 0 space_tol))
     = fst (fst (compute_cod 2 strip_fe_face_values
                   [solver left_of_2 nodal_solution;
                    solver right_of_2 nodal_solution] middle_line [] 0
                   space_tol))
  /\ fst (get_point_values 2 grid_distance [serial2] nodal_solution 0
            [hit_point; quarter_point] [])
     = fst (get_point_values 2 grid_distance [left_of_2; right_of_2]
              nodal_solution 0 [hit_point; quarter_point] []).
Proof.
  destruct (partition_invariance 2 strip_fe_face_values grid_distance
              (solver serial2 nodal_solution)
              [solver left_of_2 nodal_solution;
               solver right_of_2 nodal_solution]
              [] [] steel 1 middle_line 0 space_tol 0
              [hit_point; quarter_point] strip_partition_of_2)
    as [A [B C]].
  split; [exact A|]. split; [exact B|].
  apply C.
  - apply sampler_inputs_okb_sound. vm_compute. reflexivity.
  - apply nearest_value_uniqueb_sound. vm_compute. reflexivity.
Defined.

(** C10 as stated fails: on the strip of four squares the point
    [(1.5, 0)] is equally far from the vertices [(1, 0)] and [(2, 0)] (on
    one grid line, so also in the Euclidean distance); the single rank
    finds [(1, 0)] first and returns its value 97, rank 1 of the partition
    sees only [(2, 0)] and the final minimum returns its value 94. *)
Lemma partition_changes_point_values :
  partition_of
    [solver rank0_of_2 nodal_solution; solver rank1_of_2 nodal_solution]
    (solver serial4 nodal_solution)
  /\ sampler_inputs_ok 2 grid_distance [serial4] nodal_solution 0 [tie_point]
  /\ fst (get_point_values 2 grid_distance [serial4] nodal_solution 0
            [tie_point] [])
     <> fst (get_point_values 2 grid_distance
               (map dof_handler
                  [solver rank0_of_2 nodal_solution;
                   solver rank1_of_2 nodal_solution])
               nodal_solution 0 [tie_point] []).
Proof.
  split; [exact strip_partition_of_4|]. split.
  - apply sampler_inputs_okb_sound. vm_compute. reflexivity.
  - intros H. apply (f_equal values_of) in H. vm_compute in H.
    discriminate H.
Qed.

(** Uniform strain [[1/100, 0], [0, 0]] with [lambda = 3], [mu = 2]: the
    load on the right end (normal [(1, 0)], length 1) is
    [(lambda trace + 2 mu eps_xx, 0) = (7/100, 0)], on one rank and on two. *)
Example boundary_load_uniform_strain :
  map this
    (fst (fst (compute_boundary_load 2 strip_fe_face_values
                 [solver serial4 uniform_solution] [] steel 1)))
  = [7 # 100; 0]%Q
  /\ map this
       (fst (fst (compute_boundary_load 2 strip_fe_face_values
                    [solver rank0_of_2 uniform_solution;
                     solver rank1_of_2 uniform_solution] [] steel 1)))
     = [7 # 100; 0]%Q.
Proof. split; vm_compute; reflexivity. Qed.

(** In three dimensions direction 2 passes the check and the first
    coordinate access fails. *)
Example compute_cod_3D_direction_2 :
  fst (fst (compute_cod 3 strip_fe_face_values
              [solver serial2 uniform_solution] middle_line [] 2 space_tol))
  = Throw (ExcIndexRange 4294967295 3).
Proof. vm_compute. reflexivity. Qed.

(** The values sampled at [(1.5, 0)] and at the vertex [(1, 0)]. *)
Example point_values_on_the_strip :
  values_of
    (fst (get_point_values 2 grid_distance [serial4] nodal_solution 0
            [tie_point; hit_point] []))
  = [97; 97]%Q
  /\ values_of
       (fst (get_point_values 2 grid_distance [rank0_of_2; rank1_of_2]
               nodal_solution 0 [tie_point; hit_point] []))
     = [94; 97]%Q.
Proof. split; vm_compute; reflexivity. Qed.

End OnTheStrip.

(** * Further properties of the three operations *)

(** ** The boundary load as a function of the strain and the constants *)

Lemma sum_list_linear {A} (a b : Qc) (f g : A -> Qc) (l : list A) :
  sum_list (map (fun x => a * f x + b * g x) l)
  = a * sum_list (map f l) + b * sum_list (map g l).
Proof.
  induction l as [|x l IH]; simpl.
  - unfold sum_list. simpl. ring.
  - rewrite !sum_list_cons, IH. ring.
Qed.

Lemma sum_upto_linear (n : nat) (a b : Qc) (f g : nat -> Qc) :
  sum_upto n (fun i => a * f i + b * g i)
  = a * sum_upto n f + b * sum_upto n g.
Proof.
  rewrite !sum_upto_sum_list. apply sum_list_linear.
Qed.

Lemma sum_upto_zero (n : nat) (f : nat -> Qc) :
  (forall i, (i < n)%nat -> f i = 0) -> sum_upto n f = 0.
Proof.
  intros H. rewrite sum_upto_sum_list. apply sum_list_zeros.
  intros x Hx. apply in_map_iff in Hx. destruct Hx as [i [<- Hi]].
  apply H. apply in_seq in Hi. lia.
Qed.

Section LoadAlgebra.

Variable dim : nat.
Variable make_fe_face_values : FiniteElement -> nat -> FEFaceValues.

(** The traction reads the components below [dim] only. *)
Lemma traction_ext (data : PhaseFieldData) (s s' : list (list Qc))
    (n n' : list Qc) (i : nat) :
  (i < dim)%nat ->
  (forall a b, (a < dim)%nat -> (b < dim)%nat -> entry2 s a b = entry2 s' a b) ->
  (forall b, (b < dim)%nat -> entry1 n b = entry1 n' b) ->
  traction dim data s n i = traction dim data s' n' i.
Proof.
  intros Hi Hs Hn. unfold traction. apply sum_upto_ext. intros j Hj.
  unfold stress_entry. rewrite (Hn j Hj), (Hs i j Hi Hj).
  rewrite (sum_upto_ext dim (fun k => entry2 s k k) (fun k => entry2 s' k k))
    by (intros k Hk; apply Hs; exact Hk).
  reflexivity.
Qed.

(** X1: when the strain and the face normal are the same at every
    quadrature point of the tagged boundary faces, the boundary load is
    [(lambda trace(strain) I + 2 mu strain) * normal] times the sum of the
    quadrature weights of these faces over all ranks (their area). *)
Theorem boundary_load_uniform_field (pfs : list PhaseFieldSolver)
    (comm : list Collective) (data : PhaseFieldData) (bid : Z)
    (strain : list (list Qc)) (normal : list Qc) :
  (forall pf s,
      In pf pfs -> In s (boundary_samples dim make_fe_face_values pf bid) ->
      (forall a b, (a < dim)%nat -> (b < dim)%nat ->
                   entry2 (get_function_symmetric_gradients (fst s)
                             (solution pf) (snd s)) a b
                   = entry2 strain a b)
      /\ (forall b, (b < dim)%nat ->
                    entry1 (normal_vector (fst s) (snd s)) b
                    = entry1 normal b)) ->
  fst (fst (compute_boundary_load dim make_fe_face_values pfs comm data bid))
  = build1 dim (fun i =>
      traction dim data strain normal i
      * sum_list
          (map (fun pf =>
                  sum_list
                    (map (fun s => JxW (fst s) (snd s))
                       (boundary_samples dim make_fe_face_values pf bid)))
             pfs)).
Proof.
  intros Huniform. rewrite compute_boundary_load_value.
  unfold boundary_load_spec. apply build1_ext. intros i Hi.
  rewrite <- sum_list_scale. f_equal.
  apply map_ext_in. intros pf Hpf.
  rewrite <- sum_list_scale. f_equal.
  apply map_ext_in. intros s Hs.
  destruct (Huniform pf s Hpf Hs) as [Hstrain Hnormal].
  unfold load_density.
  rewrite (traction_ext data _ strain _ normal i Hi Hstrain Hnormal).
  reflexivity.
Qed.

(** X2: a displacement field without strain at the quadrature points of
    the tagged boundary faces gives the zero load, whatever the elastic
    constants and the normals are. *)
Theorem boundary_load_zero_strain (pfs : list PhaseFieldSolver)
    (comm : list Collective) (data : PhaseFieldData) (bid : Z) :
  (forall pf s a b,
      In pf pfs -> In s (boundary_samples dim make_fe_face_values pf bid) ->
      (a < dim)%nat -> (b < dim)%nat ->
      entry2 (get_function_symmetric_gradients (fst s) (solution pf) (snd s))
        a b = 0) ->
  fst (fst (compute_boundary_load dim make_fe_face_values pfs comm data bid))
  = tensor1_zero dim.
Proof.
  intros Hzero. rewrite compute_boundary_load_value, tensor1_zero_build1.
  unfold boundary_load_spec. apply build1_ext. intros i Hi.
  apply sum_list_zeros. intros x Hx. apply in_map_iff in Hx.
  destruct Hx as [pf [<- Hpf]].
  apply sum_list_zeros. intros y Hy. apply in_map_iff in Hy.
  destruct Hy as [s [<- Hs]].
  unfold load_density, traction.
  rewrite sum_upto_zero; [ring|].
  intros j Hj. unfold stress_entry.
  rewrite (Hzero pf s i j Hpf Hs Hi Hj).
  rewrite (sum_upto_zero dim)
    by (intros k Hk; apply (Hzero pf s k k Hpf Hs Hk Hk)).
  ring.
Qed.

(** X3: the boundary load is linear in the two elastic constants: it is
    [lame_constant] times the load for the constants [(1, 0)] plus
    [shear_modulus] times the load for the constants [(0, 1)]. *)
Theorem boundary_load_linear_in_constants (pfs : list PhaseFieldSolver)
    (comm : list Collective) (data : PhaseFieldData) (bid : Z) :
  fst (fst (compute_boundary_load dim make_fe_face_values pfs comm data bid))
  = build1 dim (fun i =>
      lame_constant data
      * entry1
          (fst (fst (compute_boundary_load dim make_fe_face_values pfs comm
                       {| lame_constant := 1; shear_modulus := 0 |} bid))) i
      + shear_modulus data
        * entry1
            (fst (fst (compute_boundary_load dim make_fe_face_values pfs comm
                         {| lame_constant := 0; shear_modulus := 1 |} bid)))
            i).
Proof.
  rewrite !compute_boundary_load_value. unfold boundary_load_spec.
  apply build1_ext. intros i Hi.
  rewrite !entry1_build1 by exact Hi.
  rewrite <- sum_list_linear. f_equal.
  apply map_ext. intros pf.
  rewrite <- sum_list_linear. f_equal.
  apply map_ext. intros s.
  unfold load_density, traction.
  set (strain := get_function_symmetric_gradients (fst s) (solution pf) (snd s)).
  set (normal := normal_vector (fst s) (snd s)).
  assert (E : sum_upto dim
                (fun j => stress_entry dim data strain i j * entry1 normal j)
              = lame_constant data
                * sum_upto dim
                    (fun j =>
                       stress_entry dim
                         {| lame_constant := 1; shear_modulus := 0 |}
                         strain i j * entry1 normal j)
                + shear_modulus data
                  * sum_upto dim
                      (fun j =>
                         stress_entry dim
                           {| lame_constant := 0; shear_modulus := 1 |}
                           strain i j * entry1 normal j)).
  { rewrite <- sum_upto_linear. apply sum_upto_ext. intros j Hj.
    unfold stress_entry. simpl. ring. }
  rewrite E. ring.
Qed.

End LoadAlgebra.

(** ** The crack-opening profile at the edges of its arguments *)

Lemma on_line_nonpositive_tolerance (axis : nat) (space_tol line : Qc)
    (s : FEFaceView * nat) :
  space_tol <= 0 -> on_line axis space_tol line s = false.
Proof.
  intros Htol. unfold on_line.
  destruct (Qclt_le_dec _ _) as [Hlo|]; [|reflexivity].
  destruct (Qclt_le_dec _ _) as [Hhi|]; [|reflexivity].
  exfalso.
  pose proof (Qclt_trans _ _ _ Hlo Hhi) as Hlt.
  apply (Qclt_not_le _ _ Hlt).
  unfold Qcminus. apply Qcplus_le_compat; [apply Qcle_refl|].
  apply (Qcle_trans _ 0); [exact Htol|].
  apply Qcopp_le_compat in Htol.
  replace (- 0) with (0 : Qc) in Htol by ring. exact Htol.
Qed.

Lemma map_zero_replicate {A} (n : nat) (f : nat -> A) (x : A) :
  (forall k, (k < n)%nat -> f k = x) -> map f (seq 0 n) = replicate n x.
Proof.
  intros H. apply list_eq. intros k.
  rewrite lookup_map. destruct (decide (k < n)%nat) as [Hk|Hk].
  - rewrite lookup_seq_lt, lookup_replicate_2 by exact Hk. simpl.
    rewrite (H k Hk). reflexivity.
  - rewrite lookup_seq_ge by lia. symmetry.
    apply lookup_replicate_None. lia.
Qed.

Section CodEdges.

Variable dim : nat.
Variable make_fe_face_values : FiniteElement -> nat -> FEFaceValues.



(** X5: the line test is strict on both sides, so a tolerance that is
    not positive matches no quadrature point: the profile is zero on
    every line. *)
Theorem compute_cod_nonpositive_tolerance (pfs : list PhaseFieldSolver)
    (lines : list Qc) (comm : list Collective) (direction : Z)
    (space_tol : Qc) :
  (2 <= dim)%nat -> (direction = 0 \/ direction = 1)%Z ->
  space_tol <= 0 ->
  fst (fst (compute_cod dim make_fe_face_values pfs lines comm direction
              space_tol))
  = Ok (replicate (length lines) 0).
Proof.
  intros Hdim Hdir Htol.
  rewrite compute_cod_value_2D by assumption. f_equal.
  unfold cod_spec, build1. apply map_zero_replicate. intros k _.
  apply sum_list_zeros. intros x Hx. apply in_map_iff in Hx.
  destruct Hx as [pf [<- _]].
  apply sum_list_zeros. intros y Hy. apply in_map_iff in Hy.
  destruct Hy as [s [<- _]].
  unfold cod_contribution.
  rewrite on_line_nonpositive_tolerance by exact Htol. reflexivity.
Qed.

(** X6: the lines do not influence each other: entry [k] of the profile
    of a list of lines is the profile of the single line [lines[k]]. *)
Theorem compute_cod_line_by_line (pfs : list PhaseFieldSolver)
    (lines : list Qc) (comm : list Collective) (direction : Z)
    (space_tol : Qc) :
  (2 <= dim)%nat -> (direction = 0 \/ direction = 1)%Z ->
  exists cod,
    fst (fst (compute_cod dim make_fe_face_values pfs lines comm direction
                space_tol)) = Ok cod
    /\ length cod = length lines
    /\ forall k line,
         lines !! k = Some line ->
         fst (fst (compute_cod dim make_fe_face_values pfs [line] comm
                     direction space_tol))
         = Ok [entry1 cod k].
Proof.
  intros Hdim Hdir.
  exists (cod_spec dim make_fe_face_values pfs lines
            (Z.to_nat (1 - direction)) space_tol).
  split; [apply compute_cod_value_2D; assumption|]. split.
  - unfold cod_spec, build1. rewrite length_map, length_seq. reflexivity.
  - intros k line Hk.
    rewrite compute_cod_value_2D by assumption. f_equal.
    pose proof (lookup_lt_Some _ _ _ Hk) as Hlt.
    unfold cod_spec. rewrite entry1_build1 by exact Hlt.
    simpl. f_equal.
    assert (E : entry1 lines k = line) by (unfold entry1; rewrite Hk; reflexivity).
    rewrite E. reflexivity.
Qed.

End CodEdges.

(** ** What the traversals read *)

Section Reads.

Variable dim : nat.
Variable make_fe_face_values : FiniteElement -> nat -> FEFaceValues.
Variable distance : list Qc -> list Qc -> Qc.

(** The traversal of [compute_cod] on one rank is a traversal of its
    owned cells, whatever the direction is. *)
Lemma local_cod_owned_cells (pf : PhaseFieldSolver) (lines : list Qc)
    (direction : Z) (space_tol : Qc) :
  fst (local_cod dim make_fe_face_values pf lines direction space_tol)
  = foldM
      (fun acc c =>
         foldM
           (fun acc' f =>
              foldM
                (cod_q dim (make_fe_face_values (fe pf) 3 c f) (solution pf)
                   lines direction space_tol)
                (seq 0 (QGauss_size dim 3)) acc')
           (seq 0 (faces_per_cell dim)) acc)
      (owned_cells (dof_handler pf)) (replicate (length lines) 0).
Proof.
  unfold local_cod, owned_cells. simpl.
  generalize (replicate (length lines) (0 : Qc)).
  induction (dof_handler pf) as [|c dh IH]; intros acc; simpl; [reflexivity|].
  unfold cod_cell at 1. destruct (is_locally_owned c); simpl.
  - unfold cod_face.
    destruct (foldM _ (seq 0 (faces_per_cell dim)) acc); simpl;
      [apply IH|reflexivity].
  - apply IH.
Qed.

(** X7: cells that are not locally owned are never evaluated by
    [compute_boundary_load] and [compute_cod]: two ranks with the same
    finite element, the same solution and the same owned cells accumulate
    the same local load and the same local profile (or fail alike), however
    their ghost and artificial cells differ. *)
Theorem only_owned_cells_are_integrated (pf pf' : PhaseFieldSolver)
    (data : PhaseFieldData) (bid : Z) (lines : list Qc) (direction : Z)
    (space_tol : Qc) :
  fe pf = fe pf' -> solution pf = solution pf' ->
  owned_cells (dof_handler pf) = owned_cells (dof_handler pf') ->
  fst (local_boundary_load dim make_fe_face_values pf data bid)
  = fst (local_boundary_load dim make_fe_face_values pf' data bid)
  /\ fst (local_cod dim make_fe_face_values pf lines direction space_tol)
     = fst (local_cod dim make_fe_face_values pf' lines direction space_tol).
Proof.
  intros Hfe Hsol Hown. split.
  - rewrite !local_boundary_load_sum. unfold boundary_samples.
    rewrite Hfe, Hsol, Hown. reflexivity.
  - rewrite !local_cod_owned_cells. rewrite Hfe, Hsol, Hown. reflexivity.
Qed.

(** The search of [get_point_values] on one rank is a traversal of its
    cells that are not artificial. *)
Lemma local_nearest_visible_cells (dh : list CellAccessor) (comp : nat)
    (points : list (list Qc)) :
  local_nearest dim distance dh comp points
  = fold_left
      (fun st c =>
         fold_left (nearest_vertex distance c comp points)
           (seq 0 (vertices_per_cell dim)) st)
      (visible_cells dh)
      (replicate (length points) double_max,
       replicate (length points) uint_max).
Proof.
  unfold local_nearest, visible_cells.
  generalize (replicate (length points) double_max,
              replicate (length points) uint_max).
  induction dh as [|c dh IH]; intros st; simpl; [reflexivity|].
  unfold nearest_cell at 2. destruct (is_artificial c); simpl; apply IH.
Qed.

(** X8: artificial cells are never looked at by [get_point_values]:
    ranks with the same owned and ghost cells give the same result and
    the same collectives, however their artificial cells differ. *)
Theorem artificial_cells_are_skipped (dhs dhs' : list (list CellAccessor))
    (solution : list Qc) (comp : nat) (points : list (list Qc))
    (comm : list Collective) :
  Forall2 (fun dh dh' => visible_cells dh = visible_cells dh') dhs dhs' ->
  get_point_values dim distance dhs solution comp points comm
  = get_point_values dim distance dhs' solution comp points comm.
Proof.
  intros Hsame. unfold get_point_values.
  assert (E : map (fun dh => local_nearest dim distance dh comp points) dhs
              = map (fun dh => local_nearest dim distance dh comp points) dhs').
  { induction Hsame as [|dh dh' l l' Hv _ IH]; cbn [map]; [reflexivity|].
    rewrite IH, !local_nearest_visible_cells, Hv. reflexivity. }
  rewrite E. reflexivity.
Qed.

(** What the two integrals read of a solver object. *)
Lemma same_inputs_same_results (pfs pfs' : list PhaseFieldSolver)
    (comm comm' : list Collective) (data : PhaseFieldData) (bid : Z)
    (lines : list Qc) (direction : Z) (space_tol : Qc) :
  Forall2
    (fun pf pf' =>
       fe pf' = fe pf /\ dof_handler pf' = dof_handler pf
       /\ solution pf' = solution pf)
    pfs pfs' ->
  fst (fst (compute_boundary_load dim make_fe_face_values pfs' comm' data bid))
  = fst (fst (compute_boundary_load dim make_fe_face_values pfs comm data bid))
  /\ fst (fst (compute_cod dim make_fe_face_values pfs' lines comm' direction
                 space_tol))
     = fst (fst (compute_cod dim make_fe_face_values pfs lines comm direction
                   space_tol)).
Proof.
  intros Hsame.
  assert (Hlocal :
            map (fun pf =>
                   fst (local_boundary_load dim make_fe_face_values pf data
                          bid)) pfs'
            = map (fun pf =>
                     fst (local_boundary_load dim make_fe_face_values pf data
                            bid)) pfs
            /\ map (fun pf =>
                      fst (local_cod dim make_fe_face_values pf lines
                             direction space_tol)) pfs'
               = map (fun pf =>
                        fst (local_cod dim make_fe_face_values pf lines
                               direction space_tol)) pfs).
  { induction Hsame as [|pf pf' l l' [Hfe [Hdh Hsol]] _ [IHload IHcod]];
      cbn [map]; [split; reflexivity|].
    rewrite IHload, IHcod.
    split; f_equal; unfold local_boundary_load, local_cod; simpl;
      rewrite Hfe, Hdh, Hsol; reflexivity. }
  destruct Hlocal as [Hload Hcod].
  split.
  - unfold compute_boundary_load. simpl.
    apply build1_ext. intros i _. f_equal.
    rewrite !map_map.
    rewrite <- (map_map
                  (fun pf => fst (local_boundary_load dim make_fe_face_values
                                    pf data bid))
                  (fun l => entry1 l i) pfs').
    rewrite <- (map_map
                  (fun pf => fst (local_boundary_load dim make_fe_face_values
                                    pf data bid))
                  (fun l => entry1 l i) pfs).
    rewrite Hload. reflexivity.
  - unfold compute_cod.
    destruct (direction <? Z.of_nat dim)%Z; [|reflexivity].
    cbv zeta. rewrite !mapM_map.
    rewrite <- (mapM_map
                  (fun pf => fst (local_cod dim make_fe_face_values pf lines
                                    direction space_tol))
                  (fun r => r) pfs').
    rewrite <- (mapM_map
                  (fun pf => fst (local_cod dim make_fe_face_values pf lines
                                    direction space_tol))
                  (fun r => r) pfs).
    rewrite Hcod. destruct (mapM _ _); reflexivity.
Qed.

(** X9: the calls do not interfere.  On the solver objects a call of
    [compute_boundary_load] or [compute_cod] leaves behind (whether it
    succeeded or failed) both integrals give what they give on the
    original objects, and a second call of [compute_boundary_load] leaves
    the objects as the first one left them. *)
Theorem postprocessing_calls_do_not_interfere (pfs : list PhaseFieldSolver)
    (comm comm' : list Collective) (data data' : PhaseFieldData)
    (bid bid' : Z) (lines lines' : list Qc) (direction direction' : Z)
    (space_tol space_tol' : Qc) :
  let after_load :=
    snd (fst (compute_boundary_load dim make_fe_face_values pfs comm data bid))
  in
  let after_cod :=
    snd (fst (compute_cod dim make_fe_face_values pfs lines comm direction
                space_tol)) in
  (fst (fst (compute_boundary_load dim make_fe_face_values after_load comm'
               data' bid'))
   = fst (fst (compute_boundary_load dim make_fe_face_values pfs comm data'
                 bid'))
   /\ fst (fst (compute_cod dim make_fe_face_values after_load lines' comm'
                  direction' space_tol'))
      = fst (fst (compute_cod dim make_fe_face_values pfs lines' comm
                    direction' space_tol')))
  /\ (fst (fst (compute_boundary_load dim make_fe_face_values after_cod comm'
                  data' bid'))
      = fst (fst (compute_boundary_load dim make_fe_face_values pfs comm data'
                    bid'))
      /\ fst (fst (compute_cod dim make_fe_face_values after_cod lines' comm'
                     direction' space_tol'))
         = fst (fst (compute_cod dim make_fe_face_values pfs lines' comm
                       direction' space_tol')))
  /\ snd (fst (compute_boundary_load dim make_fe_face_values after_load comm'
                 data' bid'))
     = after_load.
Proof.
  intros after_load after_cod.
  assert (Hgen : forall l : list PhaseFieldSolver,
             Forall2
               (fun pf pf' =>
                  fe pf' = fe pf /\ dof_handler pf' = dof_handler pf
                  /\ solution pf' = solution pf)
               l (map assign_relevant_solution l)
             /\ Forall2
                  (fun pf pf' =>
                     fe pf' = fe pf /\ dof_handler pf' = dof_handler pf
                     /\ solution pf' = solution pf)
                  l l).
  { intros l. induction l as [|pf l [IH1 IH2]]; simpl; split;
      constructor; auto. }
  destruct (Hgen pfs) as [Hassign Hrefl].
  assert (Hload : after_load = map assign_relevant_solution pfs).
  { unfold after_load, compute_boundary_load. simpl.
    rewrite map_map. reflexivity. }
  assert (Hcod : after_cod = map assign_relevant_solution pfs
                 \/ after_cod = pfs).
  { unfold after_cod, compute_cod.
    destruct (direction <? Z.of_nat dim)%Z; [|right; reflexivity].
    left. cbv zeta. destruct (mapM fst _); simpl; rewrite map_map; reflexivity. }
  split; [|split].
  - rewrite Hload. apply same_inputs_same_results. exact Hassign.
  - destruct Hcod as [-> | ->]; apply same_inputs_same_results; assumption.
  - rewrite Hload. unfold compute_boundary_load. simpl.
    rewrite !map_map. reflexivity.
Qed.

(** X10: empty argument lists.  Without query points [get_point_values]
    returns the empty vector and issues no collective, whatever the mesh
    is (even one without any vertex); without lines [compute_cod] returns
    the empty profile and issues no collective for every direction that
    passes the argument check (even one whose complementary axis is not a
    coordinate), after every rank has copied its solution. *)
Theorem empty_argument_lists :
  (forall dhs solution comp comm,
      get_point_values dim distance dhs solution comp [] comm = (Ok [], comm))
  /\ (forall pfs comm direction space_tol,
         (direction < Z.of_nat dim)%Z ->
         compute_cod dim make_fe_face_values pfs [] comm direction space_tol
         = (Ok [], map assign_relevant_solution pfs, comm)).
Proof.
  split.
  - intros dhs solution comp comm. unfold get_point_values. simpl.
    rewrite app_nil_r. reflexivity.
  - intros pfs comm direction space_tol Hdir. unfold compute_cod.
    assert (E : (direction <? Z.of_nat dim)%Z = true)
      by (apply Z.ltb_lt; exact Hdir).
    rewrite E. cbv zeta. rewrite mapM_map.
    rewrite (mapM_pure _ (fun _ => replicate (length (@nil Qc)) 0))
      by (intros pf _; apply local_cod_quiet; right; left; reflexivity).
    simpl. rewrite app_nil_r, map_map. reflexivity.
Qed.

End Reads.

(** ** The nearest-vertex sampler, point by point and rank by rank *)

Lemma MPI_min_unique (l : list Qc) (m : Qc) :
  In m l -> (forall x, In x l -> m <= x) -> MPI_min l = m.
Proof.
  intros Hin Hle. apply Qcle_antisym.
  - apply MPI_min_le. exact Hin.
  - apply Hle. apply MPI_min_in. intros ->. destruct Hin.
Qed.

Lemma MPI_min_Permutation (l l' : list Qc) :
  Permutation l l' -> MPI_min l = MPI_min l'.
Proof.
  intros HP. destruct l as [|a l].
  - apply Permutation_nil in HP. subst. reflexivity.
  - symmetry. apply MPI_min_unique.
    + apply (Permutation_in _ HP). apply MPI_min_in. discriminate.
    + intros x Hx. apply MPI_min_le.
      apply (Permutation_in _ (Permutation_sym HP)). exact Hx.
Qed.

Lemma mapM_length {A B} (f : A -> Result B) (l : list A) (bs : list B) :
  mapM f l = Ok bs -> length bs = length l.
Proof.
  revert bs. induction l as [|a l IH]; intros bs; simpl.
  - intros E. inversion E. reflexivity.
  - destruct (f a) as [b|e]; simpl; [|discriminate].
    destruct (mapM f l) as [bs'|e]; simpl; [|discriminate].
    intros E. inversion E. simpl. rewrite (IH bs' eq_refl). reflexivity.
Qed.

(** The collectives of the first point loop. *)
Lemma read_values_collectives (solution : list Qc)
    (locals : list (list Qc * list Z)) (ps : list nat)
    (comm : list Collective) :
  exists issued,
    snd (read_values solution locals ps comm) = comm ++ issued
    /\ Forall
         (fun c => exists l, c = AllreduceMin l /\ length l = length locals)
         issued
    /\ match fst (read_values solution locals ps comm) with
       | Ok vss =>
           length issued = length ps /\ length vss = length ps
           /\ Forall (fun vs => length vs = length locals) vss
       | Throw _ => (1 <= length issued <= length ps)%nat
       end.
Proof.
  revert comm. induction ps as [|p ps IH]; intros comm.
  - exists []. simpl. rewrite app_nil_r. auto.
  - simpl.
    destruct (mapM _ locals) as [vs|e] eqn:EM.
    + destruct (IH (comm ++ [AllreduceMin
                               (map (fun st => entry1 (fst st) p) locals)]))
        as [issued [Hs [Hf Hm]]].
      exists (AllreduceMin (map (fun st => entry1 (fst st) p) locals)
                :: issued).
      destruct (read_values solution locals ps _) as [[vss|e] comm2];
        simpl in *.
      * split; [rewrite Hs, <- app_assoc; reflexivity|]. split.
        -- constructor; [|exact Hf]. eexists. split; [reflexivity|].
           apply length_map.
        -- destruct Hm as [H1 [H2 H3]]. split; [lia|]. split; [lia|].
           constructor; [|exact H3]. apply (mapM_length _ _ _ EM).
      * split; [rewrite Hs, <- app_assoc; reflexivity|]. split.
        -- constructor; [|exact Hf]. eexists. split; [reflexivity|].
           apply length_map.
        -- lia.
    + exists [AllreduceMin (map (fun st => entry1 (fst st) p) locals)].
      simpl. split; [reflexivity|]. split; [|lia].
      constructor; [|constructor]. eexists. split; [reflexivity|].
      apply length_map.
Qed.

Section SamplerRanks.

Variable dim : nat.
Variable distance : list Qc -> list Qc -> Qc.

(** X11: the communication of [get_point_values].  Every collective it
    issues is a minimum with one contribution per rank; a call that
    returns gives one value per query point and has issued two
    collectives per query point, and a call that fails has issued at
    least one and at most one per query point. *)
Theorem get_point_values_collectives (dhs : list (list CellAccessor))
    (solution : list Qc) (comp : nat) (points : list (list Qc))
    (comm : list Collective) :
  exists issued,
    snd (get_point_values dim distance dhs solution comp points comm)
    = comm ++ issued
    /\ Forall
         (fun c => exists l, c = AllreduceMin l /\ length l = length dhs)
         issued
    /\ match fst (get_point_values dim distance dhs solution comp points comm)
       with
       | Ok values =>
           length values = length points
           /\ length issued = (2 * length points)%nat
       | Throw _ => (1 <= length issued <= length points)%nat
       end.
Proof.
  unfold get_point_values.
  destruct (read_values_collectives solution
              (map (fun dh => local_nearest dim distance dh comp points) dhs)
              (seq 0 (length points)) comm) as [issued [Hs [Hf Hm]]].
  rewrite length_map in Hf.
  destruct (read_values solution _ (seq 0 (length points)) comm)
    as [[vss|e] comm2]; simpl in *.
  - destruct Hm as [H1 [H2 H3]]. rewrite length_seq in H1, H2.
    rewrite length_map in H3.
    exists (issued ++ map AllreduceMin vss).
    split; [rewrite Hs, app_assoc; reflexivity|]. split.
    + apply Forall_app. split; [exact Hf|].
      clear H2. induction H3 as [|vs vss Hvs _ IH]; simpl; constructor.
      * eexists. split; [reflexivity|exact Hvs].
      * exact IH.
    + rewrite length_app, !length_map. lia.
  - exists issued. rewrite length_seq in Hm. auto.
Qed.

(** With well-formed inputs the result is [nearest_value] at every query
    point. *)
Lemma get_point_values_formula (dhs : list (list CellAccessor))
    (solution : list Qc) (comp : nat) (points : list (list Qc))
    (comm : list Collective) :
  sampler_inputs_ok dim distance dhs solution comp points ->
  fst (get_point_values dim distance dhs solution comp points comm)
  = Ok (map (nearest_value dim distance dhs solution comp) points).
Proof.
  intros [Hdof [Hval [Hdist Hne]]].
  set (locals := map (fun dh => local_nearest dim distance dh comp points) dhs).
  set (gmin := fun p => MPI_min (map (fun st => entry1 (fst st) p) locals)).
  set (g := fun p st => held_value solution (gmin p) (point_state p st)).
  assert (Hlocals : forall p point,
             points !! p = Some point ->
             map (point_state p) locals
             = map (fun dh => scan distance comp point (visible_vertices dim dh))
                 dhs).
  { intros p point Hp. unfold locals. rewrite map_map.
    apply map_ext. intros dh. apply local_nearest_point. exact Hp. }
  assert (Hgmin : forall p point,
             points !! p = Some point ->
             gmin p
             = MPI_min
                 (map fst
                    (map (fun dh =>
                            scan distance comp point (visible_vertices dim dh))
                       dhs))).
  { intros p point Hp. unfold gmin.
    rewrite <- (Hlocals p point Hp), map_map. reflexivity. }
  assert (Hpoint : forall p point,
             points !! p = Some point ->
             forall dh cv,
               In dh dhs -> In cv (visible_vertices dim dh) ->
               distance point (vertex (fst cv) (snd cv)) < double_max).
  { intros p point Hp dh cv. apply Hdist.
    apply list_elem_of_In. eapply list_elem_of_lookup_2. exact Hp. }
  assert (Hread : forall p st,
             In p (seq 0 (length points)) -> In st locals ->
             rank_value solution (gmin p) p st = Ok (g p st)).
  { intros p st Hp Hst. apply in_seq in Hp.
    destruct (points !! p) as [point|] eqn:Epoint;
      [|apply lookup_ge_None in Epoint; lia].
    destruct (nearest_value_of_point dim distance dhs solution comp point
                Hdof Hval (Hpoint p point Epoint) Hne) as [Hidx _].
    unfold rank_value, g, held_value. simpl.
    destruct (Qc_eq_dec (gmin p) (entry1 (fst st) p)) as [Hg|Hg];
      [|reflexivity].
    apply vector_read_ok.
    apply (Hidx (point_state p st)).
    - rewrite <- (Hlocals p point Epoint). apply in_map. exact Hst.
    - rewrite <- (Hgmin p point Epoint). exact Hg. }
  unfold get_point_values. fold locals.
  pose proof (read_values_ok solution locals g (seq 0 (length points)) comm
                Hread) as Hrv.
  destruct (read_values solution locals (seq 0 (length points)) comm)
    as [[vss|e] comm2]; simpl in Hrv; [|discriminate].
  inversion Hrv as [Hvss]. simpl. f_equal.
  apply list_eq. intros p. rewrite !lookup_map.
  destruct (points !! p) as [point|] eqn:Hp.
  - pose proof (lookup_lt_Some _ _ _ Hp) as Hlt.
    rewrite lookup_seq_lt by exact Hlt. simpl. f_equal.
    unfold nearest_value, g. cbv zeta.
    rewrite <- (Hgmin p point Hp).
    rewrite <- (Hlocals p point Hp), map_map. reflexivity.
  - apply lookup_ge_None in Hp.
    rewrite lookup_seq_ge by lia. reflexivity.
Qed.

Lemma sampler_inputs_ok_point (dhs : list (list CellAccessor))
    (solution : list Qc) (comp : nat) (points : list (list Qc))
    (point : list Qc) :
  sampler_inputs_ok dim distance dhs solution comp points ->
  In point points ->
  sampler_inputs_ok dim distance dhs solution comp [point].
Proof.
  intros [Hdof [Hval [Hdist Hne]]] Hin.
  split; [exact Hdof|]. split; [exact Hval|]. split; [|exact Hne].
  intros pt dh cv [<-|[]]. apply Hdist. exact Hin.
Qed.

(** X12: the query points do not influence each other: entry [p] of the
    result for a list of points is the result for the single point
    [points[p]]. *)
Theorem get_point_values_point_by_point (dhs : list (list CellAccessor))
    (solution : list Qc) (comp : nat) (points : list (list Qc))
    (comm : list Collective) :
  sampler_inputs_ok dim distance dhs solution comp points ->
  exists values,
    fst (get_point_values dim distance dhs solution comp points comm)
    = Ok values
    /\ length values = length points
    /\ forall p point comm',
         points !! p = Some point ->
         fst (get_point_values dim distance dhs solution comp [point] comm')
         = Ok [entry1 values p].
Proof.
  intros Hok.
  exists (map (nearest_value dim distance dhs solution comp) points).
  split; [apply get_point_values_formula; exact Hok|].
  split; [apply length_map|].
  intros p point comm' Hp.
  rewrite get_point_values_formula.
  - simpl. unfold entry1. rewrite lookup_map, Hp. reflexivity.
  - apply (sampler_inputs_ok_point dhs solution comp points point Hok).
    apply list_elem_of_In. eapply list_elem_of_lookup_2. exact Hp.
Qed.

Lemma scan_keeps (comp : nat) (point : list Qc) (l : list (Cell * nat))
    (s : Qc * Z) :
  (forall cv, In cv l -> fst s <= distance point (vertex (fst cv) (snd cv))) ->
  fold_left (scan_step distance comp point) l s = s.
Proof.
  induction l as [|x l IH]; intros H; simpl; [reflexivity|].
  assert (E : scan_step distance comp point s x = s).
  { unfold scan_step. destruct (Qclt_le_dec _ _) as [Hlt|]; [|reflexivity].
    exfalso. apply (Qclt_not_le _ _ Hlt). apply H. left. reflexivity. }
  rewrite E. apply IH. intros cv Hcv. apply H. right. exact Hcv.
Qed.

(** A rank records the first of its nearest vertices. *)
Lemma scan_first_nearest (comp : nat) (point : list Qc)
    (before after : list (Cell * nat)) (cv : Cell * nat) :
  distance point (vertex (fst cv) (snd cv)) < double_max ->
  (forall cv', In cv' before ->
               distance point (vertex (fst cv) (snd cv))
               < distance point (vertex (fst cv') (snd cv'))) ->
  (forall cv', In cv' after ->
               distance point (vertex (fst cv) (snd cv))
               <= distance point (vertex (fst cv') (snd cv'))) ->
  scan distance comp point (before ++ cv :: after)
  = (distance point (vertex (fst cv) (snd cv)),
     vertex_dof_index (fst cv) (snd cv) comp).
Proof.
  intros Hfin Hbefore Hafter. unfold scan.
  rewrite fold_left_app. simpl.
  assert (Hlt : distance point (vertex (fst cv) (snd cv))
                < fst (fold_left (scan_step distance comp point) before
                         (double_max, uint_max))).
  { destruct (scan_fold_attained distance comp point before
                (double_max, uint_max)) as [E|[cv' [Hcv' E]]]; rewrite E.
    - exact Hfin.
    - simpl. apply Hbefore. exact Hcv'. }
  assert (E : scan_step distance comp point
                (fold_left (scan_step distance comp point) before
                   (double_max, uint_max)) cv
              = (distance point (vertex (fst cv) (snd cv)),
                 vertex_dof_index (fst cv) (snd cv) comp)).
  { unfold scan_step. destruct (Qclt_le_dec _ _) as [|Hle]; [reflexivity|].
    exfalso. exact (Qclt_not_le _ _ Hlt Hle). }
  rewrite E. apply scan_keeps. exact Hafter.
Qed.

(** X13: equidistant vertices.  Let a rank meet the vertex [cv] before
    any other of its vertices that is as near to the query point (the
    comparison of line 169 is strict), and let no vertex of any rank be
    nearer.  Then the value returned for the point is at most the solution
    value at [cv]; and on a single rank it is exactly that value: the
    first nearest vertex in traversal order wins. *)
Theorem get_point_values_equidistant (dhs : list (list CellAccessor))
    (solution : list Qc) (comp : nat) (points : list (list Qc))
    (comm : list Collective) (p : nat) (point : list Qc)
    (dh : list CellAccessor) (before after : list (Cell * nat))
    (cv : Cell * nat) :
  sampler_inputs_ok dim distance dhs solution comp points ->
  points !! p = Some point ->
  In dh dhs ->
  visible_vertices dim dh = before ++ cv :: after ->
  (forall cv', In cv' before ->
               distance point (vertex (fst cv) (snd cv))
               < distance point (vertex (fst cv') (snd cv'))) ->
  (forall dh' cv', In dh' dhs -> In cv' (visible_vertices dim dh') ->
                   distance point (vertex (fst cv) (snd cv))
                   <= distance point (vertex (fst cv') (snd cv'))) ->
  exists values,
    fst (get_point_values dim distance dhs solution comp points comm)
    = Ok values
    /\ entry1 values p
       <= entry1 solution (Z.to_nat (vertex_dof_index (fst cv) (snd cv) comp))
    /\ (dhs = [dh] ->
        values !! p
        = Some (entry1 solution
                  (Z.to_nat (vertex_dof_index (fst cv) (snd cv) comp)))).
Proof.
  intros Hok Hp Hdh Hvis Hbefore Hglobal.
  exists (map (nearest_value dim distance dhs solution comp) points).
  split; [apply get_point_values_formula; exact Hok|].
  destruct Hok as [Hdof [Hval [Hdist Hne]]].
  assert (Hpoint : In point points).
  { apply list_elem_of_In. eapply list_elem_of_lookup_2. exact Hp. }
  assert (Hcv : In cv (visible_vertices dim dh)).
  { rewrite Hvis. apply in_or_app. right. left. reflexivity. }
  assert (Hscan : scan distance comp point (visible_vertices dim dh)
                  = (distance point (vertex (fst cv) (snd cv)),
                     vertex_dof_index (fst cv) (snd cv) comp)).
  { rewrite Hvis. apply scan_first_nearest.
    - apply (Hdist point dh cv Hpoint Hdh Hcv).
    - exact Hbefore.
    - intros cv' Hcv'. apply (Hglobal dh cv' Hdh).
      rewrite Hvis. apply in_or_app. right. right. exact Hcv'. }
  set (found := map (fun dh => scan distance comp point
                                 (visible_vertices dim dh)) dhs).
  assert (Hfound : In (scan distance comp point (visible_vertices dim dh))
                     found).
  { unfold found. apply in_map_iff. exists dh. auto. }
  assert (Hgmin : MPI_min (map fst found)
                  = distance point (vertex (fst cv) (snd cv))).
  { apply MPI_min_unique.
    - apply in_map_iff. eexists. split; [|exact Hfound].
      rewrite Hscan. reflexivity.
    - intros x Hx. apply in_map_iff in Hx. destruct Hx as [s [<- Hs]].
      unfold found in Hs. apply in_map_iff in Hs.
      destruct Hs as [dh' [<- Hdh']].
      destruct (scan_fold_attained distance comp point
                  (visible_vertices dim dh') (double_max, uint_max))
        as [E|[cv' [Hcv' E]]]; unfold scan; rewrite E; simpl.
      + apply Qclt_le_weak. apply (Hdist point dh cv Hpoint Hdh Hcv).
      + apply (Hglobal dh' cv' Hdh' Hcv'). }
  assert (Hheld : held_value solution (MPI_min (map fst found))
                    (scan distance comp point (visible_vertices dim dh))
                  = entry1 solution
                      (Z.to_nat (vertex_dof_index (fst cv) (snd cv) comp))).
  { rewrite Hgmin, Hscan. unfold held_value. simpl.
    destruct (Qc_eq_dec _ _); [reflexivity|congruence]. }
  assert (Hentry : entry1 (map (nearest_value dim distance dhs solution comp)
                             points) p
                   = nearest_value dim distance dhs solution comp point).
  { unfold entry1. rewrite lookup_map, Hp. reflexivity. }
  split.
  - rewrite Hentry. unfold nearest_value. cbv zeta. fold found.
    rewrite <- Hheld. apply MPI_min_le. apply in_map. exact Hfound.
  - intros Hone. rewrite lookup_map, Hp. simpl. f_equal.
    unfold nearest_value. cbv zeta. fold found.
    rewrite <- Hheld.
    assert (E : found
                = [scan distance comp point (visible_vertices dim dh)]).
    { unfold found. rewrite Hone. reflexivity. }
    rewrite E. reflexivity.
Qed.

Lemma nearest_value_Permutation (dhs dhs' : list (list CellAccessor))
    (solution : list Qc) (comp : nat) (point : list Qc) :
  Permutation dhs dhs' ->
  nearest_value dim distance dhs solution comp point
  = nearest_value dim distance dhs' solution comp point.
Proof.
  intros HP. unfold nearest_value. cbv zeta.
  assert (HP' : Permutation
                  (map (fun dh => scan distance comp point
                                    (visible_vertices dim dh)) dhs)
                  (map (fun dh => scan distance comp point
                                    (visible_vertices dim dh)) dhs'))
    by (apply Permutation_map; exact HP).
  rewrite (MPI_min_Permutation _ _ (Permutation_map fst HP')).
  apply MPI_min_Permutation. apply Permutation_map. exact HP'.
Qed.

(** A rank that sees no vertex holds the sentinel for both reductions. *)
Lemma nearest_value_idle (dh : list CellAccessor)
    (dhs : list (list CellAccessor)) (solution : list Qc) (comp : nat)
    (point : list Qc) :
  sampler_inputs_ok dim distance dhs solution comp [point] ->
  visible_vertices dim dh = [] ->
  nearest_value dim distance (dh :: dhs) solution comp point
  = nearest_value dim distance dhs solution comp point.
Proof.
  intros [Hdof [Hval [Hdist Hne]]] Hidle.
  assert (Hdist' : forall dh cv,
             In dh dhs -> In cv (visible_vertices dim dh) ->
             distance point (vertex (fst cv) (snd cv)) < double_max).
  { intros dh' cv. apply Hdist. left. reflexivity. }
  destruct (nearest_value_of_point dim distance dhs solution comp point
              Hdof Hval Hdist' Hne)
    as [_ [dh1 [cv1 [Hdh1 [Hcv1 [Hmin [Hd _]]]]]]].
  unfold nearest_value. cbv zeta. cbn [map]. rewrite Hidle.
  set (found := map (fun dh => scan distance comp point
                                 (visible_vertices dim dh)) dhs) in *.
  assert (Hnil : scan distance comp point [] = (double_max, uint_max))
    by reflexivity.
  rewrite Hnil. cbn [fst].
  assert (Hfin : MPI_min (map fst found) < double_max).
  { rewrite <- Hd. apply (Hdist' dh1 cv1 Hdh1 Hcv1). }
  assert (Hnonempty : found <> []).
  { unfold found. destruct dhs; [destruct Hdh1|discriminate]. }
  assert (Hgmin : MPI_min (double_max :: map fst found)
                  = MPI_min (map fst found)).
  { apply MPI_min_unique.
    - right. apply MPI_min_in. destruct found; [congruence|discriminate].
    - intros x [<-|Hx]; [apply Qclt_le_weak; exact Hfin|].
      apply MPI_min_le. exact Hx. }
  rewrite Hgmin.
  assert (Hsentinel : held_value solution (MPI_min (map fst found))
                        (double_max, uint_max) = double_max).
  { unfold held_value. simpl.
    destruct (Qc_eq_dec _ _) as [E|]; [|reflexivity].
    exfalso. rewrite E in Hfin. exact (Qclt_not_le _ _ Hfin (Qcle_refl _)). }
  rewrite Hsentinel.
  apply MPI_min_unique.
  - right. apply MPI_min_in. destruct found; [congruence|discriminate].
  - intros x [<-|Hx]; [|apply MPI_min_le; exact Hx].
    rewrite Hmin. apply Hval. apply entry1_In.
    destruct (Hdof dh1 cv1 Hdh1 Hcv1) as [Hlo Hhi]. lia.
Qed.

Lemma sampler_inputs_ok_idle (idle dhs : list (list CellAccessor))
    (solution : list Qc) (comp : nat) (points : list (list Qc)) :
  sampler_inputs_ok dim distance dhs solution comp points ->
  Forall (fun dh => visible_vertices dim dh = []) idle ->
  sampler_inputs_ok dim distance (idle ++ dhs) solution comp points.
Proof.
  intros [Hdof [Hval [Hdist Hne]]] Hidle.
  assert (Hin : forall dh cv,
             In dh (idle ++ dhs) -> In cv (visible_vertices dim dh) ->
             In dh dhs).
  { intros dh cv Hdh Hcv. apply in_app_or in Hdh.
    destruct Hdh as [Hdh|Hdh]; [|exact Hdh].
    exfalso. apply list_elem_of_In in Hdh.
    rewrite (proj1 (Forall_forall _ _) Hidle dh Hdh) in Hcv. destruct Hcv. }
  split; [|split; [exact Hval|split]].
  - intros dh cv Hdh Hcv. apply (Hdof dh cv); [|exact Hcv].
    apply (Hin dh cv); assumption.
  - intros point dh cv Hpoint Hdh Hcv.
    apply (Hdist point dh cv); [exact Hpoint| |exact Hcv].
    apply (Hin dh cv); assumption.
  - destruct Hne as [dh [cv [Hdh Hcv]]]. exists dh, cv.
    split; [apply in_or_app; right; exact Hdh|exact Hcv].
Qed.

Lemma sampler_inputs_ok_Permutation (dhs dhs' : list (list CellAccessor))
    (solution : list Qc) (comp : nat) (points : list (list Qc)) :
  sampler_inputs_ok dim distance dhs solution comp points ->
  Permutation dhs' dhs ->
  sampler_inputs_ok dim distance dhs' solution comp points.
Proof.
  intros [Hdof [Hval [Hdist Hne]]] HP.
  split; [|split; [exact Hval|split]].
  - intros dh cv Hdh. apply Hdof. apply (Permutation_in _ HP). exact Hdh.
  - intros point dh cv Hpoint Hdh. apply Hdist; [exact Hpoint|].
    apply (Permutation_in _ HP). exact Hdh.
  - destruct Hne as [dh [cv [Hdh Hcv]]]. exists dh, cv.
    split; [|exact Hcv].
    apply (Permutation_in _ (Permutation_sym HP)). exact Hdh.
Qed.

(** X14: the numbering of the ranks and ranks without a vertex do not
    matter to [get_point_values]: reordering the ranks of a well-formed
    call and adding ranks that see no vertex (anywhere in the order)
    leaves the returned values as they are, ties included. *)
Theorem get_point_values_rank_order (dhs idle dhs' : list (list CellAccessor))
    (solution : list Qc) (comp : nat) (points : list (list Qc))
    (comm comm' : list Collective) :
  sampler_inputs_ok dim distance dhs solution comp points ->
  Forall (fun dh => visible_vertices dim dh = []) idle ->
  Permutation dhs' (idle ++ dhs) ->
  fst (get_point_values dim distance dhs' solution comp points comm')
  = fst (get_point_values dim distance dhs solution comp points comm).
Proof.
  intros Hok Hidle HP.
  rewrite !get_point_values_formula.
  - f_equal. apply map_ext_in. intros point Hpoint.
    rewrite (nearest_value_Permutation dhs' (idle ++ dhs) solution comp point
               HP).
    clear HP. induction Hidle as [|dh idle Hdh Hrest IH]; [reflexivity|].
    simpl. rewrite nearest_value_idle; [exact IH| |exact Hdh].
    apply (sampler_inputs_ok_point (idle ++ dhs) solution comp points point);
      [|exact Hpoint].
    apply sampler_inputs_ok_idle; assumption.
  - exact Hok.
  - apply (sampler_inputs_ok_Permutation (idle ++ dhs)); [|exact HP].
    apply sampler_inputs_ok_idle; assumption.
Qed.

(** X15: of the solution vector [get_point_values] reads only the
    degrees of freedom of the requested component at visible vertices:
    two vectors that agree there give the same values. *)
Theorem get_point_values_reads_vertex_dofs (dhs : list (list CellAccessor))
    (solution solution' : list Qc) (comp : nat) (points : list (list Qc))
    (comm comm' : list Collective) :
  sampler_inputs_ok dim distance dhs solution comp points ->
  sampler_inputs_ok dim distance dhs solution' comp points ->
  (forall dh cv,
      In dh dhs -> In cv (visible_vertices dim dh) ->
      entry1 solution' (Z.to_nat (vertex_dof_index (fst cv) (snd cv) comp))
      = entry1 solution (Z.to_nat (vertex_dof_index (fst cv) (snd cv) comp)))
  ->
  fst (get_point_values dim distance dhs solution' comp points comm')
  = fst (get_point_values dim distance dhs solution comp points comm).
Proof.
  intros Hok Hok' Hagree.
  rewrite !get_point_values_formula by assumption.
  f_equal. apply map_ext_in. intros point Hpoint.
  destruct Hok as [Hdof [Hval [Hdist Hne]]].
  assert (Hdist' : forall dh cv,
             In dh dhs -> In cv (visible_vertices dim dh) ->
             distance point (vertex (fst cv) (snd cv)) < double_max).
  { intros dh cv. apply Hdist. exact Hpoint. }
  destruct (nearest_value_of_point dim distance dhs solution comp point
              Hdof Hval Hdist' Hne)
    as [_ [dh1 [cv1 [Hdh1 [Hcv1 [_ [Hd _]]]]]]].
  unfold nearest_value. cbv zeta.
  set (found := map (fun dh => scan distance comp point
                                 (visible_vertices dim dh)) dhs) in *.
  assert (Hfin : MPI_min (map fst found) < double_max).
  { rewrite <- Hd. apply (Hdist' dh1 cv1 Hdh1 Hcv1). }
  f_equal. apply map_ext_in. intros s Hs.
  unfold held_value. destruct (Qc_eq_dec _ _) as [E|]; [|reflexivity].
  unfold found in Hs. apply in_map_iff in Hs. destruct Hs as [dh [<- Hdh]].
  destruct (scan_fold_attained distance comp point (visible_vertices dim dh)
              (double_max, uint_max)) as [E'|[cv [Hcv E']]];
    unfold scan in *; rewrite E' in *; simpl in *.
  - exfalso. rewrite E in Hfin. exact (Qclt_not_le _ _ Hfin (Qcle_refl _)).
  - apply (Hagree dh cv Hdh Hcv).
Qed.

End SamplerRanks.

(** ** The two integrals, rank by rank *)




Section IntegralRanks.

Variable dim : nat.
Variable make_fe_face_values : FiniteElement -> nat -> FEFaceValues.



End IntegralRanks.

(** ** What the integrals read of the finite-element evaluator *)

Lemma sum_samples_ext (F : FEFaceView * nat -> Qc)
    (view view' : Cell -> nat -> FEFaceView) (faces : Cell -> list nat)
    (qs : list nat) (cells : list Cell) :
  (forall c f q, F (view c f, q) = F (view' c f, q)) ->
  sum_list
    (map F
       (flat_map (fun c => flat_map (fun f => map (pair (view c f)) qs)
                             (faces c)) cells))
  = sum_list
      (map F
         (flat_map (fun c => flat_map (fun f => map (pair (view' c f)) qs)
                               (faces c)) cells)).
Proof.
  intros H. induction cells as [|c cells IH]; simpl; [reflexivity|].
  rewrite !map_app, !sum_list_app, IH. f_equal.
  induction (faces c) as [|f fs IHf]; simpl; [reflexivity|].
  rewrite !map_app, !sum_list_app, IHf. f_equal.
  rewrite !map_map. f_equal. apply map_ext. intros q. apply H.
Qed.

Section EvaluatorData.

Variable dim : nat.

(** X17: what the integrals read of an [FEFaceValues] object.
    [compute_boundary_load] reads the strain, the normal and the weight
    and nothing else (not the quadrature points it asks the evaluator to
    update); [compute_cod] reads the values, the gradients, the weight and
    the coordinate along the complementary axis of the quadrature point,
    and nothing else.  Two evaluators that agree on these give the same
    result. *)
Theorem integrals_read_requested_data
    (make_fe_face_values make_fe_face_values'
       : FiniteElement -> nat -> FEFaceValues)
    (pfs : list PhaseFieldSolver) (comm : list Collective)
    (data : PhaseFieldData) (bid : Z) (lines : list Qc) (direction : Z)
    (space_tol : Qc) :
  ((forall fe n c f q u,
       get_function_symmetric_gradients (make_fe_face_values fe n c f) u q
       = get_function_symmetric_gradients (make_fe_face_values' fe n c f) u q
       /\ normal_vector (make_fe_face_values fe n c f) q
          = normal_vector (make_fe_face_values' fe n c f) q
       /\ JxW (make_fe_face_values fe n c f) q
          = JxW (make_fe_face_values' fe n c f) q) ->
   fst (fst (compute_boundary_load dim make_fe_face_values pfs comm data bid))
   = fst (fst (compute_boundary_load dim make_fe_face_values' pfs comm data
                 bid)))
  /\ ((2 <= dim)%nat -> (direction = 0 \/ direction = 1)%Z ->
      (forall fe n c f q u,
          get_function_values (make_fe_face_values fe n c f) u q
          = get_function_values (make_fe_face_values' fe n c f) u q
          /\ get_function_gradients (make_fe_face_values fe n c f) u q
             = get_function_gradients (make_fe_face_values' fe n c f) u q
          /\ JxW (make_fe_face_values fe n c f) q
             = JxW (make_fe_face_values' fe n c f) q
          /\ entry1 (quadrature_point (make_fe_face_values fe n c f) q)
               (Z.to_nat (1 - direction))
             = entry1 (quadrature_point (make_fe_face_values' fe n c f) q)
                 (Z.to_nat (1 - direction))) ->
      fst (fst (compute_cod dim make_fe_face_values pfs lines comm direction
                  space_tol))
      = fst (fst (compute_cod dim make_fe_face_values' pfs lines comm
                    direction space_tol))).
Proof.
  split.
  - intros H. rewrite !compute_boundary_load_value.
    unfold boundary_load_spec. apply build1_ext. intros i _.
    f_equal. apply map_ext. intros pf. unfold boundary_samples.
    apply sum_samples_ext. intros c f q.
    unfold load_density. simpl.
    destruct (H (fe pf) (degree (fe pf) + 1)%nat c f q (solution pf))
      as [-> [-> ->]].
    reflexivity.
  - intros Hdim Hdir H. rewrite !compute_cod_value_2D by assumption.
    f_equal. unfold cod_spec. apply build1_ext. intros k _.
    f_equal. apply map_ext. intros pf.
    rewrite !cod_samples_by_cell.
    apply sum_samples_ext. intros c f q.
    unfold cod_contribution, on_line, cod_density. simpl.
    destruct (H (fe pf) 3%nat c f q (solution pf)) as [-> [-> [-> ->]]].
    reflexivity.
Qed.

End EvaluatorData.

(** ** The further properties on the strip *)

Section FurtherOnTheStrip.

Import Example.

(** On the strip of two squares on two ranks, the right end (boundary
    identifier 1) under the uniform strain [[1/100, 0], [0, 0]]. *)
Lemma boundary_load_uniform_field_witness :
  fst (fst (compute_boundary_load 2 strip_fe_face_values
              [solver left_of_2 uniform_solution;
               solver right_of_2 uniform_solution] [] steel 1))
  = build1 2 (fun i =>
      traction 2 steel [[Q2Qc (1 # 100); 0]; [0; 0]] [1; 0] i
      * sum_list
          (map (fun pf =>
                  sum_list
                    (map (fun s => JxW (fst s) (snd s))
                       (boundary_samples 2 strip_fe_face_values pf 1)))
             [solver left_of_2 uniform_solution;
              solver right_of_2 uniform_solution])).
Proof.
  apply (boundary_load_uniform_field 2 strip_fe_face_values
           [solver left_of_2 uniform_solution;
            solver right_of_2 uniform_solution] [] steel 1
           [[Q2Qc (1 # 100); 0]; [0; 0]] [1; 0]).
  intros pf s Hpf Hs. unfold boundary_samples in Hs.
  apply in_flat_map in Hs. destruct Hs as [c [Hc Hs]].
  apply in_flat_map in Hs. destruct Hs as [f [Hf Hs]].
  apply in_map_iff in Hs. destruct Hs as [q [<- _]].
  split.
  - intros a b _ _. destruct Hpf as [<-|[<-|[]]]; reflexivity.
  - intros b _.
    destruct Hpf as [<-|[<-|[]]]; simpl in Hc; destruct Hc as [<-|[]];
      vm_compute in Hf.
    + destruct Hf.
    + destruct Hf as [<-|[]]. reflexivity.
Defined.

(** A translation [(1, 0)] of the strip has no strain. *)
Lemma boundary_load_zero_strain_witness :
  fst (fst (compute_boundary_load 2 strip_fe_face_values
              [solver left_of_2 [1; 0; 0; 0; 0; 0; 0];
               solver right_of_2 [1; 0; 0; 0; 0; 0; 0]] [] steel 1))
  = tensor1_zero 2.
Proof.
  apply (boundary_load_zero_strain 2 strip_fe_face_values
           [solver left_of_2 [1; 0; 0; 0; 0; 0; 0];
            solver right_of_2 [1; 0; 0; 0; 0; 0; 0]] [] steel 1).
  intros pf s a b Hpf Hs Ha Hb. unfold boundary_samples in Hs.
  apply in_flat_map in Hs. destruct Hs as [c [Hc Hs]].
  apply in_flat_map in Hs. destruct Hs as [f [Hf Hs]].
  apply in_map_iff in Hs. destruct Hs as [q [<- _]].
  destruct a as [|[|a]]; [| |lia]; (destruct b as [|[|b]]; [| |lia]);
    destruct Hpf as [<-|[<-|[]]]; reflexivity.
Defined.


(** The tolerance zero on the line [y = 0.5]. *)
Lemma compute_cod_nonpositive_tolerance_witness :
  fst (fst (compute_cod 2 strip_fe_face_values
              [solver left_of_2 uniform_solution;
               solver right_of_2 uniform_solution] middle_line [] 0 0))
  = Ok [0].
Proof.
  apply (compute_cod_nonpositive_tolerance 2 strip_fe_face_values
           [solver left_of_2 uniform_solution;
            solver right_of_2 uniform_solution] middle_line [] 0 0).
  - apply le_n.
  - left. reflexivity.
  - apply Qcle_refl.
Defined.

(** Two lines, [y = 0.5] and [y = 0]. *)
Lemma compute_cod_line_by_line_witness :
  exists cod,
    fst (fst (compute_cod 2 strip_fe_face_values
                [solver serial2 uniform_solution] [half; 0] [] 0 space_tol))
    = Ok cod
    /\ length cod = 2%nat
    /\ fst (fst (compute_cod 2 strip_fe_face_values
                   [solver serial2 uniform_solution] [half] [] 0 space_tol))
       = Ok [entry1 cod 0].
Proof.
  destruct (compute_cod_line_by_line 2 strip_fe_face_values
              [solver serial2 uniform_solution] [half; 0] [] 0 space_tol
              (le_n 2) (or_introl eq_refl)) as [cod [Hcod [Hlen Hline]]].
  exists cod. split; [exact Hcod|]. split; [exact Hlen|].
  apply (Hline 0%nat half). reflexivity.
Defined.

(** The left rank of the two-rank strip, its ghost square replaced by an
    artificial one. *)
Lemma only_owned_cells_are_integrated_witness :
  fst (local_boundary_load 2 strip_fe_face_values
         (solver left_of_2 uniform_solution) steel 0)
  = fst (local_boundary_load 2 strip_fe_face_values
           (solver [owned (strip_cell 2 0); artificial (strip_cell 2 1)]
              uniform_solution) steel 0)
  /\ fst (local_cod 2 strip_fe_face_values
            (solver left_of_2 uniform_solution) middle_line 0 space_tol)
     = fst (local_cod 2 strip_fe_face_values
              (solver [owned (strip_cell 2 0); artificial (strip_cell 2 1)]
                 uniform_solution) middle_line 0 space_tol).
Proof.
  apply (only_owned_cells_are_integrated 2 strip_fe_face_values
           (solver left_of_2 uniform_solution)
           (solver [owned (strip_cell 2 0); artificial (strip_cell 2 1)]
              uniform_solution) steel 0 middle_line 0 space_tol);
    reflexivity.
Defined.

(** The second rank of the four-square strip without its artificial
    squares. *)
Lemma artificial_cells_are_skipped_witness :
  get_point_values 2 grid_distance [rank0_of_2; rank1_of_2] nodal_solution 0
    [tie_point; hit_point] []
  = get_point_values 2 grid_distance
      [rank0_of_2; [ghost (strip_cell 4 2); owned (strip_cell 4 3)]]
      nodal_solution 0 [tie_point; hit_point] [].
Proof.
  apply (artificial_cells_are_skipped 2 grid_distance
           [rank0_of_2; rank1_of_2]
           [rank0_of_2; [ghost (strip_cell 4 2); owned (strip_cell 4 3)]]
           nodal_solution 0 [tie_point; hit_point] []).
  constructor; [reflexivity|]. constructor; [reflexivity|]. constructor.
Defined.

(** No query point on ranks without a vertex, and no line in three
    dimensions with direction 2. *)
Lemma empty_argument_lists_witness :
  get_point_values 2 grid_distance [only_artificial; no_cells]
    nodal_solution 0 [] []
  = (Ok [], [])
  /\ compute_cod 3 strip_fe_face_values [solver serial2 uniform_solution]
       [] [] 2 space_tol
     = (Ok [], map assign_relevant_solution [solver serial2 uniform_solution],
        []).
Proof.
  split.
  - apply (proj1 (empty_argument_lists 2 strip_fe_face_values grid_distance)).
  - apply (proj2 (empty_argument_lists 3 strip_fe_face_values grid_distance)).
    simpl. lia.
Defined.

(** Two query points on the two-rank strip. *)
Lemma get_point_values_point_by_point_witness :
  exists values,
    fst (get_point_values 2 grid_distance [left_of_2; right_of_2]
           nodal_solution 0 [hit_point; quarter_point] [])
    = Ok values
    /\ length values = 2%nat
    /\ fst (get_point_values 2 grid_distance [left_of_2; right_of_2]
              nodal_solution 0 [quarter_point] [])
       = Ok [entry1 values 1].
Proof.
  destruct (get_point_values_point_by_point 2 grid_distance
              [left_of_2; right_of_2] nodal_solution 0
              [hit_point; quarter_point] [])
    as [values [Hv [Hlen Hp]]].
  - apply sampler_inputs_okb_sound. vm_compute. reflexivity.
  - exists values. split; [exact Hv|]. split; [exact Hlen|].
    apply (Hp 1%nat quarter_point []). reflexivity.
Defined.

(** The point [(1.5, 0)] on the serial strip of four squares: the
    vertices [(1, 0)] and [(2, 0)] are equally near; the traversal meets
    [(1, 0)] first, as vertex 1 of the first square. *)
Lemma get_point_values_equidistant_witness :
  exists values,
    fst (get_point_values 2 grid_distance [serial4] nodal_solution 0
           [tie_point; hit_point] [])
    = Ok values
    /\ values !! 0%nat
       = Some (entry1 nodal_solution (Z.to_nat (strip_dof 0 1 0))).
Proof.
  destruct (get_point_values_equidistant 2 grid_distance [serial4]
              nodal_solution 0 [tie_point; hit_point] [] 0%nat tie_point
              serial4 [(strip_cell 4 0, 0%nat)]
              (skipn 2 (visible_vertices 2 serial4))
              (strip_cell 4 0, 1%nat))
    as [values [Hv [_ Hfirst]]].
  - apply sampler_inputs_okb_sound. vm_compute. reflexivity.
  - reflexivity.
  - left. reflexivity.
  - reflexivity.
  - intros cv' [<-|[]]. vm_compute. reflexivity.
  - intros dh' cv' [<-|[]] Hcv'. simpl in Hcv'.
    repeat (destruct Hcv' as [<-|Hcv']; [vm_compute; discriminate|]).
    destruct Hcv'.
  - exists values. split; [exact Hv|]. apply Hfirst. reflexivity.
Defined.

(** The two-rank strip with a third rank that sees no vertex, the ranks
    renumbered. *)
Lemma get_point_values_rank_order_witness :
  fst (get_point_values 2 grid_distance
         [right_of_2; only_artificial; left_of_2] nodal_solution 0
         [tie_point; hit_point] [])
  = fst (get_point_values 2 grid_distance [left_of_2; right_of_2]
           nodal_solution 0 [tie_point; hit_point] []).
Proof.
  apply (get_point_values_rank_order 2 grid_distance [left_of_2; right_of_2]
           [only_artificial] [right_of_2; only_artificial; left_of_2]
           nodal_solution 0 [tie_point; hit_point] [] []).
  - apply sampler_inputs_okb_sound. vm_compute. reflexivity.
  - constructor; [reflexivity|constructor].
  - eapply perm_trans; [apply perm_swap|].
    apply perm_skip. apply perm_swap.
Defined.


(** Component 0 on the two-rank strip, after the degree of freedom 1 (a
    vertex's component 1) has been overwritten. *)
Lemma get_point_values_reads_vertex_dofs_witness :
  fst (get_point_values 2 grid_distance [left_of_2; right_of_2]
         (<[1%nat := 0]> nodal_solution) 0 [tie_point; hit_point] [])
  = fst (get_point_values 2 grid_distance [left_of_2; right_of_2]
           nodal_solution 0 [tie_point; hit_point] []).
Proof.
  apply (get_point_values_reads_vertex_dofs 2 grid_distance
           [left_of_2; right_of_2] nodal_solution
           (<[1%nat := 0]> nodal_solution) 0 [tie_point; hit_point] [] []).
  - apply sampler_inputs_okb_sound. vm_compute. reflexivity.
  - apply sampler_inputs_okb_sound. vm_compute. reflexivity.
  - intros dh cv [<-|[<-|[]]] Hcv; simpl in Hcv;
      repeat (destruct Hcv as [<-|Hcv]; [reflexivity|]);
      destruct Hcv.
Defined.

(** The strip evaluator against one that reports no quadrature points,
    values and gradients, and against one that reports no strains and
    normals and moves every quadrature point to [x = 0]. *)
Lemma integrals_read_requested_data_witness :
  fst (fst (compute_boundary_load 2 strip_fe_face_values
              [solver serial2 uniform_solution] [] steel 1))
  = fst (fst (compute_boundary_load 2
                (fun fe n c f =>
                   {| normal_vector :=
                        normal_vector (strip_fe_face_values fe n c f);
                      JxW := JxW (strip_fe_face_values fe n c f);
                      quadrature_point := fun _ => [];
                      get_function_symmetric_gradients :=
                        get_function_symmetric_gradients
                          (strip_fe_face_values fe n c f);
                      get_function_values := fun _ _ => [];
                      get_function_gradients := fun _ _ => [] |})
                [solver serial2 uniform_solution] [] steel 1))
  /\ fst (fst (compute_cod 2 strip_fe_face_values
                 [solver serial2 uniform_solution] middle_line [] 0
                 space_tol))
     = fst (fst (compute_cod 2
                   (fun fe n c f =>
                      {| normal_vector := fun _ => [];
                         JxW := JxW (strip_fe_face_values fe n c f);
                         quadrature_point := fun q =>
                           [0;
                            entry1
                              (quadrature_point
                                 (strip_fe_face_values fe n c f) q) 1];
                         get_function_symmetric_gradients := fun _ _ => [];
                         get_function_values :=
                           get_function_values
                             (strip_fe_face_values fe n c f);
                         get_function_gradients :=
                           get_function_gradients
                             (strip_fe_face_values fe n c f) |})
                   [solver serial2 uniform_solution] middle_line [] 0
                   space_tol)).
Proof.
  split.
  - apply (proj1 (integrals_read_requested_data 2 strip_fe_face_values _
                    [solver serial2 uniform_solution] [] steel 1 middle_line
                    0 space_tol)).
    intros fe n c f q u. repeat split; reflexivity.
  - apply (proj2 (integrals_read_requested_data 2 strip_fe_face_values _
                    [solver serial2 uniform_solution] [] steel 1 middle_line
                    0 space_tol)).
    + apply le_n.
    + left. reflexivity.
    + intros fe n c f q u. repeat split; reflexivity.
Defined.

End FurtherOnTheStrip.
